(** * raycast-logger: the redaction engine

    A shallow embedding of [src/redaction.ts] (the second half of
    [src/src/logger.ts]): the pattern scrubber [redactString] with its helper
    [maskEmail], the key-based rule [redactValueByKey] and the entry point
    [sanitizeArgs].

    Strings are sequences of code units below 256 (Rocq's [string]); inside
    the regular-expression engine they are handled as [list ascii]. *)

From Stdlib Require Import List Bool Arith NArith ZArith Lia Relations.
From Stdlib Require Import Ascii String DecimalString.
Import ListNotations.

Set Warnings "-register-all".

Local Open Scope list_scope.

(* ------------------------------------------------------------------ *)
(** ** Characters *)

Module Chars.

Definition code (c : ascii) : N := N_of_ascii c.

Definition between (lo hi : N) (c : ascii) : bool :=
  (N.leb lo (code c) && N.leb (code c) hi)%bool.

(** The double quote, written by its code so that no string literal has to
    hold one. *)
Definition dquote : ascii := "034"%char.
Definition squote : ascii := "039"%char.

(** [\s] of ECMAScript restricted to code units below 256: TAB, LF, VT, FF,
    CR, SPACE and NBSP. *)
Definition isSpace (c : ascii) : bool :=
  (between 9 13 c || N.eqb (code c) 32 || N.eqb (code c) 160)%bool.

(** [\d]. *)
Definition isDigit (c : ascii) : bool := between 48 57 c.

Definition isUpper (c : ascii) : bool :=
  (between 65 90 c || (between 192 222 c && negb (N.eqb (code c) 215)))%bool.

Definition isLower (c : ascii) : bool :=
  (between 97 122 c || (between 224 254 c && negb (N.eqb (code c) 247)))%bool.

(** [String.prototype.toLowerCase] and the upper-casing used by the
    case-insensitive flag, on one code unit. *)
Definition toLower (c : ascii) : ascii :=
  if isUpper c then ascii_of_N (code c + 32) else c.

Definition toUpper (c : ascii) : ascii :=
  if isLower c then ascii_of_N (code c - 32) else c.

(** [Canonicalize] of the ECMAScript regular-expression semantics (no
    unicode flag): identity without the [i] flag, upper-casing with it. *)
Definition canonicalize (ic : bool) (c : ascii) : ascii :=
  if ic then toUpper c else c.

Definition eqb_canon (ic : bool) (a c : ascii) : bool :=
  Ascii.eqb (canonicalize ic a) (canonicalize ic c).

End Chars.
Import Chars.

Fixpoint toLowerCase (s : string) : string :=
  match s with
  | EmptyString => EmptyString
  | String c s' => String (toLower c) (toLowerCase s')
  end.

(* ------------------------------------------------------------------ *)
(** ** Regular expressions

    The fragment of the ECMAScript pattern language used by the six scrub
    passes: literals, character classes, greedy quantifiers on classes,
    concatenation, alternation and capture groups.  The matcher is the
    backtracking matcher of the language definition, in continuation-passing
    style: a continuation receives the rest of the input and the captures. *)

Module Regex.

Inductive citem : Type :=
| CChar (a : ascii)
| CRange (lo hi : ascii)
| CSpace
| CDigit.

Record cclass : Type := Class { cneg : bool; citems : list citem }.

Inductive regex : Type :=
| Lit (s : string)
| One (c : cclass)
| Rep (c : cclass) (min : nat) (max : option nat)
| Cat (r1 r2 : regex)
| Alt (r1 r2 : regex)
| Group (r : regex).

Definition Star (c : cclass) : regex := Rep c 0 None.
Definition Plus (c : cclass) : regex := Rep c 1 None.
Definition Opt (c : cclass) : regex := Rep c 0 (Some 1).
Definition AtLeast (n : nat) (c : cclass) : regex := Rep c n None.

Definition citem_mem (i : citem) (c : ascii) : bool :=
  match i with
  | CChar a => Ascii.eqb a c
  | CRange lo hi => between (code lo) (code hi) c
  | CSpace => isSpace c
  | CDigit => isDigit c
  end.

Definition items_mem (items : list citem) (c : ascii) : bool :=
  existsb (fun i => citem_mem i c) items.

(** The characters whose canonical form is that of [c]. *)
Definition variants (ic : bool) (c : ascii) : list ascii :=
  if ic then [c; toUpper c; toLower c] else [c].

(** CharacterSetMatcher: some member of the set has the canonical form of
    the input character; a negated class inverts the answer. *)
Definition class_test (ic : bool) (cl : cclass) (c : ascii) : bool :=
  xorb (cneg cl) (existsb (items_mem (citems cl)) (variants ic c)).

Section Matcher.
Variable A : Type.
Variable ic : bool.

Definition Cont : Type := list ascii -> list (list ascii) -> option A.

Fixpoint match_lit (l s : list ascii) : option (list ascii) :=
  match l with
  | [] => Some s
  | a :: l' =>
      match s with
      | c :: s' => if eqb_canon ic a c then match_lit l' s' else None
      | [] => None
      end
  end.

Definition may_take (max : option nat) : bool :=
  match max with Some 0 => false | _ => true end.

Definition less (max : option nat) : option nat :=
  match max with Some n => Some (pred n) | None => None end.

(** Greedy repetition of a class: take one more character first, fall back
    to stopping here when the rest cannot be matched. *)
Fixpoint match_rep (p : ascii -> bool) (min : nat) (max : option nat)
         (s : list ascii) (k : list ascii -> option A) : option A :=
  let stop := match min with 0 => k s | S _ => None end in
  match s with
  | c :: s' =>
      if (may_take max && p c)%bool then
        match match_rep p (pred min) (less max) s' k with
        | Some a => Some a
        | None => stop
        end
      else stop
  | [] => stop
  end.

Fixpoint rmatch (r : regex) (s : list ascii) (caps : list (list ascii))
         (k : Cont) : option A :=
  match r with
  | Lit l =>
      match match_lit (list_ascii_of_string l) s with
      | Some s' => k s' caps
      | None => None
      end
  | One c =>
      match s with
      | x :: s' => if class_test ic c x then k s' caps else None
      | [] => None
      end
  | Rep c min max => match_rep (class_test ic c) min max s (fun s' => k s' caps)
  | Cat r1 r2 => rmatch r1 s caps (fun s1 caps1 => rmatch r2 s1 caps1 k)
  | Alt r1 r2 =>
      match rmatch r1 s caps k with
      | Some a => Some a
      | None => rmatch r2 s caps k
      end
  | Group r1 =>
      rmatch r1 s caps
        (fun s1 caps1 =>
           k s1 (caps1 ++ [firstn (List.length s - List.length s1) s]))
  end.
End Matcher.
Arguments match_rep {A} p min max s k.
Arguments rmatch {A} ic r s caps k.

(** One anchored match attempt: the rest of the input after the match and
    the captured groups. *)
Definition exec (ic : bool) (r : regex) (s : list ascii)
  : option (list ascii * list (list ascii)) :=
  rmatch ic r s [] (fun rest caps => Some (rest, caps)).

(** [String.prototype.replace] with a global pattern: scan left to right, at
    each position not inside the previous match try the pattern, splice the
    replacement in and go on after the match.  [skip] counts the characters
    of the current match still to be dropped.  After an empty match the
    scan moves on by one character, which is copied. *)
Fixpoint replace_from (ic : bool) (r : regex)
         (repl : list ascii -> list (list ascii) -> list ascii)
         (skip : nat) (s : list ascii) : list ascii :=
  match s with
  | [] =>
      match skip with
      | 0 => match exec ic r [] with
             | Some (_, caps) => repl [] caps
             | None => []
             end
      | S _ => []
      end
  | c :: s' =>
      match skip with
      | S n => replace_from ic r repl n s'
      | 0 =>
          match exec ic r s with
          | Some (rest, caps) =>
              let n := List.length s - List.length rest in
              repl (firstn n s) caps ++
              match n with
              | 0 => c :: replace_from ic r repl 0 s'
              | S n' => replace_from ic r repl n' s'
              end
          | None => c :: replace_from ic r repl 0 s'
          end
      end
  end.

Definition replace_all (ic : bool) (r : regex)
           (repl : list ascii -> list (list ascii) -> list ascii)
           (s : string) : string :=
  string_of_list_ascii (replace_from ic r repl 0 (list_ascii_of_string s)).

(** Capture [$n], counted from 1; a group that did not take part is empty. *)
Definition cap (n : nat) (caps : list (list ascii)) : list ascii :=
  nth (pred n) caps [].

End Regex.
Import Regex.

(* ------------------------------------------------------------------ *)
(** ** The patterns of [redaction.ts] *)

Module Patterns.

Definition ch (a : ascii) : cclass := Class false [CChar a].
Definition space : cclass := Class false [CSpace].
Definition digit : cclass := Class false [CDigit].

Definition alnum : list citem :=
  [CRange "A" "Z"; CRange "a" "z"; CRange "0" "9"].

(** [/bearer\s+[^\s<dq>']+/gi], where [<dq>] stands for the double quote. *)
Definition bearer_re : regex :=
  Cat (Lit "bearer")
      (Cat (Plus space)
           (Plus (Class true [CSpace; CChar dquote; CChar squote]))).

(** [/(password|pass|pwd|secret|token|auth|authorization|key)\s*[:=]\s*[^\s&<dq>']+/gi] *)
Definition keyvalue_names : regex :=
  Alt (Lit "password") (Alt (Lit "pass") (Alt (Lit "pwd") (Alt (Lit "secret")
  (Alt (Lit "token") (Alt (Lit "auth") (Alt (Lit "authorization") (Lit "key"))))))).

Definition keyvalue_re : regex :=
  Cat (Group keyvalue_names)
      (Cat (Star space)
           (Cat (One (Class false [CChar ":"; CChar "="]))
                (Cat (Star space)
                     (Plus (Class true [CSpace; CChar "&"; CChar dquote; CChar squote]))))).

(** [/((?:code|2fa|two[-\s]?factor|otp)\s*[:=\s]+)(\d{4,8})/gi] *)
Definition code_labels : regex :=
  Alt (Lit "code") (Alt (Lit "2fa")
  (Alt (Cat (Lit "two") (Cat (Opt (Class false [CChar "-"; CSpace])) (Lit "factor")))
       (Lit "otp"))).

Definition code_re : regex :=
  Cat (Group (Cat code_labels
                  (Cat (Star space)
                       (Plus (Class false [CChar ":"; CChar "="; CSpace])))))
      (Group (Rep digit 4 (Some 8))).

(** [/[a-f0-9]{32,}/gi] *)
Definition hex_re : regex :=
  AtLeast 32 (Class false [CRange "a" "f"; CRange "0" "9"]).

(** [/[A-Za-z0-9+/]{20,}={0,2}/g] *)
Definition base64_re : regex :=
  Cat (AtLeast 20 (Class false (alnum ++ [CChar "+"; CChar "/"])))
      (Rep (ch "=") 0 (Some 2)).

(** [/([A-Za-z0-9._%+-])[^@\s]*(@[A-Za-z0-9.-]+\.[A-Za-z]{2,})/g] *)
Definition email_re : regex :=
  Cat (Group (One (Class false (alnum ++ [CChar "."; CChar "_"; CChar "%"; CChar "+"; CChar "-"]))))
      (Cat (Star (Class true [CChar "@"; CSpace]))
           (Group (Cat (Lit "@")
                       (Cat (Plus (Class false (alnum ++ [CChar "."; CChar "-"])))
                            (Cat (Lit ".")
                                 (AtLeast 2 (Class false [CRange "A" "Z"; CRange "a" "z"]))))))).

End Patterns.
Import Patterns.

Definition stars3 : list ascii := list_ascii_of_string "***".
Definition stars6 : list ascii := list_ascii_of_string "******".

(** [maskEmail]: [`${p1}***${p2}`]. *)
Definition maskEmail (text : string) : string :=
  replace_all false email_re
    (fun _ caps => cap 1 caps ++ stars3 ++ cap 2 caps) text.

(** The six passes of [redactString], named after the comments in the
    source. *)
Definition maskBearer (s : string) : string :=
  replace_all true bearer_re (fun _ _ => list_ascii_of_string "Bearer ***") s.

Definition maskKeyValue (s : string) : string :=
  replace_all true keyvalue_re
    (fun _ caps => cap 1 caps ++ list_ascii_of_string "=***") s.

Definition maskCode (s : string) : string :=
  replace_all true code_re (fun _ caps => cap 1 caps ++ stars6) s.

Definition maskHex (s : string) : string :=
  replace_all true hex_re (fun _ _ => stars3) s.

Definition maskBase64 (s : string) : string :=
  replace_all false base64_re (fun _ _ => stars3) s.

Definition redactString (input : string) : string :=
  let s := input in
  let s := maskBearer s in
  let s := maskKeyValue s in
  let s := maskCode s in
  let s := maskHex s in
  let s := maskBase64 s in
  let s := maskEmail s in
  s.

(* ------------------------------------------------------------------ *)
(** ** Values

    What [unknown] can hold, as far as the sanitizer distinguishes it.
    A number is either one that JSON text gives back as it is ([VNum]; the
    integral ones stand for them) or one of the four that it does not
    ([VNonJson]): [JSON.stringify] writes NaN and the two infinities as
    [null] and negative zero as [0].  A container is either written in place
    ([VArr], [VObj]: a node nothing else refers to) or named ([VRef]): a
    named node lives in the heap and may be referred to from several places,
    also from inside itself.  The sanitizer never writes to its input, so
    the heap is read only.  An object is its list of own enumerable
    properties in enumeration order. *)

Definition loc : Type := nat.

Inductive NonJsonNumber : Type := NaN | Infinity | NegInfinity | NegZero.

Inductive Value : Type :=
| VUndefined
| VNull
| VBool (b : bool)
| VNum (n : Z)
| VNonJson (x : NonJsonNumber)
| VBigInt (n : Z)
| VStr (s : string)
| VArr (items : list Value)
| VObj (props : list (string * Value))
| VRef (l : loc).

Inductive Node : Type :=
| NArr (items : list Value)
| NObj (props : list (string * Value)).

Definition Heap : Type := loc -> Node.

(** JSON text, kept as its syntax tree: what [JSON.stringify] writes and
    [JSON.parse] reads back. *)
Inductive Json : Type :=
| JNull
| JBool (b : bool)
| JNum (n : Z)
| JStr (s : string)
| JArr (items : list Json)
| JObj (members : list (string * Json)).

(** Exceptions the code can meet: the call stack is exhausted, a value
    cannot be serialized (a BigInt, a circular structure), or the text to
    parse is not JSON. *)
Inductive exn : Type := RangeError | TypeError | SyntaxError.

Inductive result (A : Type) : Type :=
| Ok (a : A)
| Throw (e : exn).
Arguments Ok {A} a.
Arguments Throw {A} e.

Definition bind {A B : Type} (m : result A) (f : A -> result B) : result B :=
  match m with
  | Ok a => f a
  | Throw e => Throw e
  end.

Notation "x <- m ;; f" := (bind m (fun x => f))
  (at level 61, m at next level, right associativity).

(** [try { body } catch { handler }] *)
Definition try_catch {A : Type} (body : result A) (handler : A) : A :=
  match body with
  | Ok a => a
  | Throw _ => handler
  end.

Fixpoint mapM {A B : Type} (f : A -> result B) (l : list A) : result (list B) :=
  match l with
  | [] => Ok []
  | x :: l' => y <- f x ;; ys <- mapM f l' ;; Ok (y :: ys)
  end.

(** [Array.prototype.includes] on an array of strings. *)
Definition includes (names : list string) (k : string) : bool :=
  existsb (String.eqb k) names.
Arguments includes : simpl never.

(** The key of the [i]-th array element as the replacer sees it. *)
Definition index_key (i : nat) : string :=
  NilEmpty.string_of_uint (Nat.to_uint i).

(** [JSON.parse] after [JSON.stringify]: [undefined] is not JSON text. *)
Fixpoint value_of_json (j : Json) : Value :=
  match j with
  | JNull => VNull
  | JBool b => VBool b
  | JNum n => VNum n
  | JStr s => VStr s
  | JArr items => VArr (map value_of_json items)
  | JObj members => VObj (map (fun kv => (fst kv, value_of_json (snd kv))) members)
  end.

(** SerializeJSONProperty on a number that is not finite or is negative
    zero: [null], and [0] for negative zero. *)
Definition json_of_number (x : NonJsonNumber) : Json :=
  match x with
  | NegZero => JNum 0
  | NaN | Infinity | NegInfinity => JNull
  end.

Definition JSON_parse (text : option Json) : result Value :=
  match text with
  | Some j => Ok (value_of_json j)
  | None => Throw SyntaxError
  end.

(** SerializeJSONArray and SerializeJSONObject, given the serializer of one
    property: an element that serializes to [undefined] is written as
    [null], a property that does is left out. *)
Fixpoint serialize_elements (ser : string -> Value -> result (option Json))
         (i : nat) (items : list Value) : result (list Json) :=
  match items with
  | [] => Ok []
  | v :: rest =>
      j <- ser (index_key i) v ;;
      js <- serialize_elements ser (S i) rest ;;
      Ok (match j with Some j' => j' | None => JNull end :: js)
  end.

Fixpoint serialize_members (ser : string -> Value -> result (option Json))
         (props : list (string * Value)) : result (list (string * Json)) :=
  match props with
  | [] => Ok []
  | (k, v) :: rest =>
      j <- ser k v ;;
      js <- serialize_members ser rest ;;
      Ok (match j with Some j' => (k, j') :: js | None => js end)
  end.

Definition sensitive_names : list string :=
  ["password"; "pass"; "pwd"; "secret"; "token"; "auth"; "authorization";
   "applepassword"]%string.
Definition code_names : list string :=
  ["code"; "otp"; "2fa"; "twofactor"; "two_factor"]%string.
Definition identifier_names : list string :=
  ["email"; "appleid"; "apple_id"; "username"; "user"]%string.
Definition numeric_code_names : list string :=
  ["code"; "otp"; "2fa"]%string.

(** ** The sanitizer

    [d] bounds the depth of the call stack: every call of
    [redactValueByKey] and every property the serializer descends into
    takes one frame, and a call with no frame left throws [RangeError],
    which the [try] blocks of the code catch like any other exception.  The
    bound is counted from inside the [try] block of [sanitizeArgs] (a
    stack too short to enter [sanitizeArgs] and the callback of its [map]
    at all is outside the model), and it is part of the model because the
    code relies on it:
    [JSON.stringify(value, replacer)] first hands the replacer the empty key
    and [value] itself, so [redactValueByKey] on an object calls itself on
    the same object, and only the exhausted stack ends the descent.

    [SerializeJSONProperty] is the operation of that name of
    [JSON.stringify] with the replacer
    [(key, value) => redactValueByKey(key, value)]; [stack] is the
    serializer's list of the named containers it is inside of, by which it
    detects a circular structure. *)

Section Sanitizer.
Variable heap : Heap.

Fixpoint redactValueByKey (d : nat) (key : string) (value : Value)
  {struct d} : result Value :=
  match d with
  | 0 => Throw RangeError
  | S d' =>
      let k := toLowerCase key in
      match value with
      | VUndefined | VNull => Ok value
      | VStr s =>
          if includes sensitive_names k then Ok (VStr "***")
          else if includes code_names k then Ok (VStr "******")
          else if includes identifier_names k then Ok (VStr (maskEmail s))
          else Ok (VStr (redactString s))
      | VNum _ | VNonJson _ =>
          if includes numeric_code_names k then Ok (VNum 0) else Ok value
      | VArr _ | VObj _ | VRef _ =>
          Ok (try_catch
                (json <- SerializeJSONProperty d' [] "" value ;;
                 JSON_parse json)
                value)
      | VBool _ | VBigInt _ => Ok value
      end
  end

with SerializeJSONProperty (d : nat) (stack : list loc) (key : string)
       (value : Value) {struct d} : result (option Json) :=
  match d with
  | 0 => Throw RangeError
  | S d' =>
      value <- redactValueByKey d' key value ;;
      match value with
      | VUndefined => Ok None
      | VNull => Ok (Some JNull)
      | VBool b => Ok (Some (JBool b))
      | VNum n => Ok (Some (JNum n))
      | VNonJson x => Ok (Some (json_of_number x))
      | VStr s => Ok (Some (JStr s))
      | VBigInt _ => Throw TypeError
      | VArr items =>
          js <- serialize_elements (SerializeJSONProperty d' stack) 0 items ;;
          Ok (Some (JArr js))
      | VObj props =>
          js <- serialize_members (SerializeJSONProperty d' stack) props ;;
          Ok (Some (JObj js))
      | VRef l =>
          if existsb (Nat.eqb l) stack then Throw TypeError
          else
            match heap l with
            | NArr items =>
                js <- serialize_elements
                        (SerializeJSONProperty d' (l :: stack)) 0 items ;;
                Ok (Some (JArr js))
            | NObj props =>
                js <- serialize_members
                        (SerializeJSONProperty d' (l :: stack)) props ;;
                Ok (Some (JObj js))
            end
      end
  end.

(** [JSON.stringify(arg, (key, value) => redactValueByKey(key, value))] *)
Definition JSON_stringify (d : nat) (arg : Value) : result (option Json) :=
  SerializeJSONProperty d [] "" arg.

Definition sanitizeArg (d : nat) (arg : Value) : Value :=
  match arg with
  | VStr s => VStr (redactString s)
  | VArr _ | VObj _ | VRef _ =>
      try_catch (json <- JSON_stringify d arg ;; JSON_parse json) arg
  | _ => arg
  end.

Definition sanitizeArgs (d : nat) (args : list Value) : list Value :=
  map (sanitizeArg d) args.
End Sanitizer.
Arguments redactValueByKey : simpl never.
Arguments SerializeJSONProperty : simpl never.

(* ------------------------------------------------------------------ *)
(** ** What the sanitizer is meant to compute

    [clean] rebuilds a value in one pass: a scalar is redacted under the key
    it is found at (and a number that JSON text cannot hold is then read
    back as the text has it), a container is rebuilt from its cleaned
    members, an array element being found at its index.  It is used to
    state what [sanitizeArgs] returns on plain data. *)

Definition empty_heap : Heap := fun _ => NObj [].

Definition scalar (v : Value) : bool :=
  match v with
  | VNull | VBool _ | VNum _ | VStr _ => true
  | _ => false
  end.

Definition container (v : Value) : bool :=
  match v with
  | VArr _ | VObj _ | VRef _ => true
  | _ => false
  end.

(** The replacer's answer on a scalar; it needs one frame and no heap. *)
Definition redactScalar (key : string) (v : Value) : Value :=
  try_catch (redactValueByKey empty_heap 1 key v) v.

Fixpoint map_indexed {A B : Type} (f : string -> A -> B) (i : nat) (l : list A)
  : list B :=
  match l with
  | [] => []
  | x :: l' => f (index_key i) x :: map_indexed f (S i) l'
  end.

Definition map_keyed {A B : Type} (f : string -> A -> B) (l : list (string * A))
  : list (string * B) :=
  map (fun kv => (fst kv, f (fst kv) (snd kv))) l.

Fixpoint Forall_indexed {A : Type} (P : string -> A -> Prop) (i : nat) (l : list A)
  : Prop :=
  match l with
  | [] => True
  | x :: l' => P (index_key i) x /\ Forall_indexed P (S i) l'
  end.

Fixpoint Forall_keyed {A : Type} (P : string -> A -> Prop) (l : list (string * A))
  : Prop :=
  match l with
  | [] => True
  | kv :: l' => P (fst kv) (snd kv) /\ Forall_keyed P l'
  end.

(** What the JSON round trip makes of a scalar the replacer returned. *)
Definition read_back (v : Value) : Value :=
  match v with
  | VNonJson x => value_of_json (json_of_number x)
  | _ => v
  end.

Fixpoint clean (key : string) (v : Value) {struct v} : Value :=
  match v with
  | VArr items => VArr (map_indexed clean 0 items)
  | VObj props => VObj (map_keyed clean props)
  | VNonJson _ => read_back (redactScalar key v)
  | _ => redactScalar key v
  end.

(** Plain data whose scalars are settled: redacting a redacted scalar again
    (under the same key) changes nothing.  A number that JSON text cannot
    hold is settled: what is read back for it is [null] or [0], which the
    replacer leaves alone. *)
Fixpoint settled (key : string) (v : Value) {struct v} : Prop :=
  match v with
  | VArr items => Forall_indexed settled 0 items
  | VObj props => Forall_keyed settled props
  | VNull | VBool _ | VNum _ | VStr _ =>
      redactScalar key (redactScalar key v) = redactScalar key v
  | VNonJson _ => True
  | _ => False
  end.

Fixpoint height (v : Value) : nat :=
  match v with
  | VArr items => S (list_max (map height items))
  | VObj props => S (list_max (map (fun kv => height (snd kv)) props))
  | _ => 0
  end.

(** ** Shape *)

Inductive Shape : Type :=
| SLeaf
| SArr (items : list Shape)
| SObj (props : list (string * Shape)).

Fixpoint shape (v : Value) : Shape :=
  match v with
  | VArr items => SArr (map shape items)
  | VObj props => SObj (map (fun kv => (fst kv, shape (snd kv))) props)
  | _ => SLeaf
  end.

Definition is_undefined (v : Value) : bool :=
  match v with VUndefined => true | _ => false end.

(** Data written in place in which no mapping has a property whose value is
    [undefined]. *)
Fixpoint plain (v : Value) : bool :=
  match v with
  | VRef _ => false
  | VArr items => forallb plain items
  | VObj props =>
      forallb (fun kv => (negb (is_undefined (snd kv)) && plain (snd kv))%bool) props
  | _ => true
  end.

(** ** References *)

Definition members (heap : Heap) (v : Value) : list Value :=
  match v with
  | VArr items => items
  | VObj props => map snd props
  | VRef l =>
      match heap l with
      | NArr items => items
      | NObj props => map snd props
      end
  | _ => []
  end.

(** [refers heap v w]: [w] is an element or a property value of [v]. *)
Definition refers (heap : Heap) (v w : Value) : Prop := In w (members heap v).

(** [v] contains a value that refers to itself, directly or through
    others. *)
Definition contains_cycle (heap : Heap) (v : Value) : Prop :=
  exists x, clos_refl_trans Value (refers heap) v x /\
            clos_trans Value (refers heap) x x.

(** [v] contains a BigInt, which [JSON.stringify] refuses. *)
Inductive holds_bigint (heap : Heap) : Value -> Prop :=
| holds_here n : holds_bigint heap (VBigInt n)
| holds_below v w : refers heap v w -> holds_bigint heap w -> holds_bigint heap v.

(** A mapping whose property [self] is the mapping itself. *)
Definition looping_heap : Heap :=
  fun l =>
    match l with
    | 0 => NObj [("password"%string, VStr "hunter2"); ("self"%string, VRef 0)]
    | _ => NObj []
    end.

(* ------------------------------------------------------------------ *)
(** * Properties of the sanitizer *)

(** Induction on values, with the members of a container as premises. *)
Section ValueInduction.
Variable P : Value -> Prop.
Hypothesis P_atom : forall v, container v = false -> P v.
Hypothesis P_ref : forall l, P (VRef l).
Hypothesis P_arr : forall items, Forall P items -> P (VArr items).
Hypothesis P_obj :
  forall props, Forall (fun kv => P (snd kv)) props -> P (VObj props).

Fixpoint Value_induction (v : Value) : P v :=
  match v with
  | VArr items =>
      P_arr items
        ((fix go (l : list Value) : Forall P l :=
            match l with
            | [] => Forall_nil P
            | x :: l' => Forall_cons x (Value_induction x) (go l')
            end) items)
  | VObj props =>
      P_obj props
        ((fix go (l : list (string * Value)) : Forall (fun kv => P (snd kv)) l :=
            match l with
            | [] => Forall_nil _
            | kv :: l' =>
                @Forall_cons _ (fun kv => P (snd kv)) kv l'
                  (Value_induction (snd kv)) (go l')
            end) props)
  | VRef l => P_ref l
  | VUndefined => P_atom VUndefined eq_refl
  | VNull => P_atom VNull eq_refl
  | VBool b => P_atom (VBool b) eq_refl
  | VNum n => P_atom (VNum n) eq_refl
  | VNonJson x => P_atom (VNonJson x) eq_refl
  | VBigInt n => P_atom (VBigInt n) eq_refl
  | VStr s => P_atom (VStr s) eq_refl
  end.
End ValueInduction.

Ltac split_ifs :=
  repeat match goal with
         | |- context [if ?b then _ else _] => destruct b
         | H : context [if ?b then _ else _] |- _ => destruct b
         end.

Section SanitizerFacts.
Variable heap : Heap.

Lemma redactValueByKey_S' (h : Heap) d key value :
  redactValueByKey h (S d) key value =
  let k := toLowerCase key in
  match value with
  | VUndefined | VNull => Ok value
  | VStr s =>
      if includes sensitive_names k then Ok (VStr "***")
      else if includes code_names k then Ok (VStr "******")
      else if includes identifier_names k then Ok (VStr (maskEmail s))
      else Ok (VStr (redactString s))
  | VNum _ | VNonJson _ =>
      if includes numeric_code_names k then Ok (VNum 0) else Ok value
  | VArr _ | VObj _ | VRef _ =>
      Ok (try_catch
            (json <- SerializeJSONProperty h d [] "" value ;;
             JSON_parse json)
            value)
  | VBool _ | VBigInt _ => Ok value
  end.
Proof. reflexivity. Qed.

Lemma redactScalar_unfold key v :
  redactScalar key v =
  let k := toLowerCase key in
  match v with
  | VStr s =>
      if includes sensitive_names k then VStr "***"
      else if includes code_names k then VStr "******"
      else if includes identifier_names k then VStr (maskEmail s)
      else VStr (redactString s)
  | VNum _ | VNonJson _ => if includes numeric_code_names k then VNum 0 else v
  | v => v
  end.
Proof.
  unfold redactScalar. rewrite redactValueByKey_S'. cbv zeta.
  destruct v; split_ifs; reflexivity.
Qed.

Lemma redactValueByKey_S d key value :
  redactValueByKey heap (S d) key value =
  let k := toLowerCase key in
  match value with
  | VUndefined | VNull => Ok value
  | VStr s =>
      if includes sensitive_names k then Ok (VStr "***")
      else if includes code_names k then Ok (VStr "******")
      else if includes identifier_names k then Ok (VStr (maskEmail s))
      else Ok (VStr (redactString s))
  | VNum _ | VNonJson _ =>
      if includes numeric_code_names k then Ok (VNum 0) else Ok value
  | VArr _ | VObj _ | VRef _ =>
      Ok (try_catch
            (json <- SerializeJSONProperty heap d [] "" value ;;
             JSON_parse json)
            value)
  | VBool _ | VBigInt _ => Ok value
  end.
Proof. reflexivity. Qed.

Lemma SerializeJSONProperty_S d stack key value :
  SerializeJSONProperty heap (S d) stack key value =
  (value <- redactValueByKey heap d key value ;;
   match value with
   | VUndefined => Ok None
   | VNull => Ok (Some JNull)
   | VBool b => Ok (Some (JBool b))
   | VNum n => Ok (Some (JNum n))
   | VNonJson x => Ok (Some (json_of_number x))
   | VStr s => Ok (Some (JStr s))
   | VBigInt _ => Throw TypeError
   | VArr items =>
       js <- serialize_elements (SerializeJSONProperty heap d stack) 0 items ;;
       Ok (Some (JArr js))
   | VObj props =>
       js <- serialize_members (SerializeJSONProperty heap d stack) props ;;
       Ok (Some (JObj js))
   | VRef l =>
       if existsb (Nat.eqb l) stack then Throw TypeError
       else
         match heap l with
         | NArr items =>
             js <- serialize_elements
                     (SerializeJSONProperty heap d (l :: stack)) 0 items ;;
             Ok (Some (JArr js))
         | NObj props =>
             js <- serialize_members
                     (SerializeJSONProperty heap d (l :: stack)) props ;;
             Ok (Some (JObj js))
         end
   end).
Proof. reflexivity. Qed.

(** With a frame to run in, [redactValueByKey] never throws: whatever goes
    wrong below is caught. *)
Lemma redactValueByKey_returns d key value :
  exists y, redactValueByKey heap (S d) key value = Ok y.
Proof.
  rewrite redactValueByKey_S. cbv zeta.
  destruct value; split_ifs; eexists; reflexivity.
Qed.

Lemma redactValueByKey_container d key value :
  container value = true ->
  redactValueByKey heap (S d) key value =
  Ok (try_catch (json <- SerializeJSONProperty heap d [] "" value ;;
                 JSON_parse json) value).
Proof. destruct value; intros H; try discriminate H; reflexivity. Qed.

Lemma redactValueByKey_scalar d key v :
  scalar v = true ->
  redactValueByKey heap (S d) key v = Ok (redactScalar key v).
Proof.
  intros H. rewrite redactScalar_unfold, redactValueByKey_S. cbv zeta.
  destruct v; try discriminate H; split_ifs; reflexivity.
Qed.

Lemma redactScalar_scalar key v :
  scalar v = true -> scalar (redactScalar key v) = true.
Proof.
  intros H. rewrite redactScalar_unfold. cbv zeta.
  destruct v; try discriminate H; split_ifs; reflexivity.
Qed.

Lemma serialize_scalar d stack key v :
  scalar v = true ->
  exists j, SerializeJSONProperty heap (S (S d)) stack key v = Ok (Some j)
            /\ value_of_json j = redactScalar key v.
Proof.
  intros H. rewrite SerializeJSONProperty_S, (redactValueByKey_scalar d key v H).
  pose proof (redactScalar_scalar key v H) as Hs.
  destruct (redactScalar key v); try discriminate Hs; cbn;
    eexists; split; reflexivity.
Qed.
End SanitizerFacts.

(** ** [clean] on settled data *)

Lemma clean_scalar key v : scalar v = true -> clean key v = redactScalar key v.
Proof. destruct v; intros H; try discriminate H; reflexivity. Qed.

Lemma settled_scalar key v :
  scalar v = true ->
  (settled key v <-> redactScalar key (redactScalar key v) = redactScalar key v).
Proof. destruct v; intros H; try discriminate H; reflexivity. Qed.

Lemma height_scalar v : scalar v = true -> height v = 0.
Proof. destruct v; intros H; try discriminate H; reflexivity. Qed.

Lemma settled_cases key v :
  settled key v ->
  scalar v = true \/ (exists items, v = VArr items) \/
  (exists props, v = VObj props) \/ (exists x, v = VNonJson x).
Proof.
  destruct v; simpl; intros H; try contradiction; eauto.
Qed.

(** A number that JSON text cannot hold: the replacer gives 0 under a key
    of the numeric codes and the number itself otherwise, the serializer
    writes what it gets ([null] or [0] for the number itself), and what is
    read back is a scalar on which replacer and serializer agree. *)
Lemma clean_nonjson key x :
  clean key (VNonJson x)
  = if includes numeric_code_names (toLowerCase key) then VNum 0
    else value_of_json (json_of_number x).
Proof.
  simpl. rewrite redactScalar_unfold. cbv zeta.
  destruct (includes numeric_code_names (toLowerCase key)); reflexivity.
Qed.

Lemma clean_nonjson_scalar key x :
  scalar (clean key (VNonJson x)) = true /\
  redactScalar key (clean key (VNonJson x)) = clean key (VNonJson x).
Proof.
  rewrite clean_nonjson.
  destruct (includes numeric_code_names (toLowerCase key)) eqn:E.
  - split; [reflexivity|]. rewrite redactScalar_unfold. cbv zeta.
    rewrite E. reflexivity.
  - destruct x; (split; [reflexivity|]); rewrite redactScalar_unfold; cbv zeta;
      try rewrite E; reflexivity.
Qed.

Lemma clean_settled_nonjson key x :
  settled key (clean key (VNonJson x)) /\
  clean key (clean key (VNonJson x)) = clean key (VNonJson x) /\
  height (clean key (VNonJson x)) = height (VNonJson x).
Proof.
  destruct (clean_nonjson_scalar key x) as [Hs E].
  repeat split.
  - apply (settled_scalar key _ Hs). rewrite E. exact E.
  - rewrite (clean_scalar key _ Hs). exact E.
  - rewrite (height_scalar _ Hs). reflexivity.
Qed.

Lemma clean_settled_scalar key v :
  scalar v = true -> settled key v ->
  settled key (clean key v) /\ clean key (clean key v) = clean key v /\
  height (clean key v) = height v.
Proof.
  intros Hs H. apply (settled_scalar key v Hs) in H.
  rewrite (clean_scalar key v Hs).
  pose proof (redactScalar_scalar key v Hs) as Hw.
  repeat split.
  - apply (settled_scalar key _ Hw). rewrite H. exact H.
  - rewrite (clean_scalar key _ Hw). exact H.
  - rewrite (height_scalar _ Hw), (height_scalar _ Hs). reflexivity.
Qed.

Definition clean_ok (v : Value) : Prop :=
  forall key, settled key v ->
    settled key (clean key v) /\ clean key (clean key v) = clean key v /\
    height (clean key v) = height v.

Lemma clean_items_ok items :
  Forall clean_ok items ->
  forall i, Forall_indexed settled i items ->
    Forall_indexed settled i (map_indexed clean i items) /\
    map_indexed clean i (map_indexed clean i items) = map_indexed clean i items /\
    map height (map_indexed clean i items) = map height items.
Proof.
  induction 1 as [|x l Hx Hl IH]; intros i; simpl.
  - auto.
  - intros [H1 H2]. destruct (Hx _ H1) as (A & B & C).
    destruct (IH _ H2) as (A' & B' & C').
    repeat split; try assumption; congruence.
Qed.

Lemma clean_props_ok props :
  Forall (fun kv => clean_ok (snd kv)) props ->
  Forall_keyed settled props ->
    Forall_keyed settled (map_keyed clean props) /\
    map_keyed clean (map_keyed clean props) = map_keyed clean props /\
    map (fun kv => height (snd kv)) (map_keyed clean props)
    = map (fun kv => height (snd kv)) props.
Proof.
  induction 1 as [|[k x] l Hx Hl IH]; simpl.
  - auto.
  - intros [H1 H2]. simpl in Hx. destruct (Hx _ H1) as (A & B & C).
    destruct (IH H2) as (A' & B' & C').
    unfold map_keyed in *. simpl.
    repeat split; try assumption; congruence.
Qed.

Lemma clean_facts v : clean_ok v.
Proof.
  induction v as [v Hv | l | items IH | props IH] using Value_induction;
    intros key H.
  - destruct (settled_cases key v H)
      as [Hs | [(items & ->) | [(props & ->) | (x & ->)]]];
      try discriminate Hv.
    + apply clean_settled_scalar; assumption.
    + apply clean_settled_nonjson.
  - contradiction.
  - simpl in H. destruct (clean_items_ok items IH 0 H) as (A & B & C).
    simpl. repeat split; [assumption | congruence | congruence].
  - simpl in H. destruct (clean_props_ok props IH H) as (A & B & C).
    simpl. repeat split; [assumption | congruence | congruence].
Qed.

(** A value the descent can meet in place of [c]: [c] itself or its cleaned
    form. *)
Definition known (key : string) (c x : Value) : Prop :=
  x = c \/ x = clean key c.

Lemma known_settled key c x :
  settled key c -> known key c x -> settled key x /\ clean key x = clean key c.
Proof.
  intros H [->| ->]; [auto|].
  destruct (clean_facts c key H) as (A & B & _). auto.
Qed.

Lemma height_member (x : Value) l : In x l -> height x <= list_max (map height l).
Proof.
  induction l as [|y l IH]; simpl; [contradiction|].
  intros [->|H]; [lia | specialize (IH H); lia].
Qed.

Lemma known_scalar key c x :
  scalar c = true -> settled key c -> known key c x ->
  scalar x = true /\ redactScalar key x = clean key c.
Proof.
  intros Hs Hc Hx.
  destruct (known_settled key c x Hc Hx) as [_ E].
  assert (scalar x = true) as Hsx.
  { destruct Hx as [->| ->]; [assumption|].
    rewrite (clean_scalar key c Hs). apply redactScalar_scalar; assumption. }
  split; [assumption|]. rewrite <- (clean_scalar key x Hsx). exact E.
Qed.

Lemma known_arr key items x :
  known key (VArr items) x ->
  exists xs, x = VArr xs /\ (xs = items \/ xs = map_indexed clean 0 items).
Proof.
  intros [->| ->]; simpl; eexists; (split; [reflexivity|]);
    [left | right]; reflexivity.
Qed.

Lemma known_obj key props x :
  known key (VObj props) x ->
  exists xs, x = VObj xs /\ (xs = props \/ xs = map_keyed clean props).
Proof.
  intros [->| ->]; simpl; eexists; (split; [reflexivity|]);
    [left | right]; reflexivity.
Qed.

Lemma known_items_cons i (a : Value) items ys :
  ys = a :: items \/ ys = map_indexed clean i (a :: items) ->
  exists x ys', ys = x :: ys' /\ known (index_key i) a x /\
                (ys' = items \/ ys' = map_indexed clean (S i) items).
Proof.
  intros [->| ->]; simpl; do 2 eexists; split; try reflexivity;
    split; (left; reflexivity) || (right; reflexivity).
Qed.

Lemma known_props_cons k (a : Value) props ys :
  ys = (k, a) :: props \/ ys = map_keyed clean ((k, a) :: props) ->
  exists x ys', ys = (k, x) :: ys' /\ known k a x /\
                (ys' = props \/ ys' = map_keyed clean props).
Proof.
  intros [->| ->]; simpl; do 2 eexists; split; try reflexivity;
    split; (left; reflexivity) || (right; reflexivity).
Qed.

Section Descent.
Variable heap : Heap.

Definition ser_inv (d : nat) : Prop :=
  forall stack key c x oj,
    settled key c -> known key c x ->
    SerializeJSONProperty heap d stack key x = Ok oj ->
    exists j, oj = Some j /\ value_of_json j = clean key c.

Definition rv_inv (d : nat) : Prop :=
  forall key c x y,
    settled key c -> known key c x ->
    redactValueByKey heap d key x = Ok y -> known key c y.

Lemma elements_inv d stack :
  ser_inv d ->
  forall items i ys js,
    Forall_indexed settled i items ->
    (ys = items \/ ys = map_indexed clean i items) ->
    serialize_elements (SerializeJSONProperty heap d stack) i ys = Ok js ->
    map value_of_json js = map_indexed clean i items.
Proof.
  intros IH. induction items as [|a items IHl]; intros i ys js Hs Hy E.
  - assert (ys = []) as -> by (destruct Hy; assumption).
    simpl in E. inversion E. reflexivity.
  - destruct (known_items_cons i a items ys Hy) as (x & ys' & -> & Hx & Hy').
    destruct Hs as [Ha Hs]. simpl in E.
    destruct (SerializeJSONProperty heap d stack (index_key i) x) as [oj|] eqn:E1;
      simpl in E; [|discriminate E].
    destruct (serialize_elements _ (S i) ys') as [js'|] eqn:E2;
      simpl in E; [|discriminate E].
    destruct (IH _ _ _ _ _ Ha Hx E1) as (j & -> & Hj).
    inversion E; subst js. simpl.
    rewrite Hj, (IHl _ _ _ Hs Hy' E2). reflexivity.
Qed.

Lemma members_inv d stack :
  ser_inv d ->
  forall props ys js,
    Forall_keyed settled props ->
    (ys = props \/ ys = map_keyed clean props) ->
    serialize_members (SerializeJSONProperty heap d stack) ys = Ok js ->
    map (fun kv => (fst kv, value_of_json (snd kv))) js = map_keyed clean props.
Proof.
  intros IH. induction props as [|[k a] props IHl]; intros ys js Hs Hy E.
  - assert (ys = []) as -> by (destruct Hy; assumption).
    simpl in E. inversion E. reflexivity.
  - destruct (known_props_cons k a props ys Hy) as (x & ys' & -> & Hx & Hy').
    destruct Hs as [Ha Hs]. simpl in Ha. simpl in E.
    destruct (SerializeJSONProperty heap d stack k x) as [oj|] eqn:E1;
      simpl in E; [|discriminate E].
    destruct (serialize_members _ ys') as [js'|] eqn:E2;
      simpl in E; [|discriminate E].
    destruct (IH _ _ _ _ _ Ha Hx E1) as (j & -> & Hj).
    inversion E; subst js. unfold map_keyed. simpl.
    rewrite Hj. f_equal. exact (IHl _ _ Hs Hy' E2).
Qed.

Lemma nonjson_replaced d key x y :
  known key (VNonJson x) y ->
  forall z, redactValueByKey heap d key y = Ok z -> known key (VNonJson x) z.
Proof.
  intros Hy z E. destruct d as [|d]; [discriminate E|].
  destruct Hy as [->| ->].
  - rewrite redactValueByKey_S in E. cbv zeta in E.
    unfold known. rewrite clean_nonjson.
    destruct (includes numeric_code_names (toLowerCase key));
      inversion E; auto.
  - destruct (clean_nonjson_scalar key x) as [Hs Ef].
    rewrite (redactValueByKey_scalar heap d key _ Hs), Ef in E.
    inversion E. right. reflexivity.
Qed.

Lemma nonjson_written d stack key x y :
  known key (VNonJson x) y ->
  SerializeJSONProperty heap (S (S d)) stack key y
  = Ok (Some (match clean key (VNonJson x) with
              | VNum n => JNum n
              | _ => JNull
              end)) /\
  value_of_json (match clean key (VNonJson x) with
                 | VNum n => JNum n
                 | _ => JNull
                 end) = clean key (VNonJson x).
Proof.
  intros Hy. split.
  - destruct (clean_nonjson_scalar key x) as [Hs Ef].
    rewrite SerializeJSONProperty_S.
    destruct Hy as [->| ->].
    + rewrite redactValueByKey_S. cbv zeta. rewrite clean_nonjson.
      destruct (includes numeric_code_names (toLowerCase key));
        [reflexivity | destruct x; reflexivity].
    + rewrite (redactValueByKey_scalar heap d key _ Hs), Ef.
      rewrite clean_nonjson.
      destruct (includes numeric_code_names (toLowerCase key));
        [reflexivity | destruct x; reflexivity].
  - rewrite clean_nonjson.
    destruct (includes numeric_code_names (toLowerCase key));
      [reflexivity | destruct x; reflexivity].
Qed.

(** Whatever the stack bound: the replacer returns a value either as it
    got it or cleaned, and the serializer, when it gets through, writes
    the cleaned value. *)
Lemma descent_inv d : ser_inv d /\ rv_inv d.
Proof.
  induction d as [|d [IHs IHr]].
  - split; intros until 2; intros E; discriminate E.
  - split.
    + intros stack key c x oj Hc Hx E. pose proof E as E0.
      rewrite SerializeJSONProperty_S in E.
      destruct (redactValueByKey heap d key x) as [y|] eqn:Er;
        simpl in E; [|discriminate E].
      pose proof (IHr _ _ _ _ Hc Hx Er) as Hy.
      destruct (settled_cases key c Hc)
        as [Hsc | [(items & ->) | [(props & ->) | (n & ->)]]].
      * destruct (known_scalar key c x Hsc Hc Hx) as [Hsx Ex].
        destruct d as [|d]; [discriminate Er|].
        rewrite (redactValueByKey_scalar heap d key x Hsx) in Er.
        inversion Er; subst y; clear Er.
        pose proof (redactScalar_scalar key x Hsx) as Hsy.
        rewrite <- Ex.
        destruct (redactScalar key x); try discriminate Hsy;
          inversion E; eexists; split; reflexivity.
      * destruct (known_arr key items y Hy) as (ys & -> & Hys).
        destruct (serialize_elements _ 0 ys) as [js|] eqn:E1;
          simpl in E; [|discriminate E].
        inversion E. eexists; split; [reflexivity|]. simpl.
        rewrite (elements_inv d stack IHs items 0 ys js Hc Hys E1). reflexivity.
      * destruct (known_obj key props y Hy) as (ys & -> & Hys).
        destruct (serialize_members _ ys) as [js|] eqn:E1;
          simpl in E; [|discriminate E].
        inversion E. eexists; split; [reflexivity|]. simpl.
        rewrite (members_inv d stack IHs props ys js Hc Hys E1). reflexivity.
      * destruct d as [|d]; [discriminate Er|].
        destruct (nonjson_written d stack key n x Hx) as [Ew Hw].
        rewrite Ew in E0. inversion E0.
        eexists; split; [reflexivity | exact Hw].
    + intros key c x y Hc Hx E.
      destruct (settled_cases key c Hc)
        as [Hsc | [(items & ->) | [(props & ->) | (n & ->)]]].
      * destruct (known_scalar key c x Hsc Hc Hx) as [Hsx Ex].
        rewrite (redactValueByKey_scalar heap d key x Hsx) in E.
        inversion E. right. congruence.
      * destruct (known_arr key items x Hx) as (xs & -> & Hxs).
        rewrite redactValueByKey_S in E. cbv zeta in E. inversion E; clear E.
        destruct (SerializeJSONProperty heap d [] "" (VArr xs)) as [oj|] eqn:E1;
          simpl; [|exact Hx].
        destruct (IHs [] ""%string (VArr items) (VArr xs) oj Hc Hx E1) as (j & -> & Hj).
        simpl. right. exact Hj.
      * destruct (known_obj key props x Hx) as (xs & -> & Hxs).
        rewrite redactValueByKey_S in E. cbv zeta in E. inversion E; clear E.
        destruct (SerializeJSONProperty heap d [] "" (VObj xs)) as [oj|] eqn:E1;
          simpl; [|exact Hx].
        destruct (IHs [] ""%string (VObj props) (VObj xs) oj Hc Hx E1) as (j & -> & Hj).
        simpl. right. exact Hj.
      * exact (nonjson_replaced (S d) key n x Hx y E).
Qed.
End Descent.

Section Success.
Variable heap : Heap.

Definition gets_through (d h : nat) : Prop :=
  forall stack key c x,
    settled key c -> known key c x -> height c <= h ->
    exists j, SerializeJSONProperty heap d stack key x = Ok (Some j).

Lemma elements_succeed d stack h :
  gets_through d h ->
  forall items i ys,
    Forall_indexed settled i items ->
    (ys = items \/ ys = map_indexed clean i items) ->
    (forall a, In a items -> height a <= h) ->
    exists js, serialize_elements (SerializeJSONProperty heap d stack) i ys = Ok js.
Proof.
  intros IH. induction items as [|a items IHl]; intros i ys Hs Hy Hh.
  - assert (ys = []) as -> by (destruct Hy; assumption).
    eexists; reflexivity.
  - destruct (known_items_cons i a items ys Hy) as (x & ys' & -> & Hx & Hy').
    destruct Hs as [Ha Hs].
    destruct (IH stack _ _ _ Ha Hx (Hh a (or_introl eq_refl))) as (j & E1).
    destruct (IHl (S i) ys' Hs Hy' (fun b Hb => Hh b (or_intror Hb))) as (js & E2).
    simpl. rewrite E1. simpl. rewrite E2. simpl. eexists; reflexivity.
Qed.

Lemma members_succeed d stack h :
  gets_through d h ->
  forall props ys,
    Forall_keyed settled props ->
    (ys = props \/ ys = map_keyed clean props) ->
    (forall a, In a (map snd props) -> height a <= h) ->
    exists js, serialize_members (SerializeJSONProperty heap d stack) ys = Ok js.
Proof.
  intros IH. induction props as [|[k a] props IHl]; intros ys Hs Hy Hh.
  - assert (ys = []) as -> by (destruct Hy; assumption).
    eexists; reflexivity.
  - destruct (known_props_cons k a props ys Hy) as (x & ys' & -> & Hx & Hy').
    destruct Hs as [Ha Hs]. simpl in Ha.
    destruct (IH stack _ _ _ Ha Hx (Hh a (or_introl eq_refl))) as (j & E1).
    destruct (IHl ys' Hs Hy' (fun b Hb => Hh b (or_intror Hb))) as (js & E2).
    simpl. rewrite E1. simpl. rewrite E2. simpl. eexists; reflexivity.
Qed.

(** With two frames more than the value is high the serializer gets
    through. *)
Lemma serialize_succeeds h : forall d, h + 2 <= d -> gets_through d h.
Proof.
  induction h as [|h IH]; intros d Hd stack key c x Hc Hx Hh;
    destruct (settled_cases key c Hc)
      as [Hsc | [(items & ->) | [(props & ->) | (n & ->)]]];
    try (simpl in Hh; lia);
    try (destruct d as [|[|d]]; [lia | lia |];
         destruct (nonjson_written heap d stack key n x Hx) as [E _];
         eexists; exact E).
  - destruct (known_scalar key c x Hsc Hc Hx) as [Hsx Ex].
    destruct d as [|[|d]]; try lia.
    destruct (serialize_scalar heap d stack key x Hsx) as (j & E & _). eauto.
  - destruct (known_scalar key c x Hsc Hc Hx) as [Hsx Ex].
    destruct d as [|[|d]]; try lia.
    destruct (serialize_scalar heap d stack key x Hsx) as (j & E & _). eauto.
  - destruct d as [|[|d]]; try lia.
    rewrite SerializeJSONProperty_S.
    destruct (redactValueByKey_returns heap d key x) as (y & Er).
    rewrite Er. simpl bind.
    pose proof (proj2 (descent_inv heap (S d)) _ _ _ _ Hc Hx Er) as Hy.
    destruct (known_arr key items y Hy) as (ys & -> & Hys).
    simpl in Hh.
    destruct (elements_succeed (S d) stack h (IH (S d) ltac:(lia)) items 0 ys Hc Hys)
      as (js & E).
    { intros a Ha. pose proof (height_member a items Ha). lia. }
    rewrite E. simpl. eauto.
  - destruct d as [|[|d]]; try lia.
    rewrite SerializeJSONProperty_S.
    destruct (redactValueByKey_returns heap d key x) as (y & Er).
    rewrite Er. simpl bind.
    pose proof (proj2 (descent_inv heap (S d)) _ _ _ _ Hc Hx Er) as Hy.
    destruct (known_obj key props y Hy) as (ys & -> & Hys).
    simpl in Hh.
    destruct (members_succeed (S d) stack h (IH (S d) ltac:(lia)) props ys Hc Hys)
      as (js & E).
    { intros a Ha. apply in_map_iff in Ha. destruct Ha as (kv & <- & Hkv).
      assert (height (snd kv) <= list_max (map (fun kv => height (snd kv)) props)).
      { clear -Hkv. induction props as [|p l IHp]; simpl; [contradiction|].
        destruct Hkv as [->|Hkv]; [lia | specialize (IHp Hkv); lia]. }
      lia. }
    rewrite E. simpl. eauto.
Qed.

(** On settled plain data and with a stack bound of two frames more than
    the value is high, [sanitizeArgs] returns the cleaned value. *)
Lemma sanitizeArg_clean d v :
  settled "" v -> container v = true -> height v + 2 <= d ->
  sanitizeArg heap d v = clean "" v.
Proof.
  intros Hs Hc Hd.
  destruct (serialize_succeeds (height v) d Hd [] ""%string v v Hs
              (or_introl eq_refl) (le_n _)) as (j & E).
  destruct (proj1 (descent_inv heap d) _ _ _ _ _ Hs (or_introl eq_refl) E)
    as (j' & Ej & Hj).
  inversion Ej; subst j'.
  destruct v; try discriminate Hc; try contradiction;
    unfold sanitizeArg, JSON_stringify; rewrite E; simpl; exact Hj.
Qed.

(** Whatever the stack bound, the result is the argument as it was or
    cleaned. *)
Lemma sanitizeArg_raw_or_clean d v :
  settled "" v -> container v = true ->
  sanitizeArg heap d v = v \/ sanitizeArg heap d v = clean "" v.
Proof.
  intros Hs Hc.
  destruct v; try discriminate Hc; try contradiction;
    unfold sanitizeArg, JSON_stringify;
    match goal with
    | |- context [SerializeJSONProperty heap d [] ?k ?v] =>
        destruct (SerializeJSONProperty heap d [] k v) as [oj|] eqn:E
    end; simpl; auto;
    destruct (proj1 (descent_inv heap d) _ _ _ _ _ Hs (or_introl eq_refl) E)
      as (j & -> & Hj); simpl; auto.
Qed.
End Success.

Lemma includes_In names k : includes names k = true <-> In k names.
Proof.
  unfold includes. rewrite existsb_exists. split.
  - intros (x & Hx & E). apply String.eqb_eq in E. subst. assumption.
  - intros H. exists k. split; [assumption | apply String.eqb_refl].
Qed.

Lemma includes_false names k : includes names k = false <-> ~ In k names.
Proof.
  rewrite <- includes_In. destruct (includes names k); split; congruence.
Qed.

Lemma redactScalar_sensitive K S :
  includes sensitive_names (toLowerCase K) = true ->
  redactScalar K (VStr S) = VStr "***".
Proof. intros H. rewrite redactScalar_unfold. cbv zeta. rewrite H. reflexivity. Qed.

(** C3.  For every key that is, up to case, one of password, pass, pwd,
    secret, token, auth, authorization and every string, the one-entry
    mapping under that key is sanitized to the same mapping with the fixed
    mask as value; the string itself plays no part.  (Any stack bound of at
    least three frames.) *)
Theorem sanitize_sensitive_key (heap : Heap) (d : nat) (K S : string) :
  3 <= d ->
  In (toLowerCase K)
     ["password"; "pass"; "pwd"; "secret"; "token"; "auth"; "authorization"]%string ->
  sanitizeArgs heap d [VObj [(K, VStr S)]] = [VObj [(K, VStr "***")]].
Proof.
  intros Hd HK.
  assert (includes sensitive_names (toLowerCase K) = true) as Hs.
  { apply includes_In. unfold sensitive_names. simpl in *. tauto. }
  unfold sanitizeArgs. cbn [map]. f_equal.
  rewrite sanitizeArg_clean; try assumption; try reflexivity.
  - simpl. unfold map_keyed. simpl. rewrite (redactScalar_sensitive K S Hs). reflexivity.
  - simpl. split; [|exact I].
    rewrite (redactScalar_sensitive K S Hs). apply redactScalar_sensitive. exact Hs.
Qed.

Lemma sanitize_sensitive_key_witness :
  sanitizeArgs empty_heap 3 [VObj [("PassWord"%string, VStr "hunter2")]]
  = [VObj [("PassWord"%string, VStr "***")]].
Proof.
  apply sanitize_sensitive_key; [lia | vm_compute; tauto].
Defined.

(** C4, as the code has it.  A number under [code] becomes 0; a string
    under [code] gets the six-character mask of the 2FA codes. *)
Theorem sanitize_code (heap : Heap) (d : nat) (n : Z) (s : string) :
  3 <= d ->
  sanitizeArgs heap d [VObj [("code"%string, VNum n)]]
    = [VObj [("code"%string, VNum 0)]] /\
  sanitizeArgs heap d [VObj [("code"%string, VStr s)]]
    = [VObj [("code"%string, VStr "******")]].
Proof.
  intros Hd. unfold sanitizeArgs. cbn [map].
  split; f_equal; rewrite sanitizeArg_clean; try assumption; try reflexivity;
    simpl; split; reflexivity || exact I.
Qed.

Lemma sanitize_code_witness :
  sanitizeArgs empty_heap 3 [VObj [("code"%string, VNum 123456)]]
    = [VObj [("code"%string, VNum 0)]] /\
  sanitizeArgs empty_heap 3 [VObj [("code"%string, VStr "123456")]]
    = [VObj [("code"%string, VStr "******")]].
Proof.
  apply sanitize_code; lia.
Defined.

(** C4 as stated fails: whatever the stack bound, the mapping with the
    string 123456 under [code] is never sanitized to the three-star mask. *)
Lemma sanitize_code_string_not_three_stars :
  ~ exists d,
      sanitizeArgs empty_heap d [VObj [("code"%string, VStr "123456")]]
      = [VObj [("code"%string, VStr "***")]].
Proof.
  intros (d & E). unfold sanitizeArgs in E. cbn [map] in E.
  destruct (sanitizeArg_raw_or_clean empty_heap d
              (VObj [("code"%string, VStr "123456")])) as [Ex|Ex];
    try reflexivity.
  - simpl. split; reflexivity || exact I.
  - rewrite Ex in E. discriminate E.
  - rewrite Ex in E. discriminate E.
Qed.

(** C10.  A key that is not, up to case, one of the listed names gets no
    key-based mask: a string under it is scrubbed by [redactString] and
    nothing else, a number is returned as it is.  Containing a listed name
    is not enough: apiKey, userPassword and passwords are such keys. *)
Theorem redact_unlisted_key (heap : Heap) (d : nat) (key s : string) (n : Z) :
  1 <= d ->
  ~ In (toLowerCase key)
       (sensitive_names ++ code_names ++ identifier_names ++ numeric_code_names) ->
  redactValueByKey heap d key (VStr s) = Ok (VStr (redactString s)) /\
  redactValueByKey heap d key (VNum n) = Ok (VNum n).
Proof.
  intros Hd HK. destruct d as [|d]; [lia|].
  rewrite !redactValueByKey_S. cbv zeta.
  rewrite !in_app_iff in HK.
  assert (includes sensitive_names (toLowerCase key) = false) as ->
      by (apply includes_false; tauto).
  assert (includes code_names (toLowerCase key) = false) as ->
      by (apply includes_false; tauto).
  assert (includes identifier_names (toLowerCase key) = false) as ->
      by (apply includes_false; tauto).
  assert (includes numeric_code_names (toLowerCase key) = false) as ->
      by (apply includes_false; tauto).
  split; reflexivity.
Qed.

Lemma redact_unlisted_key_witness :
  (redactValueByKey empty_heap 1 "apiKey" (VStr "sk_live_123456")
     = Ok (VStr (redactString "sk_live_123456")) /\
   redactValueByKey empty_heap 1 "apiKey" (VNum 7) = Ok (VNum 7)) /\
  (redactValueByKey empty_heap 1 "userPassword" (VStr "hunter2")
     = Ok (VStr (redactString "hunter2")) /\
   redactValueByKey empty_heap 1 "userPassword" (VNum 7) = Ok (VNum 7)) /\
  (redactValueByKey empty_heap 1 "passwords" (VStr "hunter2")
     = Ok (VStr (redactString "hunter2")) /\
   redactValueByKey empty_heap 1 "passwords" (VNum 7) = Ok (VNum 7)).
Proof.
  split; [|split].
  - apply (redact_unlisted_key empty_heap 1 "apiKey" "sk_live_123456" 7);
      [lia | vm_compute; intuition discriminate].
  - apply (redact_unlisted_key empty_heap 1 "userPassword" "hunter2" 7);
      [lia | vm_compute; intuition discriminate].
  - apply (redact_unlisted_key empty_heap 1 "passwords" "hunter2" 7);
      [lia | vm_compute; intuition discriminate].
Defined.

(* ------------------------------------------------------------------ *)
(** ** Values the serializer cannot get through *)

Lemma elements_throw (ser : string -> Value -> result (option Json)) w :
  (forall k, exists e, ser k w = Throw e) ->
  forall items i, In w items -> exists e, serialize_elements ser i items = Throw e.
Proof.
  intros Hw. induction items as [|x items IH]; intros i Hin; [contradiction|].
  simpl. destruct Hin as [->|Hin].
  - destruct (Hw (index_key i)) as (e & ->). simpl. eauto.
  - destruct (ser (index_key i) x); simpl; [|eauto].
    destruct (IH (S i) Hin) as (e & ->). simpl. eauto.
Qed.

Lemma members_throw (ser : string -> Value -> result (option Json)) w :
  (forall k, exists e, ser k w = Throw e) ->
  forall props, In w (map snd props) -> exists e, serialize_members ser props = Throw e.
Proof.
  intros Hw. induction props as [|[k x] props IH]; intros Hin; [contradiction|].
  simpl in *. destruct Hin as [->|Hin].
  - destruct (Hw k) as (e & ->). simpl. eauto.
  - destruct (ser k x); simpl; [|eauto].
    destruct (IH Hin) as (e & ->). simpl. eauto.
Qed.

Lemma refers_container heap v w : refers heap v w -> container v = true.
Proof. unfold refers. destruct v; simpl; intros H; try contradiction; reflexivity. Qed.

Section NoWayThrough.
Variable heap : Heap.

(** A set of values each of which is a BigInt or has a member in the set:
    serializing any of them throws, at the BigInt, at the repeated
    container or when the stack is used up. *)
Variable doomed : Value -> Prop.
Hypothesis doomed_step :
  forall v, doomed v ->
    (exists n, v = VBigInt n) \/ (exists w, refers heap v w /\ doomed w).

Lemma doomed_descent d :
  (forall stack key v, doomed v ->
     exists e, SerializeJSONProperty heap d stack key v = Throw e) /\
  (forall key v y, doomed v -> redactValueByKey heap d key v = Ok y -> y = v).
Proof.
  induction d as [|d [IHs IHr]].
  - split.
    + intros; eexists; reflexivity.
    + intros key v y _ E. discriminate E.
  - split.
    + intros stack key v Hv. rewrite SerializeJSONProperty_S.
      destruct (redactValueByKey heap d key v) as [y|e] eqn:Er; simpl; [|eauto].
      rewrite (IHr key v y Hv Er).
      destruct (doomed_step v Hv) as [(n & ->) | (w & Hw & Hdw)]; [eauto|].
      unfold refers in Hw.
      destruct v; simpl in Hw; try contradiction.
      * destruct (elements_throw (SerializeJSONProperty heap d stack) w
                    (fun k => IHs stack k w Hdw) items 0 Hw) as (e & ->).
        simpl. eauto.
      * destruct (members_throw (SerializeJSONProperty heap d stack) w
                    (fun k => IHs stack k w Hdw) props Hw) as (e & ->).
        simpl. eauto.
      * destruct (existsb (Nat.eqb l) stack); [eauto|].
        destruct (heap l) as [items|props].
        -- destruct (elements_throw (SerializeJSONProperty heap d (l :: stack)) w
                       (fun k => IHs (l :: stack) k w Hdw) items 0 Hw) as (e & ->).
           simpl. eauto.
        -- destruct (members_throw (SerializeJSONProperty heap d (l :: stack)) w
                       (fun k => IHs (l :: stack) k w Hdw) props Hw) as (e & ->).
           simpl. eauto.
    + intros key v y Hv E.
      destruct (doomed_step v Hv) as [(n & ->) | (w & Hw & Hdw)].
      * rewrite redactValueByKey_S in E. inversion E. reflexivity.
      * rewrite (redactValueByKey_container heap d key v
                   (refers_container heap v w Hw)) in E.
        destruct (IHs [] ""%string v Hv) as (e & Es). rewrite Es in E.
        inversion E. reflexivity.
Qed.

Lemma doomed_stringify d v :
  doomed v -> exists e, (json <- JSON_stringify heap d v ;; JSON_parse json) = Throw e.
Proof.
  intros Hv. unfold JSON_stringify.
  destruct (proj1 (doomed_descent d) [] ""%string v Hv) as (e & ->).
  simpl. eauto.
Qed.

Lemma doomed_sanitizeArg d v :
  doomed v -> container v = true -> sanitizeArg heap d v = v.
Proof.
  intros Hv Hc. destruct (doomed_stringify d v Hv) as (e & E).
  destruct v; try discriminate Hc; unfold sanitizeArg; rewrite E; reflexivity.
Qed.
End NoWayThrough.

Lemma holds_bigint_step heap v :
  holds_bigint heap v ->
  (exists n, v = VBigInt n) \/ (exists w, refers heap v w /\ holds_bigint heap w).
Proof. intros [n | v' w Hr Hw]; eauto. Qed.

Lemma trans_first_step (R : relation Value) x z :
  clos_trans Value R x z -> exists y, R x y /\ clos_refl_trans Value R y z.
Proof.
  intros H. apply clos_trans_t1n in H. destruct H as [y Hxy | y z Hxy Hyz].
  - exists y. split; [assumption | apply rt_refl].
  - exists y. split; [assumption|].
    apply clos_t_clos_rt. apply clos_t1n_trans. assumption.
Qed.

Lemma contains_cycle_step heap v :
  contains_cycle heap v ->
  (exists n, v = VBigInt n) \/ (exists w, refers heap v w /\ contains_cycle heap w).
Proof.
  intros (x & Hvx & Hxx). right.
  apply clos_rt_rt1n in Hvx. destruct Hvx as [|w x Hvw Hwx].
  - destruct (trans_first_step _ _ _ Hxx) as (y & Hxy & Hyx).
    exists y. split; [assumption|]. exists v. split; assumption.
  - exists w. split; [assumption|]. exists x. split; [|assumption].
    apply clos_rt1n_rt. assumption.
Qed.

Lemma contains_cycle_container heap v : contains_cycle heap v -> container v = true.
Proof.
  intros H. destruct (contains_cycle_step heap v H) as [(n & ->) | (w & Hw & _)].
  - destruct H as (x & Hvx & Hxx).
    apply clos_rt_rt1n in Hvx. destruct Hvx as [|w x Hvw Hwx].
    + destruct (trans_first_step _ _ _ Hxx) as (y & Hxy & _). destruct Hxy.
    + destruct Hvw.
  - exact (refers_container heap v w Hw).
Qed.

Lemma cyclic_returned_unchanged heap d v :
  contains_cycle heap v -> sanitizeArg heap d v = v.
Proof.
  intros H.
  exact (doomed_sanitizeArg heap (contains_cycle heap) (contains_cycle_step heap)
           d v H (contains_cycle_container heap v H)).
Qed.

Lemma looping_heap_cycle : contains_cycle looping_heap (VRef 0).
Proof.
  exists (VRef 0). split; [apply rt_refl|].
  apply t_step. unfold refers. simpl. auto.
Qed.

(** C2, as the code has it.  For a value that contains a self-referential
    value nothing is cut out and nothing is redacted: wherever the descent
    is stopped (by the serializer meeting the node a second time or by the
    stack running out, at whatever depth [d]), what the [catch] block of
    [sanitizeArgs] hands back is the argument as it was given, the very
    same node.  This is a statement about the value only: how much work
    the descent does before it is stopped is not part of it. *)
Theorem sanitize_cyclic (heap : Heap) (d : nat) (v : Value) :
  contains_cycle heap v -> sanitizeArgs heap d [v] = [v].
Proof.
  intros H. unfold sanitizeArgs. cbn [map].
  rewrite (cyclic_returned_unchanged heap d v H). reflexivity.
Qed.

Lemma sanitize_cyclic_witness :
  sanitizeArgs looping_heap 100 [VRef 0] = [VRef 0].
Proof.
  apply sanitize_cyclic. exists (VRef 0). split; [apply rt_refl|].
  apply t_step. unfold refers. simpl. auto.
Defined.

(** C2 as stated fails: the mapping whose property [self] is the mapping
    itself comes back as that same mapping, with [self] (and the password
    next to it) as before, not with an empty container in its place. *)
Lemma sanitize_cycle_not_truncated :
  looping_heap 0
  = NObj [("password"%string, VStr "hunter2"); ("self"%string, VRef 0)] /\
  forall d, sanitizeArgs looping_heap d [VRef 0] = [VRef 0].
Proof.
  split; [reflexivity|]. intros d.
  unfold sanitizeArgs. cbn [map].
  rewrite (cyclic_returned_unchanged looping_heap d (VRef 0) looping_heap_cycle).
  reflexivity.
Qed.

(** A mapping with a password next to a BigInt. *)
Definition account_with_bigint : Value :=
  VObj [("password"%string, VStr "hunter2"); ("serial"%string, VBigInt 1)].

Lemma account_holds_bigint heap : holds_bigint heap account_with_bigint.
Proof.
  apply holds_below with (w := VBigInt 1); [|apply holds_here].
  unfold refers. simpl. auto.
Qed.

(** C1, as the code has it.  When rebuilding a container fails, the failure
    is caught where it happens and the container is returned as it was
    given, both by [sanitizeArgs] and by the key-based recursion; no
    exception reaches the caller. *)
Theorem sanitize_failure_returns_argument
        (heap : Heap) (d : nat) (key : string) (arg : Value) (e : exn) :
  container arg = true ->
  (json <- JSON_stringify heap d arg ;; JSON_parse json) = Throw e ->
  sanitizeArgs heap d [arg] = [arg] /\
  redactValueByKey heap (S d) key arg = Ok arg.
Proof.
  intros Hc E. split.
  - unfold sanitizeArgs. cbn [map].
    destruct arg; try discriminate Hc; unfold sanitizeArg; rewrite E; reflexivity.
  - rewrite (redactValueByKey_container heap d key arg Hc).
    unfold JSON_stringify in E. rewrite E. reflexivity.
Qed.

Lemma sanitize_failure_returns_argument_witness :
  sanitizeArgs empty_heap 5 [account_with_bigint] = [account_with_bigint] /\
  redactValueByKey empty_heap 6 "user" account_with_bigint = Ok account_with_bigint.
Proof.
  apply (sanitize_failure_returns_argument empty_heap 5 "user" account_with_bigint
           TypeError); reflexivity.
Defined.

(** C1 as stated fails: rebuilding the mapping with a BigInt in it fails at
    every stack bound, and what comes back is the mapping itself, password
    included, not a mask. *)
Lemma failure_returns_raw_value :
  (forall d, exists e,
      (json <- JSON_stringify empty_heap d account_with_bigint ;;
       JSON_parse json) = Throw e) /\
  (forall d,
      sanitizeArgs empty_heap d [account_with_bigint]
      = [VObj [("password"%string, VStr "hunter2"); ("serial"%string, VBigInt 1)]]).
Proof.
  split; intros d.
  - exact (doomed_stringify empty_heap (holds_bigint empty_heap)
             (holds_bigint_step empty_heap) d account_with_bigint
             (account_holds_bigint empty_heap)).
  - unfold sanitizeArgs. cbn [map].
    rewrite (doomed_sanitizeArg empty_heap (holds_bigint empty_heap)
               (holds_bigint_step empty_heap) d account_with_bigint
               (account_holds_bigint empty_heap) eq_refl).
    reflexivity.
Qed.

(* ------------------------------------------------------------------ *)
(** ** Shape is kept *)

Lemma value_of_json_defined j : is_undefined (value_of_json j) = false.
Proof. destruct j; reflexivity. Qed.

Section ShapeKept.
Variable heap : Heap.

Definition rv_shape (d : nat) : Prop :=
  forall key v y,
    plain v = true -> redactValueByKey heap d key v = Ok y ->
    shape y = shape v /\ plain y = true /\ is_undefined y = is_undefined v.

Definition ser_shape (d : nat) : Prop :=
  forall stack key v oj,
    plain v = true -> SerializeJSONProperty heap d stack key v = Ok oj ->
    match oj with
    | None => is_undefined v = true
    | Some j =>
        is_undefined v = false /\ shape (value_of_json j) = shape v /\
        plain (value_of_json j) = true
    end.

Lemma elements_shape d stack :
  ser_shape d ->
  forall items i js,
    forallb plain items = true ->
    serialize_elements (SerializeJSONProperty heap d stack) i items = Ok js ->
    map shape (map value_of_json js) = map shape items /\
    forallb plain (map value_of_json js) = true.
Proof.
  intros IH. induction items as [|x items IHl]; intros i js Hp E; simpl in E.
  - inversion E. split; reflexivity.
  - simpl in Hp. apply andb_true_iff in Hp. destruct Hp as [Hx Hp].
    destruct (SerializeJSONProperty heap d stack (index_key i) x) as [oj|] eqn:E1;
      simpl in E; [|discriminate E].
    destruct (serialize_elements _ (S i) items) as [js'|] eqn:E2;
      simpl in E; [|discriminate E].
    destruct (IHl _ _ Hp E2) as [A B].
    pose proof (IH _ _ _ _ Hx E1) as Hj.
    inversion E; subst js; clear E. simpl.
    destruct oj as [j|].
    + destruct Hj as (_ & Hs & Hpj). rewrite Hs, A, Hpj, B. split; reflexivity.
    + destruct x; try discriminate Hj. simpl. rewrite A, B. split; reflexivity.
Qed.

Lemma members_shape d stack :
  ser_shape d ->
  forall props js,
    forallb (fun kv => (negb (is_undefined (snd kv)) && plain (snd kv))%bool) props
    = true ->
    serialize_members (SerializeJSONProperty heap d stack) props = Ok js ->
    map (fun kv => (fst kv, shape (snd kv)))
        (map (fun kv => (fst kv, value_of_json (snd kv))) js)
    = map (fun kv => (fst kv, shape (snd kv))) props /\
    forallb (fun kv => (negb (is_undefined (snd kv)) && plain (snd kv))%bool)
            (map (fun kv => (fst kv, value_of_json (snd kv))) js) = true.
Proof.
  intros IH. induction props as [|[k x] props IHl]; intros js Hp E; simpl in E.
  - inversion E. split; reflexivity.
  - simpl in Hp. apply andb_true_iff in Hp. destruct Hp as [Hx Hp].
    apply andb_true_iff in Hx. destruct Hx as [Hu Hx].
    destruct (SerializeJSONProperty heap d stack k x) as [oj|] eqn:E1;
      simpl in E; [|discriminate E].
    destruct (serialize_members _ props) as [js'|] eqn:E2;
      simpl in E; [|discriminate E].
    destruct (IHl js' Hp eq_refl) as [A B].
    pose proof (IH _ _ _ _ Hx E1) as Hj.
    inversion E; subst js; clear E.
    destruct oj as [j|].
    + destruct Hj as (_ & Hs & Hpj). simpl.
      rewrite Hs, A, Hpj, B, value_of_json_defined. split; reflexivity.
    + rewrite Hj in Hu. discriminate Hu.
Qed.

Lemma shape_descent d : rv_shape d /\ ser_shape d.
Proof.
  induction d as [|d [IHr IHs]].
  - split; intros until 1; intros E; discriminate E.
  - split.
    + intros key v y Hp E. rewrite redactValueByKey_S in E. cbv zeta in E.
      destruct v; try discriminate Hp;
        try (split_ifs; inversion E; repeat split; assumption || reflexivity).
      * inversion E; clear E.
        destruct (SerializeJSONProperty heap d [] "" (VArr items)) as [[j|]|] eqn:E1;
          simpl; auto.
        destruct (IHs _ _ _ _ Hp E1) as (_ & A & B).
        rewrite value_of_json_defined. auto.
      * inversion E; clear E.
        destruct (SerializeJSONProperty heap d [] "" (VObj props)) as [[j|]|] eqn:E1;
          simpl; auto.
        destruct (IHs _ _ _ _ Hp E1) as (_ & A & B).
        rewrite value_of_json_defined. auto.
    + intros stack key v oj Hp E. rewrite SerializeJSONProperty_S in E.
      destruct (redactValueByKey heap d key v) as [y|] eqn:Er;
        simpl in E; [|discriminate E].
      destruct (IHr _ _ _ Hp Er) as (Hs & Hpy & Hu).
      destruct y; try discriminate Hpy; try discriminate E;
        try (inversion E; subst oj; simpl in *; auto; fail).
      * inversion E; subst oj. simpl in Hs, Hu.
        destruct x; simpl; auto.
      * destruct (serialize_elements _ 0 items) as [js|] eqn:E1;
          simpl in E; [|discriminate E].
        inversion E; subst oj; clear E.
        destruct (elements_shape d stack IHs items 0 js Hpy E1) as [A B].
        simpl. rewrite <- Hs. simpl. rewrite A. auto.
      * destruct (serialize_members _ props) as [js|] eqn:E1;
          simpl in E; [|discriminate E].
        inversion E; subst oj; clear E.
        destruct (members_shape d stack IHs props js Hpy E1) as [A B].
        simpl. rewrite <- Hs. simpl. rewrite A. auto.
Qed.

Lemma sanitizeArg_shape d v : plain v = true -> shape (sanitizeArg heap d v) = shape v.
Proof.
  intros Hp.
  destruct v; try reflexivity; try discriminate Hp;
    unfold sanitizeArg, JSON_stringify;
    match goal with
    | |- context [SerializeJSONProperty heap d [] ?k ?v] =>
        destruct (SerializeJSONProperty heap d [] k v) as [[j|]|] eqn:E
    end; simpl; try reflexivity;
    destruct (proj2 (shape_descent d) _ _ _ _ Hp E) as (_ & A & _); exact A.
Qed.
End ShapeKept.

Definition two_tokens : Value :=
  VArr [VObj [("token"%string, VStr "abc")]; VObj [("token"%string, VStr "def")]].

(** C5, as the code has it.  For data written in place in which no mapping
    has an undefined property, the sanitized value has the shape of the
    argument: every mapping keeps its keys in their order, every sequence
    its length; in particular the array of two token mappings becomes the
    array of the two masked mappings. *)
Theorem sanitize_preserves_shape (heap : Heap) (d : nat) (args : list Value) :
  forallb plain args = true ->
  map shape (sanitizeArgs heap d args) = map shape args /\
  (4 <= d ->
   sanitizeArgs heap d [two_tokens]
   = [VArr [VObj [("token"%string, VStr "***")]; VObj [("token"%string, VStr "***")]]]).
Proof.
  intros Hp. split.
  - unfold sanitizeArgs. induction args as [|v args IH]; [reflexivity|].
    simpl in Hp. apply andb_true_iff in Hp. destruct Hp as [Hv Hp].
    simpl. rewrite (sanitizeArg_shape heap d v Hv), (IH Hp). reflexivity.
  - intros Hd. unfold sanitizeArgs. cbn [map].
    rewrite sanitizeArg_clean; try assumption; try reflexivity.
    simpl. repeat split.
Qed.

Lemma sanitize_preserves_shape_witness :
  map shape (sanitizeArgs empty_heap 4 [two_tokens]) = map shape [two_tokens] /\
  (4 <= 4 ->
   sanitizeArgs empty_heap 4 [two_tokens]
   = [VArr [VObj [("token"%string, VStr "***")]; VObj [("token"%string, VStr "***")]]]).
Proof.
  apply sanitize_preserves_shape. reflexivity.
Defined.

Definition undefined_property : Value := VObj [("a"%string, VUndefined)].

Lemma serialize_undefined heap d stack key oj :
  SerializeJSONProperty heap d stack key VUndefined = Ok oj -> oj = None.
Proof.
  destruct d as [|[|d]]; intros E; try discriminate E.
  rewrite SerializeJSONProperty_S, redactValueByKey_S in E. inversion E. reflexivity.
Qed.

Lemma dropped_levels heap d :
  (forall y, redactValueByKey heap d "" undefined_property = Ok y ->
             y = undefined_property \/ y = VObj []) /\
  (forall y, redactValueByKey heap d "" (VObj []) = Ok y -> y = VObj []) /\
  (forall oj, SerializeJSONProperty heap d [] "" undefined_property = Ok oj ->
              oj = Some (JObj [])) /\
  (forall oj, SerializeJSONProperty heap d [] "" (VObj []) = Ok oj ->
              oj = Some (JObj [])).
Proof.
  induction d as [|d (IH1 & IH2 & IH3 & IH4)].
  - repeat split; intros ? E; discriminate E.
  - repeat split.
    + intros y E. rewrite redactValueByKey_S in E. cbv zeta in E.
      unfold undefined_property in E. inversion E; clear E.
      destruct (SerializeJSONProperty heap d [] "" (VObj [("a"%string, VUndefined)]))
        as [oj|] eqn:E1; simpl; auto.
      rewrite (IH3 oj E1). simpl. auto.
    + intros y E. rewrite redactValueByKey_S in E. cbv zeta in E.
      inversion E; clear E.
      destruct (SerializeJSONProperty heap d [] "" (VObj [])) as [oj|] eqn:E1;
        simpl; auto.
      rewrite (IH4 oj eq_refl). reflexivity.
    + intros oj E. rewrite SerializeJSONProperty_S in E.
      destruct (redactValueByKey heap d "" undefined_property) as [y|] eqn:Er;
        simpl in E; [|discriminate E].
      destruct (IH1 y eq_refl) as [->| ->]; simpl in E.
      * destruct (SerializeJSONProperty heap d [] "a" VUndefined) as [oj'|] eqn:E1;
          simpl in E; [|discriminate E].
        rewrite (serialize_undefined heap d [] "a" oj' E1) in E.
        inversion E. reflexivity.
      * inversion E. reflexivity.
    + intros oj E. rewrite SerializeJSONProperty_S in E.
      destruct (redactValueByKey heap d "" (VObj [])) as [y|] eqn:Er;
        simpl in E; [|discriminate E].
      rewrite (IH2 y eq_refl) in E. simpl in E. inversion E. reflexivity.
Qed.

(** C5 as stated fails: a property whose value is undefined is left out of
    the rebuilt mapping, so the key set is not the argument's. *)
Lemma undefined_property_is_dropped :
  shape (VObj []) <> shape (VObj [("a"%string, VUndefined)]) /\
  forall d, 3 <= d ->
    sanitizeArgs empty_heap d [VObj [("a"%string, VUndefined)]] = [VObj []].
Proof.
  split; [discriminate|].
  intros d Hd. destruct d as [|[|[|d]]]; try lia.
  unfold sanitizeArgs. cbn [map]. unfold sanitizeArg, JSON_stringify.
  rewrite SerializeJSONProperty_S.
  destruct (redactValueByKey_returns empty_heap (S d) "" (VObj [("a"%string, VUndefined)]))
    as (y & Er).
  rewrite Er. simpl bind.
  destruct (proj1 (dropped_levels empty_heap (S (S d))) y Er) as [->| ->].
  - unfold undefined_property. cbn [serialize_members].
    rewrite SerializeJSONProperty_S, redactValueByKey_S. reflexivity.
  - reflexivity.
Qed.

(* ------------------------------------------------------------------ *)
(** * Properties of the pattern scrubber *)

(** ** What a pattern matches

    The language of a pattern, without reference to the matcher: the words
    the pattern matches as a whole. *)
Fixpoint Matches (ic : bool) (r : regex) (w : list ascii) : Prop :=
  match r with
  | Lit l => Forall2 (fun a c => eqb_canon ic a c = true) (list_ascii_of_string l) w
  | One c => exists x, w = [x] /\ class_test ic c x = true
  | Rep c min max =>
      Forall (fun x => class_test ic c x = true) w /\ min <= List.length w /\
      match max with Some m => List.length w <= m | None => True end
  | Cat r1 r2 => exists w1 w2, w = w1 ++ w2 /\ Matches ic r1 w1 /\ Matches ic r2 w2
  | Alt r1 r2 => Matches ic r1 w \/ Matches ic r2 w
  | Group r1 => Matches ic r1 w
  end.

(** The same with the captured groups, in the order in which the groups
    close. *)
Fixpoint MatchesC (ic : bool) (r : regex) (w : list ascii) (caps : list (list ascii))
  : Prop :=
  match r with
  | Cat r1 r2 =>
      exists w1 w2 c1 c2,
        w = w1 ++ w2 /\ caps = c1 ++ c2 /\ MatchesC ic r1 w1 c1 /\ MatchesC ic r2 w2 c2
  | Alt r1 r2 => MatchesC ic r1 w caps \/ MatchesC ic r2 w caps
  | Group r1 => exists c1, caps = c1 ++ [w] /\ MatchesC ic r1 w c1
  | _ => Matches ic r w /\ caps = []
  end.

(** The six patterns with their case flag, in the order of the passes. *)
Definition scrub_patterns : list (bool * regex) :=
  [(true, bearer_re); (true, keyvalue_re); (true, code_re); (true, hex_re);
   (false, base64_re); (false, email_re)].

(** No part of [s] is matched by any of the six patterns. *)
Definition secret_free (s : string) : Prop :=
  forall ic r, In (ic, r) scrub_patterns ->
    forall pre w post, list_ascii_of_string s = pre ++ w ++ post -> ~ Matches ic r w.

Fixpoint suffixes (s : list ascii) : list (list ascii) :=
  s :: match s with [] => [] | _ :: s' => suffixes s' end.

(** The matcher finds a match somewhere in [s]. *)
Definition has_match (ic : bool) (r : regex) (s : list ascii) : bool :=
  existsb (fun t => match rmatch ic r t [] (fun _ _ => Some tt) with
                    | Some _ => true
                    | None => false
                    end) (suffixes s).

Section MatcherSound.
Variable A : Type.
Variable ic : bool.

Lemma match_lit_sound l s s' :
  match_lit ic l s = Some s' ->
  exists w, s = w ++ s' /\ Forall2 (fun a c => eqb_canon ic a c = true) l w.
Proof.
  revert s. induction l as [|a l IH]; intros s E; simpl in E.
  - inversion E. exists []. split; [reflexivity | constructor].
  - destruct s as [|c s]; [discriminate E|].
    destruct (eqb_canon ic a c) eqn:Hc; [|discriminate E].
    destruct (IH s E) as (w & -> & Hw).
    exists (c :: w). split; [reflexivity | constructor; assumption].
Qed.

Lemma match_lit_complete l w rest :
  Forall2 (fun a c => eqb_canon ic a c = true) l w ->
  match_lit ic l (w ++ rest) = Some rest.
Proof.
  induction 1 as [|a c l w Hc Hw IH]; simpl; [reflexivity|].
  rewrite Hc. exact IH.
Qed.

Lemma match_rep_sound p s : forall min max (k : list ascii -> option A) a,
  match_rep p min max s k = Some a ->
  exists w rest, s = w ++ rest /\ Forall (fun x => p x = true) w /\
                 min <= List.length w /\
                 match max with Some m => List.length w <= m | None => True end /\
                 k rest = Some a.
Proof.
  induction s as [|c s IH]; intros min max k a E; simpl in E.
  - destruct min; [|discriminate E].
    exists [], []. repeat split; auto. destruct max; simpl; auto with arith.
  - assert (forall b, match min with 0 => k (c :: s) | S _ => None end = Some b ->
              exists w rest, c :: s = w ++ rest /\ Forall (fun x => p x = true) w /\
                 min <= List.length w /\
                 match max with Some m => List.length w <= m | None => True end /\
                 k rest = Some b) as Hstop.
    { intros b Eb. destruct min; [|discriminate Eb].
      exists [], (c :: s). repeat split; auto. destruct max; simpl; auto with arith. }
    destruct (may_take max && p c)%bool eqn:Ht; [|exact (Hstop a E)].
    apply andb_true_iff in Ht. destruct Ht as [Hm Hp].
    destruct (match_rep p (pred min) (less max) s k) as [b|] eqn:Er;
      [|exact (Hstop a E)].
    inversion E; subst b; clear E.
    destruct (IH _ _ _ _ Er) as (w & rest & -> & Hw & Hmin & Hmax & Hk).
    exists (c :: w), rest. repeat split; auto.
    + simpl. lia.
    + destruct max as [[|m]|]; simpl in *; try discriminate Hm; auto. lia.
Qed.

Lemma match_rep_stop p max s (k : list ascii -> option A) :
  k s <> None -> match_rep p 0 max s k <> None.
Proof.
  intros Hk. destruct s as [|c s]; simpl; [exact Hk|].
  destruct (may_take max && p c)%bool; [|exact Hk].
  destruct (match_rep p 0 (less max) s k); [discriminate | exact Hk].
Qed.

Lemma match_rep_complete p w : forall min max rest (k : list ascii -> option A),
  Forall (fun x => p x = true) w ->
  min <= List.length w ->
  match max with Some m => List.length w <= m | None => True end ->
  k rest <> None ->
  match_rep p min max (w ++ rest) k <> None.
Proof.
  induction w as [|c w IH]; intros min max rest k Hw Hmin Hmax Hk.
  - simpl in Hmin. assert (min = 0) as -> by lia.
    apply match_rep_stop. exact Hk.
  - inversion Hw as [|? ? Hc Hw']; subst. simpl.
    assert (may_take max = true) as ->.
    { destruct max as [[|m]|]; simpl in *; auto. lia. }
    rewrite Hc. simpl.
    assert (match_rep p (pred min) (less max) (w ++ rest) k <> None) as Hr.
    { apply IH; auto.
      - simpl in Hmin. lia.
      - destruct max as [m|]; simpl in *; auto. lia. }
    destruct (match_rep p (pred min) (less max) (w ++ rest) k);
      [discriminate | contradiction].
Qed.

(** Soundness: a successful run of the matcher has consumed a word of
    the pattern's language and has handed the groups it closed on to the
    continuation. *)
Lemma rmatch_sound_caps r : forall s caps (k : Cont A) a,
  rmatch ic r s caps k = Some a ->
  exists w rest caps',
    s = w ++ rest /\ MatchesC ic r w caps' /\ k rest (caps ++ caps') = Some a.
Proof.
  induction r as [l | c | c min max | r1 IH1 r2 IH2 | r1 IH1 r2 IH2 | r1 IH1];
    intros s caps k a E; simpl in E.
  - destruct (match_lit ic (list_ascii_of_string l) s) as [s'|] eqn:El;
      [|discriminate E].
    destruct (match_lit_sound _ _ _ El) as (w & -> & Hw).
    exists w, s', []. rewrite app_nil_r. simpl. auto.
  - destruct s as [|x s]; [discriminate E|].
    destruct (class_test ic c x) eqn:Hc; [|discriminate E].
    exists [x], s, []. rewrite app_nil_r. simpl. repeat split; auto. exists x. auto.
  - destruct (match_rep_sound _ _ _ _ _ _ E) as (w & rest & -> & Hw & Hmin & Hmax & Hk).
    exists w, rest, []. rewrite app_nil_r. simpl. repeat split; auto.
  - destruct (IH1 _ _ _ _ E) as (w1 & rest1 & caps1 & -> & H1 & E1).
    destruct (IH2 _ _ _ _ E1) as (w2 & rest2 & caps2 & -> & H2 & E2).
    exists (w1 ++ w2), rest2, (caps1 ++ caps2). rewrite <- app_assoc.
    repeat split; auto.
    + simpl. exists w1, w2, caps1, caps2. auto.
    + rewrite app_assoc. exact E2.
  - destruct (rmatch ic r1 s caps k) as [b|] eqn:E1.
    + inversion E; subst b.
      destruct (IH1 _ _ _ _ E1) as (w & rest & caps' & -> & H & Ek).
      exists w, rest, caps'. simpl. auto.
    + destruct (IH2 _ _ _ _ E) as (w & rest & caps' & -> & H & Ek).
      exists w, rest, caps'. simpl. auto.
  - destruct (IH1 _ _ _ _ E) as (w & rest & caps' & -> & H & Ek).
    exists w, rest, (caps' ++ [w]). repeat split; auto.
    + simpl. exists caps'. auto.
    + rewrite length_app, Nat.add_sub, firstn_app, Nat.sub_diag, firstn_all in Ek.
      simpl in Ek. rewrite app_nil_r, <- app_assoc in Ek. exact Ek.
Qed.

Lemma MatchesC_Matches r : forall w caps, MatchesC ic r w caps -> Matches ic r w.
Proof.
  induction r as [l | c | c min max | r1 IH1 r2 IH2 | r1 IH1 r2 IH2 | r1 IH1];
    intros w caps H; simpl in H |- *; try tauto.
  - destruct H as (w1 & w2 & c1 & c2 & -> & _ & H1 & H2). exists w1, w2. eauto.
  - destruct H as [H|H]; eauto.
  - destruct H as (c1 & _ & H). eauto.
Qed.

Lemma rmatch_sound r s caps (k : Cont A) a :
  rmatch ic r s caps k = Some a ->
  exists w rest caps', s = w ++ rest /\ Matches ic r w /\ k rest caps' = Some a.
Proof.
  intros E. destruct (rmatch_sound_caps r s caps k a E) as (w & rest & caps' & Hs & Hm & Hk).
  exists w, rest, (caps ++ caps'). split; [assumption|]. split; [|assumption].
  exact (MatchesC_Matches r w caps' Hm).
Qed.

(** Completeness: where a word of the language starts the input, and the
    continuation accepts what follows it, the matcher finds a match. *)
Lemma rmatch_complete r : forall w rest caps (k : Cont A),
  Matches ic r w ->
  (forall caps', k rest caps' <> None) ->
  rmatch ic r (w ++ rest) caps k <> None.
Proof.
  induction r as [l | c | c min max | r1 IH1 r2 IH2 | r1 IH1 r2 IH2 | r1 IH1];
    intros w rest caps k H Hk; simpl in H |- *.
  - rewrite (match_lit_complete _ _ rest H). apply Hk.
  - destruct H as (x & -> & Hc). simpl. rewrite Hc. apply Hk.
  - destruct H as (Hw & Hmin & Hmax).
    apply match_rep_complete; auto.
  - destruct H as (w1 & w2 & -> & H1 & H2). rewrite <- app_assoc.
    apply IH1; [assumption|]. intros caps'. apply IH2; assumption.
  - destruct H as [H|H].
    + pose proof (IH1 w rest caps k H Hk) as Hr.
      destruct (rmatch ic r1 (w ++ rest) caps k); [discriminate | contradiction].
    + destruct (rmatch ic r1 (w ++ rest) caps k); [discriminate|].
      apply IH2; assumption.
  - apply IH1; [assumption|]. intros caps'. apply Hk.
Qed.
End MatcherSound.

(** ** Text without secrets is left alone *)

Lemma suffixes_spec (s t : list ascii) : In t (suffixes s) <-> exists pre, s = pre ++ t.
Proof.
  induction s as [|c s IH]; simpl.
  - split.
    + intros [<-|[]]. exists []. reflexivity.
    + intros (pre & E). left. symmetry in E. apply app_eq_nil in E. symmetry. tauto.
  - split.
    + intros [<-|H]; [exists []; reflexivity|].
      apply IH in H. destruct H as (pre & ->). exists (c :: pre). reflexivity.
    + intros ([|x pre] & E); simpl in E.
      * left. exact E.
      * right. apply IH. inversion E. exists pre. reflexivity.
Qed.

Lemma replace_no_match ic r repl s :
  (forall t, In t (suffixes s) -> exec ic r t = None) ->
  replace_from ic r repl 0 s = s.
Proof.
  induction s as [|c s IH]; intros H; simpl.
  - rewrite (H [] (or_introl eq_refl)). reflexivity.
  - rewrite (H (c :: s) (or_introl eq_refl)). f_equal.
    apply IH. intros t Ht. apply H. right. exact Ht.
Qed.

Lemma exec_none ic r s :
  (forall pre w post, s = pre ++ w ++ post -> ~ Matches ic r w) ->
  forall t, In t (suffixes s) -> exec ic r t = None.
Proof.
  intros H t Ht. apply suffixes_spec in Ht. destruct Ht as (pre & ->).
  destruct (exec ic r t) as [a|] eqn:E; [|reflexivity].
  destruct (rmatch_sound _ ic r t [] _ a E) as (w & rest & _ & -> & Hw & _).
  exfalso. exact (H pre w rest eq_refl Hw).
Qed.

Lemma replace_all_no_match ic r repl s :
  (forall pre w post, list_ascii_of_string s = pre ++ w ++ post -> ~ Matches ic r w) ->
  replace_all ic r repl s = s.
Proof.
  intros H. unfold replace_all.
  rewrite (replace_no_match ic r repl _ (exec_none ic r _ H)).
  apply string_of_list_ascii_of_string.
Qed.

Lemma has_match_false ic r s :
  has_match ic r s = false ->
  forall pre w post, s = pre ++ w ++ post -> ~ Matches ic r w.
Proof.
  intros H pre w post -> Hw.
  assert (has_match ic r (pre ++ w ++ post) = true) as Ht; [|congruence].
  unfold has_match. apply existsb_exists. exists (w ++ post). split.
  - apply suffixes_spec. exists pre. reflexivity.
  - pose proof (rmatch_complete unit ic r w post [] (fun _ _ => Some tt) Hw
                  (fun _ => ltac:(discriminate))) as Hr.
    destruct (rmatch ic r (w ++ post) [] (fun _ _ => Some tt)); [reflexivity | contradiction].
Qed.

Lemma secret_free_by_search s :
  forallb (fun p => negb (has_match (fst p) (snd p) (list_ascii_of_string s)))
          scrub_patterns = true ->
  secret_free s.
Proof.
  intros H ic r Hin. rewrite forallb_forall in H.
  specialize (H (ic, r) Hin). simpl in H. apply negb_true_iff in H.
  exact (has_match_false ic r _ H).
Qed.

(** C9.  [redactString] is a function from strings to strings (it is
    defined on every string and has no way to fail), and on a string no
    part of which is matched by any of the six patterns it returns its
    input. *)
Theorem redactString_identity (s : string) :
  secret_free s -> redactString s = s.
Proof.
  intros H. unfold redactString, maskBearer, maskKeyValue, maskCode, maskHex,
    maskBase64, maskEmail.
  rewrite (replace_all_no_match true bearer_re _ s (H true bearer_re ltac:(simpl; tauto))).
  rewrite (replace_all_no_match true keyvalue_re _ s (H true keyvalue_re ltac:(simpl; tauto))).
  rewrite (replace_all_no_match true code_re _ s (H true code_re ltac:(simpl; tauto))).
  rewrite (replace_all_no_match true hex_re _ s (H true hex_re ltac:(simpl; tauto))).
  rewrite (replace_all_no_match false base64_re _ s (H false base64_re ltac:(simpl; tauto))).
  exact (replace_all_no_match false email_re _ s (H false email_re ltac:(simpl; tauto))).
Qed.

Lemma redactString_identity_witness :
  redactString "Loaded 12 items in 45ms" = "Loaded 12 items in 45ms"%string.
Proof.
  apply redactString_identity. apply secret_free_by_search. vm_compute. reflexivity.
Defined.


(* ------------------------------------------------------------------ *)
(** ** Scanning with a global pattern *)

(** One pass: flag, pattern and replacement. *)
Record pass : Type := Pass {
  p_ic : bool;
  p_re : regex;
  p_repl : list ascii -> list (list ascii) -> list ascii
}.

Definition run (P : pass) (s : list ascii) : list ascii :=
  replace_from (p_ic P) (p_re P) (p_repl P) 0 s.

Definition attempt (P : pass) (s : list ascii) : option (list ascii * list (list ascii)) :=
  exec (p_ic P) (p_re P) s.

(** Every match of the pass takes at least one character. *)
Definition progressive (P : pass) : Prop :=
  forall w, Matches (p_ic P) (p_re P) w -> w <> [].

(** At [s] the pass finds nothing, or a match that it replaces by itself. *)
Definition selfmatch (P : pass) (s : list ascii) : Prop :=
  match attempt P s with
  | None => True
  | Some (rest, caps) => exists w, s = w ++ rest /\ p_repl P w caps = w
  end.

(** The pass finds nothing to change anywhere in [s]. *)
Definition settled_text (P : pass) (s : list ascii) : Prop :=
  forall t, In t (suffixes s) -> selfmatch P t.

Definition bearer_pass : pass :=
  Pass true bearer_re (fun _ _ => list_ascii_of_string "Bearer ***").
Definition keyvalue_pass : pass :=
  Pass true keyvalue_re (fun _ caps => cap 1 caps ++ list_ascii_of_string "=***").
Definition code_pass : pass :=
  Pass true code_re (fun _ caps => cap 1 caps ++ stars6).
Definition hex_pass : pass := Pass true hex_re (fun _ _ => stars3).
Definition base64_pass : pass := Pass false base64_re (fun _ _ => stars3).
Definition email_pass : pass :=
  Pass false email_re (fun _ caps => cap 1 caps ++ stars3 ++ cap 2 caps).

Lemma replace_from_skip ic r repl w rest :
  replace_from ic r repl (List.length w) (w ++ rest) = replace_from ic r repl 0 rest.
Proof. induction w as [|c w IH]; simpl; [reflexivity | exact IH]. Qed.

Lemma attempt_split P s rest caps :
  attempt P s = Some (rest, caps) ->
  exists w, s = w ++ rest /\ MatchesC (p_ic P) (p_re P) w caps.
Proof.
  intros E. unfold attempt, exec in E.
  destruct (rmatch_sound_caps _ _ _ _ _ _ _ E) as (w & rest' & caps' & -> & Hm & Hk).
  simpl in Hk. inversion Hk; subst. exists w. auto.
Qed.

Lemma attempt_complete P w rest :
  Matches (p_ic P) (p_re P) w -> attempt P (w ++ rest) <> None.
Proof.
  intros H. unfold attempt, exec.
  apply rmatch_complete; [assumption | discriminate].
Qed.

Lemma run_nil P : progressive P -> run P [] = [].
Proof.
  intros Hp. unfold run. simpl.
  destruct (exec (p_ic P) (p_re P) []) as [[rest caps]|] eqn:E; [|reflexivity].
  destruct (attempt_split P [] rest caps E) as (w & Hs & Hm).
  symmetry in Hs. apply app_eq_nil in Hs. destruct Hs as [-> _].
  exfalso. exact (Hp [] (MatchesC_Matches _ _ _ _ Hm) eq_refl).
Qed.

Lemma run_copy P c s :
  attempt P (c :: s) = None -> run P (c :: s) = c :: run P s.
Proof. intros E. unfold run, attempt in *. simpl. rewrite E. reflexivity. Qed.

Lemma run_match P w rest caps :
  progressive P ->
  attempt P (w ++ rest) = Some (rest, caps) ->
  MatchesC (p_ic P) (p_re P) w caps ->
  run P (w ++ rest) = p_repl P w caps ++ run P rest.
Proof.
  intros Hp E Hm.
  pose proof (Hp w (MatchesC_Matches _ _ _ _ Hm)) as Hw.
  destruct w as [|c w]; [contradiction|].
  unfold run, attempt in *. simpl app in *. cbn [replace_from]. rewrite E.
  assert (List.length (c :: w ++ rest) - List.length rest = S (List.length w)) as ->.
  { change (List.length (c :: w ++ rest)) with (S (List.length (w ++ rest))).
    rewrite length_app. lia. }
  cbn [firstn]. rewrite firstn_app, Nat.sub_diag, firstn_all. simpl firstn.
  rewrite app_nil_r. f_equal. apply replace_from_skip.
Qed.

(** The three ways a scan goes on. *)
Lemma run_cases P s :
  progressive P ->
  (s = [] /\ run P s = []) \/
  (exists c s', s = c :: s' /\ attempt P s = None /\ run P s = c :: run P s') \/
  (exists w rest caps,
      s = w ++ rest /\ w <> [] /\ attempt P s = Some (rest, caps) /\
      MatchesC (p_ic P) (p_re P) w caps /\
      run P s = p_repl P w caps ++ run P rest).
Proof.
  intros Hp. destruct s as [|c s]; [left; split; [reflexivity | apply run_nil; assumption]|].
  right. destruct (attempt P (c :: s)) as [[rest caps]|] eqn:E.
  - right. destruct (attempt_split P _ rest caps E) as (w & Hs & Hm).
    exists w, rest, caps. rewrite Hs in E |- *.
    repeat split; auto.
    + exact (Hp w (MatchesC_Matches _ _ _ _ Hm)).
    + apply run_match; assumption.
  - left. exists c, s. repeat split; auto. apply run_copy; assumption.
Qed.

Lemma suffixes_app (a b t : list ascii) :
  In t (suffixes b) -> In t (suffixes (a ++ b)).
Proof.
  intros H. apply suffixes_spec in H. destruct H as (pre & ->).
  apply suffixes_spec. exists (a ++ pre). rewrite app_assoc. reflexivity.
Qed.

Lemma suffixes_self (s : list ascii) : In s (suffixes s).
Proof. destruct s; simpl; auto. Qed.

Lemma settled_text_suffix P a b : settled_text P (a ++ b) -> settled_text P b.
Proof. intros H t Ht. apply H. apply suffixes_app. exact Ht. Qed.

(** A pass changes nothing in a text that is settled for it. *)
Lemma run_settled P : progressive P -> forall s, settled_text P s -> run P s = s.
Proof.
  intros Hp s. remember (List.length s) as n eqn:Hn. revert s Hn.
  induction n as [n IH] using lt_wf_ind. intros s Hn Hs.
  destruct (run_cases P s Hp) as [[-> E] | [(c & s' & -> & Ea & E) | (w & rest & caps & -> & Hw & Ea & Hm & E)]].
  - exact E.
  - rewrite E. f_equal. apply (IH (List.length s')); [simpl in Hn; lia | reflexivity|].
    exact (settled_text_suffix P [c] s' Hs).
  - rewrite E.
    pose proof (Hs _ (suffixes_self _)) as Hself. unfold selfmatch in Hself.
    rewrite Ea in Hself. destruct Hself as (w' & Hs' & Hr).
    apply app_inv_tail in Hs'. subst w'. rewrite Hr. f_equal.
    apply (IH (List.length rest)); [|reflexivity|].
    + rewrite Hn, length_app. destruct w; [contradiction | simpl; lia].
    + exact (settled_text_suffix P w rest Hs).
Qed.

(* ------------------------------------------------------------------ *)
(** ** A text and its rewritten form, side by side

    [Sync ok prev u u']: [u'] is [u] with some pieces [X] replaced by pieces
    [Y], everything else copied; [prev] is the character written just
    before, and [ok prev X Y rest] is what is known of each replacement. *)

Definition last_char (w : list ascii) (prev : option ascii) : option ascii :=
  fold_left (fun _ c => Some c) w prev.

Inductive Sync (ok : option ascii -> list ascii -> list ascii -> list ascii -> Prop)
  : option ascii -> list ascii -> list ascii -> Prop :=
| Sync_nil prev : Sync ok prev [] []
| Sync_copy prev c u u' :
    Sync ok (Some c) u u' -> Sync ok prev (c :: u) (c :: u')
| Sync_edit prev X Y u u' :
    ok prev X Y u -> Sync ok (last_char Y prev) u u' ->
    Sync ok prev (X ++ u) (Y ++ u').

Definition is_star (c : ascii) : bool := Ascii.eqb c "*".
Definition is_mark (c : ascii) : bool := (is_star c || Ascii.eqb c "=")%bool.

Lemma last_char_app w1 w2 prev :
  last_char (w1 ++ w2) prev = last_char w2 (last_char w1 prev).
Proof. unfold last_char. apply fold_left_app. Qed.

Lemma Sync_copies ok w : forall prev u u',
  Sync ok (last_char w prev) u u' -> Sync ok prev (w ++ u) (w ++ u').
Proof.
  induction w as [|c w IH]; intros prev u u' H; simpl; [exact H|].
  apply Sync_copy. apply IH. exact H.
Qed.

Lemma Sync_weaken (ok ok' : option ascii -> list ascii -> list ascii -> list ascii -> Prop) :
  (forall prev X Y u, ok prev X Y u -> ok' prev X Y u) ->
  forall prev u u', Sync ok prev u u' -> Sync ok' prev u u'.
Proof.
  intros H prev u u' Hs. induction Hs; constructor; auto.
Qed.

Section SyncFacts.
Variable ok : option ascii -> list ascii -> list ascii -> list ascii -> Prop.
Variable mark : ascii -> bool.
Hypothesis ok_mark :
  forall prev X Y u, ok prev X Y u ->
    Y <> [] /\ Forall (fun c => mark c = true) Y.

(** Reading characters that are no marks off the rewritten text reads the
    same characters off the original. *)
Lemma clean_prefix w' : forall prev u u' v',
  Sync ok prev u u' -> u' = w' ++ v' ->
  Forall (fun c => mark c = false) w' ->
  exists v, u = w' ++ v /\ Sync ok (last_char w' prev) v v'.
Proof.
  induction w' as [|c w' IH]; intros prev u u' v' Hs E Hw.
  - simpl in E. subst v'. exists u. auto.
  - inversion Hw as [|? ? Hc Hw']; subst.
    inversion Hs as [p | p c0 u0 u0' Hs0 | p X Y u0 u0' Hok Hs0 EX EY].
    + subst. destruct (IH _ _ _ _ Hs0 eq_refl Hw') as (v & -> & Hv).
      exists v. auto.
    + destruct (ok_mark _ _ _ _ Hok) as [Hne HY].
      destruct Y as [|y Y]; [contradiction|].
      match goal with
      | H : (_ :: _) ++ _ = _ :: _ |- _ => simpl in H; inversion H; subst
      end.
      inversion HY; subst. congruence.
Qed.

(** Where the rewritten text can be entered: at a place that corresponds
    to a place of the original, or at a mark. *)
Lemma sync_suffixes prev u u' :
  Sync ok prev u u' ->
  forall s', In s' (suffixes u') ->
    (exists prev2 u2, In u2 (suffixes u) /\ Sync ok prev2 u2 s') \/
    (exists y s'', s' = y :: s'' /\ mark y = true).
Proof.
  induction 1 as [p | p c u u' Hs IH | p X Y u u' Hok Hs IH]; intros s' Hin.
  - simpl in Hin. destruct Hin as [<-|[]]. left. exists p, []. split; [simpl; auto | constructor].
  - simpl in Hin. destruct Hin as [<-|Hin].
    + left. exists p, (c :: u). split; [apply suffixes_self | constructor; assumption].
    + destruct (IH _ Hin) as [(p2 & u2 & Hu2 & Hs2) | Hr]; [|right; assumption].
      left. exists p2, u2. split; [|assumption]. simpl. auto.
  - apply suffixes_spec in Hin. destruct Hin as (pre & E).
    destruct (ok_mark _ _ _ _ Hok) as [Hne HY].
    assert ((exists Y1 Y2, Y = Y1 ++ Y2 /\ Y2 <> [] /\ s' = Y2 ++ u') \/
            In s' (suffixes u')) as [(Y1 & Y2 & -> & HY2 & ->) | Hin].
    { clear -E. revert pre E. induction Y as [|y Y IHY]; intros pre E.
      - right. apply suffixes_spec. exists pre. exact E.
      - destruct pre as [|x pre].
        + left. exists [], (y :: Y). simpl in E. subst s'.
          repeat split; auto. discriminate.
        + simpl in E. inversion E; subst.
          destruct (IHY pre H1) as [(Y1 & Y2 & -> & HY2 & ->) | Hin].
          * left. exists (x :: Y1), Y2. auto.
          * right. assumption. }
    + right. destruct Y2 as [|y Y2]; [contradiction|].
      exists y, (Y2 ++ u'). split; [reflexivity|].
      apply Forall_app in HY. destruct HY as [_ HY]. inversion HY; assumption.
    + destruct (IH _ Hin) as [(p2 & u2 & Hu2 & Hs2) | Hr]; [|right; assumption].
      left. exists p2, u2. split; [|assumption]. apply suffixes_app. assumption.
Qed.
End SyncFacts.

(* ------------------------------------------------------------------ *)
(** ** What is known of the replacements of the passes *)

Definition email_local : cclass :=
  Class false (alnum ++ [CChar "."; CChar "_"; CChar "%"; CChar "+"; CChar "-"]).

(** The character written before is one an email address can start with. *)
Definition solid (prev : option ascii) : Prop :=
  exists c, prev = Some c /\ class_test false email_local c = true.

(** Neither white space, nor ampersand, quote or star. *)
Definition plain_char (c : ascii) : bool :=
  negb (isSpace c || Ascii.eqb c "&" || Ascii.eqb c dquote || Ascii.eqb c squote
        || is_star c)%bool.

(** A replacement writes stars (and, if [with_eq], equal signs), at least
    one; it comes after a solid character or in place of a plain one. *)
Definition edit_ok (with_eq : bool) (prev : option ascii) (X Y u : list ascii) : Prop :=
  Y <> [] /\
  Forall (fun c => (if with_eq then is_mark c else is_star c) = true) Y /\
  (solid prev \/ exists f t, X ++ u = f :: t /\ plain_char f = true).

Lemma edit_ok_mark with_eq prev X Y u :
  edit_ok with_eq prev X Y u ->
  Y <> [] /\ Forall (fun c => (if with_eq then is_mark c else is_star c) = true) Y.
Proof. intros (A & B & _). auto. Qed.

Ltac each_ascii c :=
  destruct c as [[] [] [] [] [] [] [] []]; vm_compute;
  try reflexivity; try discriminate; try (intros; discriminate);
  try (intros; reflexivity); try tauto.

(** A pass none of whose matches holds a star and which never replaces a
    match by itself finds, wherever it can enter a rewritten text, no more
    than it found in the original. *)
Section NoNewMatch.
Variable P : pass.
Hypothesis P_progressive : progressive P.
Hypothesis P_starfree :
  forall w, Matches (p_ic P) (p_re P) w -> Forall (fun c => is_star c = false) w.
Hypothesis P_changes :
  forall w caps, MatchesC (p_ic P) (p_re P) w caps -> p_repl P w caps <> w.

Lemma settled_is_unmatched s :
  settled_text P s -> forall t, In t (suffixes s) -> attempt P t = None.
Proof.
  intros Hs t Ht. specialize (Hs t Ht). unfold selfmatch in Hs.
  destruct (attempt P t) as [[rest caps]|] eqn:E; [|reflexivity].
  destruct Hs as (w & Hw & Hr).
  destruct (attempt_split P t rest caps E) as (w' & Hw' & Hm).
  rewrite Hw in Hw'. apply app_inv_tail in Hw'. subst w'.
  exfalso. exact (P_changes w caps Hm Hr).
Qed.

Lemma sync_no_new_match prev u u' :
  Sync (edit_ok false) prev u u' -> attempt P u' <> None -> attempt P u <> None.
Proof.
  intros Hs Ha. destruct (attempt P u') as [[rest' caps]|] eqn:E; [|contradiction].
  destruct (attempt_split P u' rest' caps E) as (w' & Hu' & Hm).
  pose proof (MatchesC_Matches _ _ _ _ Hm) as Hw.
  destruct (clean_prefix (edit_ok false) is_star (edit_ok_mark false) w'
              prev u u' rest' Hs Hu' (P_starfree w' Hw)) as (v & -> & _).
  apply attempt_complete. exact Hw.
Qed.

Lemma attempt_at_star c s : is_star c = true -> attempt P (c :: s) = None.
Proof.
  intros Hc. destruct (attempt P (c :: s)) as [[rest caps]|] eqn:E; [|reflexivity].
  destruct (attempt_split P _ rest caps E) as (w & Hw & Hm).
  pose proof (MatchesC_Matches _ _ _ _ Hm) as Hmw.
  pose proof (P_starfree w Hmw) as Hsf. pose proof (P_progressive w Hmw) as Hne.
  destruct w as [|x w]; [contradiction|].
  simpl in Hw. inversion Hw; subst x. inversion Hsf; subst. congruence.
Qed.

Lemma sync_keeps_settled prev u u' :
  Sync (edit_ok false) prev u u' -> settled_text P u -> settled_text P u'.
Proof.
  intros Hs Hu s' Hin. unfold selfmatch.
  destruct (sync_suffixes (edit_ok false) is_star (edit_ok_mark false) prev u u' Hs s' Hin)
    as [(p2 & u2 & Hu2 & Hs2) | (y & s'' & -> & Hy)].
  - destruct (attempt P s') as [[rest caps]|] eqn:E; [|exact I].
    exfalso. apply (sync_no_new_match p2 u2 s' Hs2); [congruence|].
    apply (settled_is_unmatched u Hu). assumption.
  - rewrite (attempt_at_star y s'' Hy). exact I.
Qed.
End NoNewMatch.

(** A pass whose replacement keeps a beginning [a] and an end [b] of the
    match and rewrites the middle rewrites a text as [Sync] says. *)
Lemma sync_of_run P (ok : option ascii -> list ascii -> list ascii -> list ascii -> Prop) :
  progressive P ->
  (forall prev w caps rest,
      MatchesC (p_ic P) (p_re P) w caps ->
      attempt P (w ++ rest) = Some (rest, caps) ->
      exists a X Y b,
        w = a ++ X ++ b /\ p_repl P w caps = a ++ Y ++ b /\
        ok (last_char a prev) X Y (b ++ rest)) ->
  forall s prev, Sync ok prev s (run P s).
Proof.
  intros Hp Hblock s. remember (List.length s) as n eqn:Hn. revert s Hn.
  induction n as [n IH] using lt_wf_ind. intros s Hn prev.
  destruct (run_cases P s Hp)
    as [[-> E] | [(c & s' & -> & Ea & E) | (w & rest & caps & -> & Hw & Ea & Hm & E)]].
  - rewrite E. constructor.
  - rewrite E. constructor. apply (IH (List.length s')); [simpl in Hn; lia | reflexivity].
  - rewrite E.
    destruct (Hblock prev w caps rest Hm Ea) as (a & X & Y & b & -> & -> & Hok).
    rewrite <- !app_assoc. apply Sync_copies. apply Sync_edit; [exact Hok|].
    apply Sync_copies. apply (IH (List.length rest)); [|reflexivity].
    rewrite Hn, !length_app.
    destruct a as [|? ?]; destruct X as [|? ?]; destruct b as [|? ?];
      try (exfalso; apply Hw; reflexivity); simpl; lia.
Qed.

(** A pass without matches of its own in its output: those that hold no
    star and are never replaced by themselves, when what the pass writes
    in place of a match cannot be entered by a match. *)
Section SelfSettled.
Variable P : pass.
Hypothesis P_progressive : progressive P.
Hypothesis P_starfree :
  forall w, Matches (p_ic P) (p_re P) w -> Forall (fun c => is_star c = false) w.
Hypothesis P_changes :
  forall w caps, MatchesC (p_ic P) (p_re P) w caps -> p_repl P w caps <> w.
Hypothesis P_sync : forall s prev, Sync (edit_ok false) prev s (run P s).
Hypothesis P_inside :
  forall w caps rest' r1 r2,
    MatchesC (p_ic P) (p_re P) w caps ->
    p_repl P w caps = r1 ++ r2 -> r2 <> [] ->
    attempt P (r2 ++ rest') = None.

Lemma run_is_settled : forall s, settled_text P (run P s).
Proof.
  intros s. remember (List.length s) as n eqn:Hn. revert s Hn.
  induction n as [n IH] using lt_wf_ind. intros s Hn t Ht.
  destruct (run_cases P s P_progressive)
    as [[-> E] | [(c & s' & -> & Ea & E) | (w & rest & caps & -> & Hw & Ea & Hm & E)]].
  - rewrite E in Ht. simpl in Ht. destruct Ht as [<-|[]].
    unfold selfmatch. rewrite <- E. fold (run P []). rewrite E.
    destruct (attempt P []) as [[rest caps]|] eqn:Ea; [|exact I].
    destruct (attempt_split P [] rest caps Ea) as (w & Hs & Hm).
    symmetry in Hs. apply app_eq_nil in Hs. destruct Hs as [-> _].
    exfalso. exact (P_progressive [] (MatchesC_Matches _ _ _ _ Hm) eq_refl).
  - rewrite E in Ht. simpl in Ht. destruct Ht as [<-|Ht].
    + unfold selfmatch.
      destruct (attempt P (c :: run P s')) as [[rest caps]|] eqn:E'; [|exact I].
      exfalso.
      apply (sync_no_new_match P P_starfree None (c :: s') (c :: run P s')).
      * rewrite <- E. apply P_sync.
      * congruence.
      * exact Ea.
    + apply (IH (List.length s')) with (s := s'); [simpl in Hn; lia | reflexivity | exact Ht].
  - rewrite E in Ht. apply suffixes_spec in Ht. destruct Ht as (pre & Ept).
    assert ((exists r1 r2, p_repl P w caps = r1 ++ r2 /\ r2 <> [] /\ t = r2 ++ run P rest)
            \/ In t (suffixes (run P rest))) as [(r1 & r2 & Hr & Hr2 & ->) | Hin].
    { clear -Ept. revert pre Ept. generalize (p_repl P w caps) as R.
      induction R as [|y R IHR]; intros pre E.
      - right. apply suffixes_spec. exists pre. exact E.
      - destruct pre as [|x pre].
        + left. exists [], (y :: R). simpl in E. subst t.
          repeat split; auto. discriminate.
        + simpl in E. inversion E; subst.
          destruct (IHR pre H1) as [(r1 & r2 & -> & Hr2 & ->) | Hin].
          * left. exists (x :: r1), r2. auto.
          * right. assumption. }
    + unfold selfmatch. rewrite (P_inside w caps (run P rest) r1 r2 Hm Hr Hr2). exact I.
    + apply (IH (List.length rest)) with (s := rest); [|reflexivity | exact Hin].
      rewrite Hn, length_app. destruct w; [contradiction | simpl; lia].
Qed.
End SelfSettled.

Lemma stars_suffix (r1 r2 : list ascii) :
  Forall (fun c => is_star c = true) (r1 ++ r2) -> r2 <> [] ->
  exists y r, r2 = y :: r /\ is_star y = true.
Proof.
  intros H Hne. apply Forall_app in H. destruct H as [_ H].
  destruct r2 as [|y r]; [contradiction|]. inversion H; subst. eauto.
Qed.

(** Passes that put a fixed run of stars in place of the whole match. *)
Section WholePass.
Variable P : pass.
Variable Y : list ascii.
Hypothesis P_progressive : progressive P.
Hypothesis P_starfree :
  forall w, Matches (p_ic P) (p_re P) w -> Forall (fun c => is_star c = false) w.
Hypothesis P_writes : forall w caps, p_repl P w caps = Y.
Hypothesis Y_stars : Y <> [] /\ Forall (fun c => is_star c = true) Y.
Hypothesis P_plain :
  forall w, Matches (p_ic P) (p_re P) w -> exists f t, w = f :: t /\ plain_char f = true.

Lemma whole_changes w caps :
  MatchesC (p_ic P) (p_re P) w caps -> p_repl P w caps <> w.
Proof.
  intros Hm E. rewrite P_writes in E. subst w.
  pose proof (P_starfree Y (MatchesC_Matches _ _ _ _ Hm)) as Hs.
  destruct Y_stars as [Hne HY]. destruct Y as [|y Y']; [contradiction|].
  inversion Hs; inversion HY; subst. congruence.
Qed.

Lemma whole_sync s prev : Sync (edit_ok false) prev s (run P s).
Proof.
  apply sync_of_run; [exact P_progressive|].
  intros prev0 w caps rest Hm _.
  exists [], w, Y, []. rewrite P_writes, !app_nil_r. simpl.
  repeat split; try tauto.
  right. destruct (P_plain w (MatchesC_Matches _ _ _ _ Hm)) as (f & t & -> & Hf).
  exists f, (t ++ rest). auto.
Qed.

Lemma whole_inside w caps rest' r1 r2 :
  MatchesC (p_ic P) (p_re P) w caps ->
  p_repl P w caps = r1 ++ r2 -> r2 <> [] ->
  attempt P (r2 ++ rest') = None.
Proof.
  intros _ E Hne. rewrite P_writes in E.
  destruct Y_stars as [_ HY]. rewrite E in HY.
  destruct (stars_suffix r1 r2 HY Hne) as (y & r & -> & Hy).
  simpl. apply attempt_at_star; assumption.
Qed.

Lemma whole_settles s : settled_text P (run P s).
Proof.
  apply run_is_settled.
  - exact P_progressive.
  - exact P_starfree.
  - exact whole_sync.
  - exact whole_inside.
Qed.
End WholePass.

(** *** The long-hex pass *)

Lemma hex_not_star c :
  class_test true (Class false [CRange "a" "f"; CRange "0" "9"]) c = true ->
  is_star c = false.
Proof. each_ascii c. Qed.

Lemma hex_plain c :
  class_test true (Class false [CRange "a" "f"; CRange "0" "9"]) c = true ->
  plain_char c = true.
Proof. each_ascii c. Qed.

Lemma hex_progressive : progressive hex_pass.
Proof. intros w (Hw & Hlen & _) ->. simpl in Hlen. lia. Qed.

Lemma hex_starfree w :
  Matches true hex_re w -> Forall (fun c => is_star c = false) w.
Proof.
  intros (Hw & _). eapply Forall_impl; [|exact Hw]. exact hex_not_star.
Qed.

Lemma hex_plain_start w :
  Matches true hex_re w -> exists f t, w = f :: t /\ plain_char f = true.
Proof.
  intros (Hw & Hlen & _). destruct w as [|f t]; [simpl in Hlen; lia|].
  inversion Hw; subst. exists f, t. split; [reflexivity | apply hex_plain; assumption].
Qed.

Lemma stars3_stars : stars3 <> [] /\ Forall (fun c => is_star c = true) stars3.
Proof. split; [discriminate | repeat constructor]. Qed.

Lemma stars6_stars : stars6 <> [] /\ Forall (fun c => is_star c = true) stars6.
Proof. split; [discriminate | repeat constructor]. Qed.

(** *** The long-base64 pass *)

Lemma base64_not_star c :
  class_test false (Class false (alnum ++ [CChar "+"; CChar "/"])) c = true ->
  is_star c = false.
Proof. each_ascii c. Qed.

Lemma base64_plain c :
  class_test false (Class false (alnum ++ [CChar "+"; CChar "/"])) c = true ->
  plain_char c = true.
Proof. each_ascii c. Qed.

Lemma equals_not_star c : class_test false (ch "=") c = true -> is_star c = false.
Proof. each_ascii c. Qed.

Lemma base64_progressive : progressive base64_pass.
Proof.
  intros w (w1 & w2 & -> & (Hw & Hlen & _) & _) E.
  apply app_eq_nil in E. destruct E as [-> _]. simpl in Hlen. lia.
Qed.

Lemma base64_starfree w :
  Matches false base64_re w -> Forall (fun c => is_star c = false) w.
Proof.
  intros (w1 & w2 & -> & (Hw1 & _) & (Hw2 & _)). apply Forall_app. split.
  - eapply Forall_impl; [|exact Hw1]. exact base64_not_star.
  - eapply Forall_impl; [|exact Hw2]. exact equals_not_star.
Qed.

Lemma base64_plain_start w :
  Matches false base64_re w -> exists f t, w = f :: t /\ plain_char f = true.
Proof.
  intros (w1 & w2 & -> & (Hw & Hlen & _) & _).
  destruct w1 as [|f t]; [simpl in Hlen; lia|].
  inversion Hw; subst. exists f, (t ++ w2).
  split; [reflexivity | apply base64_plain; assumption].
Qed.

(** ** Literals and groups *)

Lemma case_pair c : c = toUpper c \/ c = toLower (toUpper c).
Proof. each_ascii c. Qed.

Lemma canon_cases ic a c :
  eqb_canon ic a c = true -> c = toUpper a \/ c = toLower (toUpper a).
Proof.
  unfold eqb_canon, canonicalize. intros H. apply Ascii.eqb_eq in H.
  destruct ic.
  - rewrite H. apply case_pair.
  - subst c. apply case_pair.
Qed.

(** Every character a literal can match satisfies [p]. *)
Definition lit_all (p : ascii -> bool) (l : string) : bool :=
  forallb (fun a => (p (toUpper a) && p (toLower (toUpper a)))%bool)
          (list_ascii_of_string l).

Lemma lit_all_spec ic p l w :
  lit_all p l = true ->
  Forall2 (fun a c => eqb_canon ic a c = true) (list_ascii_of_string l) w ->
  Forall (fun c => p c = true) w.
Proof.
  unfold lit_all. generalize (list_ascii_of_string l) as la.
  intros la Hall H. induction H as [|a c la w Hc Hw IH]; [constructor|].
  simpl in Hall. apply andb_true_iff in Hall. destruct Hall as [Ha Hall].
  apply andb_true_iff in Ha. destruct Ha as [Hu Hl].
  constructor; [|exact (IH Hall)].
  destruct (canon_cases ic a c Hc) as [->| ->]; assumption.
Qed.

Lemma lit_length ic l w :
  Forall2 (fun a c => eqb_canon ic a c = true) (list_ascii_of_string l) w ->
  List.length w = String.length l.
Proof.
  intros H. apply Forall2_length in H. rewrite <- H.
  clear. induction l as [|a l IH]; simpl; congruence.
Qed.

Fixpoint groupfree (r : regex) : bool :=
  match r with
  | Cat r1 r2 | Alt r1 r2 => (groupfree r1 && groupfree r2)%bool
  | Group _ => false
  | _ => true
  end.

Lemma MatchesC_groupfree ic r : groupfree r = true ->
  forall w caps, MatchesC ic r w caps <-> (Matches ic r w /\ caps = []).
Proof.
  induction r as [l | c | c min max | r1 IH1 r2 IH2 | r1 IH1 r2 IH2 | r1 IH1];
    simpl; intros Hg w caps; try tauto; try discriminate Hg.
  - apply andb_true_iff in Hg. destruct Hg as [H1 H2]. split.
    + intros (w1 & w2 & c1 & c2 & -> & -> & A & B).
      apply (IH1 H1) in A. apply (IH2 H2) in B.
      destruct A as [A ->]. destruct B as [B ->]. split; [|reflexivity].
      exists w1, w2. auto.
    + intros [(w1 & w2 & -> & A & B) ->].
      exists w1, w2, [], []. repeat split; auto.
      * apply (IH1 H1). auto.
      * apply (IH2 H2). auto.
  - apply andb_true_iff in Hg. destruct Hg as [H1 H2]. split.
    + intros [A|B].
      * apply (IH1 H1) in A. tauto.
      * apply (IH2 H2) in B. tauto.
    + intros [[A|B] ->].
      * left. apply (IH1 H1). auto.
      * right. apply (IH2 H2). auto.
Qed.

(** A word without stars that starts a text which goes on from [x] with a
    star lies within [x]. *)
Lemma starfree_prefix (w x : list ascii) : forall y rest c,
  w ++ rest = x ++ c :: y -> is_star c = true ->
  Forall (fun c => is_star c = false) w ->
  exists z, x = w ++ z.
Proof.
  revert x. induction w as [|a w IH]; intros x y rest c E Hc Hw.
  - exists x. reflexivity.
  - inversion Hw as [|? ? Ha Hw']; subst. destruct x as [|b x].
    + simpl in E. injection E as E1 E2. subst. congruence.
    + simpl in E. injection E as E1 E2. subst b.
      destruct (IH x y rest c E2 Hc Hw') as (z & ->). exists z. reflexivity.
Qed.

Lemma two_groups ic r1 r2 w caps :
  groupfree r1 = true -> groupfree r2 = true ->
  MatchesC ic (Cat (Group r1) (Group r2)) w caps ->
  exists w1 w2, w = w1 ++ w2 /\ caps = [w1; w2] /\
                Matches ic r1 w1 /\ Matches ic r2 w2.
Proof.
  intros G1 G2 (w1 & w2 & c1 & c2 & -> & -> & (c1' & -> & H1) & (c2' & -> & H2)).
  apply (MatchesC_groupfree ic r1 G1) in H1. destruct H1 as [H1 ->].
  apply (MatchesC_groupfree ic r2 G2) in H2. destruct H2 as [H2 ->].
  exists w1, w2. auto.
Qed.

Lemma group_then ic r1 r2 w caps :
  groupfree r1 = true -> groupfree r2 = true ->
  MatchesC ic (Cat (Group r1) r2) w caps ->
  exists w1 w2, w = w1 ++ w2 /\ caps = [w1] /\
                Matches ic r1 w1 /\ Matches ic r2 w2.
Proof.
  intros G1 G2 (w1 & w2 & c1 & c2 & -> & -> & (c1' & -> & H1) & H2).
  apply (MatchesC_groupfree ic r1 G1) in H1. destruct H1 as [H1 ->].
  apply (MatchesC_groupfree ic r2 G2) in H2. destruct H2 as [H2 ->].
  exists w1, w2. auto.
Qed.

Lemma group_mid_group ic r1 r2 r3 w caps :
  groupfree r1 = true -> groupfree r2 = true -> groupfree r3 = true ->
  MatchesC ic (Cat (Group r1) (Cat r2 (Group r3))) w caps ->
  exists w1 w2 w3, w = w1 ++ w2 ++ w3 /\ caps = [w1; w3] /\
                   Matches ic r1 w1 /\ Matches ic r2 w2 /\ Matches ic r3 w3.
Proof.
  intros G1 G2 G3
    (w1 & w23 & c1 & c23 & -> & -> & (c1' & -> & H1) &
     (w2 & w3 & c2 & c3 & -> & -> & H2 & (c3' & -> & H3))).
  apply (MatchesC_groupfree ic r1 G1) in H1. destruct H1 as [H1 ->].
  apply (MatchesC_groupfree ic r2 G2) in H2. destruct H2 as [H2 ->].
  apply (MatchesC_groupfree ic r3 G3) in H3. destruct H3 as [H3 ->].
  exists w1, w2, w3. auto.
Qed.

(** *** The labelled-code pass *)

Definition code_head : regex :=
  Cat code_labels
      (Cat (Star space) (Plus (Class false [CChar ":"; CChar "="; CSpace]))).
Definition code_digits : regex := Rep digit 4 (Some 8).

(** Neither digit nor star. *)
Definition quiet (c : ascii) : bool := (negb (isDigit c) && negb (is_star c))%bool.

Lemma space_quiet ic c : class_test ic space c = true -> quiet c = true.
Proof. destruct ic; each_ascii c. Qed.

Lemma sep_quiet c :
  class_test true (Class false [CChar ":"; CChar "="; CSpace]) c = true ->
  quiet c = true.
Proof. each_ascii c. Qed.

Lemma dash_space_quiet c :
  class_test true (Class false [CChar "-"; CSpace]) c = true -> quiet c = true.
Proof. each_ascii c. Qed.

Lemma digit_facts c :
  class_test true digit c = true ->
  isDigit c = true /\ is_star c = false /\ plain_char c = true.
Proof. each_ascii c. Qed.

Lemma quiet_not_star c : quiet c = true -> is_star c = false.
Proof. each_ascii c. Qed.

Lemma quiet_not_digit c : quiet c = true -> isDigit c = false.
Proof. each_ascii c. Qed.

(** The label with its separators: no star, and no digit after the first
    character. *)
Lemma code_head_shape p1 :
  Matches true code_head p1 ->
  exists x t, p1 = x :: t /\ is_star x = false /\ Forall (fun c => quiet c = true) t.
Proof.
  intros (wl & wr & -> & Hl & (w1 & w2 & -> & (H1 & _) & (H2 & _))).
  assert (Forall (fun c => quiet c = true) (w1 ++ w2)) as Hr.
  { apply Forall_app. split.
    - eapply Forall_impl; [|exact H1]. apply space_quiet.
    - eapply Forall_impl; [|exact H2]. apply sep_quiet. }
  assert (exists x t, wl = x :: t /\ is_star x = false /\
                      Forall (fun c => quiet c = true) t) as (x & t & -> & Hx & Ht).
  { destruct Hl as [Hl | [Hl | [Hl | Hl]]].
    - pose proof (lit_all_spec true quiet "code" wl eq_refl Hl) as Hq.
      destruct wl as [|x t]; [inversion Hl|]. inversion Hq; subst.
      exists x, t. auto using quiet_not_star.
    - simpl in Hl. inversion Hl as [|a x la t Hx Ht]; subst.
      exists x, t. split; [reflexivity|]. split.
      + destruct (canon_cases true _ _ Hx) as [->| ->]; reflexivity.
      + exact (lit_all_spec true quiet "fa" t eq_refl Ht).
    - destruct Hl as (wa & wb & -> & Ha & (wo & wf & -> & (Ho & _) & Hf)).
      pose proof (lit_all_spec true quiet "two" wa eq_refl Ha) as Hqa.
      pose proof (lit_all_spec true quiet "factor" wf eq_refl Hf) as Hqf.
      destruct wa as [|x t]; [inversion Ha|]. inversion Hqa; subst.
      exists x, (t ++ wo ++ wf). split; [reflexivity|].
      split; [auto using quiet_not_star|].
      apply Forall_app. split; [assumption|]. apply Forall_app. split; [|assumption].
      eapply Forall_impl; [|exact Ho]. apply dash_space_quiet.
    - pose proof (lit_all_spec true quiet "otp" wl eq_refl Hl) as Hq.
      destruct wl as [|x t]; [inversion Hl|]. inversion Hq; subst.
      exists x, t. auto using quiet_not_star. }
  exists x, (t ++ w1 ++ w2). split; [reflexivity|]. split; [assumption|].
  apply Forall_app. auto.
Qed.

Lemma code_digits_shape D :
  Matches true code_digits D ->
  exists d D', D = d :: D' /\ isDigit d = true /\ plain_char d = true /\
               Forall (fun c => is_star c = false) D.
Proof.
  intros (HD & Hlen & _). destruct D as [|d D']; [simpl in Hlen; lia|].
  exists d, D'. inversion HD as [|? ? Hd HD']; subst.
  destruct (digit_facts d Hd) as (A & B & C). repeat split; auto.
  eapply Forall_impl; [|exact HD]. intros c Hc. apply (digit_facts c Hc).
Qed.

Lemma code_match_inv w caps :
  MatchesC true code_re w caps ->
  exists p1 D, w = p1 ++ D /\ caps = [p1; D] /\
               Matches true code_head p1 /\ Matches true code_digits D.
Proof. apply (two_groups true code_head code_digits); reflexivity. Qed.

Lemma code_Matches_inv w :
  Matches true code_re w ->
  exists p1 D, w = p1 ++ D /\ Matches true code_head p1 /\ Matches true code_digits D.
Proof. intros (p1 & D & -> & H1 & H2). exists p1, D. auto. Qed.

Lemma code_progressive : progressive code_pass.
Proof.
  intros w Hw E. destruct (code_Matches_inv w Hw) as (p1 & D & -> & _ & HD).
  apply app_eq_nil in E. destruct E as [_ ->].
  destruct (code_digits_shape [] HD) as (d & D' & E & _). discriminate E.
Qed.

Lemma code_starfree w :
  Matches true code_re w -> Forall (fun c => is_star c = false) w.
Proof.
  intros Hw. destruct (code_Matches_inv w Hw) as (p1 & D & -> & H1 & HD).
  destruct (code_head_shape p1 H1) as (x & t & -> & Hx & Ht).
  destruct (code_digits_shape D HD) as (_ & _ & _ & _ & _ & HsD).
  apply Forall_app. split; [|assumption].
  constructor; [assumption|].
  eapply Forall_impl; [|exact Ht]. apply quiet_not_star.
Qed.

Lemma code_changes w caps :
  MatchesC true code_re w caps -> p_repl code_pass w caps <> w.
Proof.
  intros Hm E. destruct (code_match_inv w caps Hm) as (p1 & D & -> & -> & _ & HD).
  simpl in E. apply app_inv_head in E.
  destruct (code_digits_shape D HD) as (d & D' & -> & _ & _ & Hs).
  inversion Hs as [|? ? Hd _]; subst. injection E as E1 _. subst d. discriminate Hd.
Qed.

Lemma code_sync s prev : Sync (edit_ok false) prev s (run code_pass s).
Proof.
  apply sync_of_run; [exact code_progressive|].
  intros prev0 w caps rest Hm _.
  destruct (code_match_inv w caps Hm) as (p1 & D & -> & -> & _ & HD).
  exists p1, D, stars6, []. rewrite !app_nil_r. simpl p_repl. unfold cap. simpl nth.
  repeat split; try apply stars6_stars.
  right. destruct (code_digits_shape D HD) as (d & D' & -> & _ & Hp & _).
  exists d, (D' ++ rest). auto.
Qed.

Lemma code_inside w caps rest' r1 r2 :
  MatchesC true code_re w caps ->
  p_repl code_pass w caps = r1 ++ r2 -> r2 <> [] ->
  attempt code_pass (r2 ++ rest') = None.
Proof.
  intros Hm E Hne.
  destruct (code_match_inv w caps Hm) as (p1 & D & -> & -> & H1 & HD).
  simpl in E. unfold cap in E. simpl nth in E.
  destruct (attempt code_pass (r2 ++ rest')) as [[rest2 caps2]|] eqn:Ea; [|reflexivity].
  exfalso.
  destruct (attempt_split code_pass _ rest2 caps2 Ea) as (w2 & Hw2 & Hm2).
  destruct (code_match_inv w2 caps2 Hm2) as (q1 & D2 & -> & _ & Hq1 & HD2).
  pose proof (code_starfree _ (MatchesC_Matches _ _ _ _ Hm2)) as Hsf.
  destruct (code_head_shape p1 H1) as (x & t & -> & Hx & Ht).
  destruct (code_head_shape q1 Hq1) as (x2 & t2 & -> & _ & _).
  destruct (code_digits_shape D2 HD2) as (d & D2' & -> & Hd & _ & _).
  (* r2 is an end of p1 followed by the stars, or an end of the stars *)
  assert ((exists u, r2 = u ++ stars6 /\ exists v, x :: t = v ++ u)
          \/ (exists y r, r2 = y :: r /\ is_star y = true)) as [Hcase|(y & r & -> & Hy)].
  { clear -E Hne. revert r1 E.
    generalize (x :: t) as p. induction p as [|a p IH]; intros r1 E.
    - right. simpl in E. apply (stars_suffix r1 r2); [|assumption].
      rewrite <- E. repeat constructor.
    - destruct r1 as [|b r1].
      + left. exists (a :: p). simpl in E. split; [symmetry; exact E|].
        exists []. reflexivity.
      + simpl in E. injection E as E1 E2. subst b.
        destruct (IH r1 E2) as [(u & Hu & v & Hv) | Hr]; [|right; exact Hr].
        left. exists u. split; [assumption|]. exists (a :: v). simpl. congruence. }
  - destruct Hcase as (u & -> & v & Hv).
    rewrite <- !app_assoc in Hw2. simpl in Hw2.
    assert (((x2 :: t2) ++ d :: D2') ++ rest2
            = u ++ "*"%char :: (list_ascii_of_string "*****" ++ rest')) as Hw3.
    { rewrite <- app_assoc. simpl. symmetry. exact Hw2. }
    destruct (starfree_prefix _ _ _ _ _ Hw3 eq_refl Hsf) as (z & Hz).
    (* the digit [d] lies in [t] *)
    assert (In d t) as Hin.
    { assert (In d (tl (x :: t))) as Hin; [|exact Hin].
      rewrite Hv, Hz. simpl app.
      destruct v as [|a v]; simpl.
      - apply in_or_app. left. apply in_or_app. right. left. reflexivity.
      - apply in_or_app. right. right. apply in_or_app. left.
        apply in_or_app. right. left. reflexivity. }
    rewrite Forall_forall in Ht. specialize (Ht d Hin).
    apply quiet_not_digit in Ht. congruence.
  - simpl in Hw2. inversion Hsf as [|? ? Hx2 _]; subst.
    simpl in Hw2. injection Hw2 as E1 _. subst. congruence.
Qed.

Lemma code_settles s : settled_text code_pass (run code_pass s).
Proof.
  apply run_is_settled.
  - exact code_progressive.
  - exact code_starfree.
  - exact code_sync.
  - exact code_inside.
Qed.

(* ------------------------------------------------------------------ *)
(** ** Greedy repetition *)

Fixpoint take_while (p : ascii -> bool) (s : list ascii) : list ascii :=
  match s with
  | c :: s' => if p c then c :: take_while p s' else []
  | [] => []
  end.

Fixpoint drop_while (p : ascii -> bool) (s : list ascii) : list ascii :=
  match s with
  | c :: s' => if p c then drop_while p s' else s
  | [] => []
  end.

(** [s] is empty or starts with a character outside [p]. *)
Definition stops (p : ascii -> bool) (s : list ascii) : Prop :=
  match s with
  | [] => True
  | c :: _ => p c = false
  end.

Lemma take_drop p s : s = take_while p s ++ drop_while p s.
Proof.
  induction s as [|c s IH]; simpl; [reflexivity|].
  destruct (p c); simpl; congruence.
Qed.

Lemma take_while_all p s : Forall (fun c => p c = true) (take_while p s).
Proof.
  induction s as [|c s IH]; simpl; [constructor|].
  destruct (p c) eqn:Hc; constructor; assumption.
Qed.

Lemma drop_while_stops p s : stops p (drop_while p s).
Proof.
  induction s as [|c s IH]; simpl; [exact I|].
  destruct (p c) eqn:Hc; [exact IH | exact Hc].
Qed.

(** A run of [p] followed by a text that stops [p] is cut in one way only. *)
Lemma run_unique p : forall w1 w2 r1 r2,
  Forall (fun c => p c = true) w1 -> Forall (fun c => p c = true) w2 ->
  stops p r1 -> stops p r2 -> w1 ++ r1 = w2 ++ r2 -> w1 = w2 /\ r1 = r2.
Proof.
  induction w1 as [|a w1 IH]; intros w2 r1 r2 H1 H2 S1 S2 E.
  - destruct w2 as [|b w2]; [simpl in E; auto|].
    simpl in E. subst r1. inversion H2; subst. simpl in S1. congruence.
  - inversion H1; subst. destruct w2 as [|b w2].
    + simpl in E. subst r2. simpl in S2. congruence.
    + simpl in E. injection E as E1 E2. subst b. inversion H2; subst.
      destruct (IH w2 r1 r2) as [-> ->]; auto.
Qed.

Section Greedy.
Variable A : Type.
Variable p : ascii -> bool.

(** With a continuation that always accepts, the repetition takes the
    whole run. *)
Lemma match_rep_total (k : list ascii -> option A) :
  (forall s', k s' <> None) ->
  forall s min,
    match_rep p min None s k =
    if min <=? List.length (take_while p s) then k (drop_while p s) else None.
Proof.
  intros Hk. induction s as [|c s IH]; intros min.
  - simpl. destruct min; reflexivity.
  - cbn [match_rep may_take less take_while drop_while]. simpl andb.
    destruct (p c) eqn:Hc.
    + rewrite IH. cbn [List.length].
      destruct min as [|min]; simpl pred.
      * simpl. destruct (k (drop_while p s)) eqn:Ek; [reflexivity|].
        exfalso. exact (Hk _ Ek).
      * change (S min <=? S (List.length (take_while p s)))
          with (min <=? List.length (take_while p s)).
        destruct (min <=? List.length (take_while p s)); [|reflexivity].
        destruct (k (drop_while p s)) eqn:Ek; [reflexivity|].
        exfalso. exact (Hk _ Ek).
    + simpl. destruct min; reflexivity.
Qed.

(** If the repetition (with no minimum) fails, the continuation has failed
    after every prefix of the run. *)
Lemma match_rep_none (k : list ascii -> option A) : forall s,
  match_rep p 0 None s k = None ->
  forall u v, s = u ++ v -> Forall (fun c => p c = true) u -> k v = None.
Proof.
  induction s as [|c s IH]; intros E u v Hs Hu.
  - symmetry in Hs. apply app_eq_nil in Hs. destruct Hs as [-> ->]. exact E.
  - cbn [match_rep may_take less] in E. simpl andb in E.
    destruct u as [|a u].
    + simpl in Hs. subst v.
      destruct (p c); [|exact E].
      destruct (match_rep p (pred 0) None s k); [discriminate E | exact E].
    + simpl in Hs. injection Hs as E1 E2. subst a.
      inversion Hu as [|? ? Hc Hu']; subst.
      rewrite Hc in E. simpl pred in E.
      destruct (match_rep p 0 None (u ++ v) k) eqn:Er; [discriminate E|].
      first [exact (IH Er u v eq_refl Hu') | exact (IH eq_refl u v eq_refl Hu')].
Qed.

(** What the repetition settles on: the longest prefix of the run after
    which the continuation accepts. *)
Lemma match_rep_choice (k : list ascii -> option A) : forall s min a,
  match_rep p min None s k = Some a ->
  exists w1 r,
    s = w1 ++ r /\ Forall (fun c => p c = true) w1 /\ min <= List.length w1 /\
    k r = Some a /\
    forall u v, r = u ++ v -> u <> [] -> Forall (fun c => p c = true) u -> k v = None.
Proof.
  induction s as [|c s IH]; intros min a E.
  - simpl in E. destruct min; [|discriminate E].
    exists [], []. repeat split; auto.
    intros u v Hs Hne _. symmetry in Hs. apply app_eq_nil in Hs.
    destruct Hs as [-> _]. contradiction.
  - cbn [match_rep may_take less] in E. simpl andb in E.
    assert (forall b, match min with 0 => k (c :: s) | S _ => None end = Some b ->
                      match_rep p 0 None s k = None \/ p c = false ->
       exists w1 r,
         c :: s = w1 ++ r /\ Forall (fun c => p c = true) w1 /\ min <= List.length w1 /\
         k r = Some b /\
         forall u v, r = u ++ v -> u <> [] -> Forall (fun c => p c = true) u -> k v = None)
      as Hstop.
    { intros b Eb Hfail. destruct min; [|discriminate Eb].
      exists [], (c :: s). repeat split; auto.
      intros u v Hs Hne Hu. destruct u as [|x u]; [contradiction|].
      simpl in Hs. injection Hs as E1 E2. subst x.
      inversion Hu as [|? ? Hc' Hu']; subst.
      destruct Hfail as [Hn|Hc]; [|congruence].
      exact (match_rep_none k _ Hn u v eq_refl Hu'). }
    destruct (p c) eqn:Hc; [|apply Hstop; auto].
    destruct (match_rep p (pred min) None s k) as [b|] eqn:Er.
    + inversion E; subst b.
      destruct (IH _ _ Er) as (w1 & r & -> & Hw & Hmin & Hk & Hlater).
      exists (c :: w1), r. repeat split; auto. simpl. lia.
    + apply Hstop; [exact E|]. left.
      destruct min; [exact Er | discriminate E].
Qed.

(** The other way round. *)
Lemma match_rep_settles (k : list ascii -> option A) a : forall w1 r min,
  Forall (fun c => p c = true) w1 -> min <= List.length w1 ->
  k r = Some a ->
  (forall u v, r = u ++ v -> u <> [] -> Forall (fun c => p c = true) u -> k v = None) ->
  match_rep p min None (w1 ++ r) k = Some a.
Proof.
  assert (forall s, (forall u v, s = u ++ v -> Forall (fun c => p c = true) u -> k v = None) ->
                    forall min, match_rep p min None s k = None) as Hnone.
  { induction s as [|c s IH]; intros Hs min.
    - simpl. destruct min; [|reflexivity]. exact (Hs [] [] eq_refl (Forall_nil _)).
    - cbn [match_rep may_take less]. simpl andb.
      assert (match min with 0 => k (c :: s) | S _ => None end = None) as Hstop.
      { destruct min; [|reflexivity]. exact (Hs [] (c :: s) eq_refl (Forall_nil _)). }
      destruct (p c) eqn:Hc; [|exact Hstop].
      rewrite IH; [exact Hstop|].
      intros u v E Hu. apply (Hs (c :: u) v); [simpl; congruence|].
      constructor; assumption. }
  induction w1 as [|c w1 IH]; intros r min Hw Hmin Hk Hlater.
  - simpl in Hmin. assert (min = 0) as -> by lia. simpl app.
    destruct r as [|c r]; [simpl; exact Hk|].
    cbn [match_rep may_take less]. simpl andb.
    destruct (p c) eqn:Hc; [|exact Hk].
    rewrite Hnone; [exact Hk|].
    intros u v E Hu. apply (Hlater (c :: u) v); [simpl; congruence | discriminate|].
    constructor; assumption.
  - inversion Hw; subst. simpl app.
    cbn [match_rep may_take less]. simpl andb. rewrite H1.
    rewrite (IH r (pred min)); auto. simpl in Hmin. lia.
Qed.
End Greedy.

(** The class of the unbounded repetition a pattern ends with, if it ends
    with one. *)
Fixpoint last_rep (r : regex) : option cclass :=
  match r with
  | Rep c _ None => Some c
  | Cat _ r2 => last_rep r2
  | Group r1 => last_rep r1
  | _ => None
  end.

(** A match of such a pattern, when nothing follows the pattern, ends where
    the last repetition cannot go on. *)
Lemma rmatch_last_maximal (A : Type) ic : forall r c,
  last_rep r = Some c ->
  forall s caps (k : Cont A) a,
    (forall s' caps', k s' caps' <> None) ->
    rmatch ic r s caps k = Some a ->
    exists rest caps', k rest caps' = Some a /\ stops (class_test ic c) rest.
Proof.
  induction r as [l | c | c min max | r1 IHr1 r2 IHr2 | r1 IHr1 r2 IHr2 | r IHr];
    intros c0 Hl s caps k a Hk E; simpl in Hl; try discriminate Hl.
  - destruct max; [discriminate Hl|]. injection Hl as ->.
    cbn [rmatch] in E.
    rewrite (match_rep_total A (class_test ic c0) (fun s' => k s' caps)) in E.
    + destruct (_ <=? _); [|discriminate E].
      exists (drop_while (class_test ic c0) s), caps. split; [exact E|].
      apply drop_while_stops.
    + intros s'. apply Hk.
  - cbn [rmatch] in E.
    destruct (rmatch_sound_caps A ic r1 s caps _ a E) as (w & rest & caps1 & _ & _ & E2).
    exact (IHr2 c0 Hl rest _ k a Hk E2).
  - cbn [rmatch] in E.
    assert (forall s' caps',
              k s' (caps' ++ [firstn (List.length s - List.length s') s]) <> None) as Hk'.
    { intros s' caps'. apply Hk. }
    destruct (IHr c0 Hl s caps _ a Hk' E) as (rest & caps' & E2 & Hs).
    eexists _, _. split; [exact E2 | exact Hs].
Qed.

(** *** The long-hex and long-base64 passes, summed up *)

Lemma hex_sync s prev : Sync (edit_ok false) prev s (run hex_pass s).
Proof.
  apply (whole_sync hex_pass stars3).
  - exact hex_progressive.
  - reflexivity.
  - exact stars3_stars.
  - exact hex_plain_start.
Qed.

Lemma hex_changes w caps : MatchesC true hex_re w caps -> p_repl hex_pass w caps <> w.
Proof.
  apply (whole_changes hex_pass stars3).
  - exact hex_starfree.
  - reflexivity.
  - exact stars3_stars.
Qed.

Lemma hex_settles s : settled_text hex_pass (run hex_pass s).
Proof.
  apply (whole_settles hex_pass stars3).
  - exact hex_progressive.
  - exact hex_starfree.
  - reflexivity.
  - exact stars3_stars.
  - exact hex_plain_start.
Qed.

Lemma base64_sync s prev : Sync (edit_ok false) prev s (run base64_pass s).
Proof.
  apply (whole_sync base64_pass stars3).
  - exact base64_progressive.
  - reflexivity.
  - exact stars3_stars.
  - exact base64_plain_start.
Qed.

Lemma base64_changes w caps :
  MatchesC false base64_re w caps -> p_repl base64_pass w caps <> w.
Proof.
  apply (whole_changes base64_pass stars3).
  - exact base64_starfree.
  - reflexivity.
  - exact stars3_stars.
Qed.

Lemma base64_settles s : settled_text base64_pass (run base64_pass s).
Proof.
  apply (whole_settles base64_pass stars3).
  - exact base64_progressive.
  - exact base64_starfree.
  - reflexivity.
  - exact stars3_stars.
  - exact base64_plain_start.
Qed.

(* ------------------------------------------------------------------ *)
(** ** Following a rewriting past characters it cannot touch *)

Lemma star_not_solid : ~ solid (Some "*"%char).
Proof. intros (c & E & H). inversion E; subst. vm_compute in H. discriminate H. Qed.

Lemma star_not_plain : plain_char "*" = false.
Proof. reflexivity. Qed.

Lemma sync_head_cases with_eq prev v c0 t' :
  ~ solid prev ->
  Sync (edit_ok with_eq) prev v (c0 :: t') ->
  (exists v1, v = c0 :: v1 /\ Sync (edit_ok with_eq) (Some c0) v1 t') \/
  (exists f t, v = f :: t /\ plain_char f = true).
Proof.
  intros Hns H. remember (c0 :: t') as s' eqn:Es'.
  destruct H as [p | p c u u' Hs | p X Y u u' Hok Hs].
  - discriminate Es'.
  - injection Es' as -> ->. left. exists u. auto.
  - destruct Hok as (_ & _ & [Hsolid | (f & t & E & Hf)]); [contradiction|].
    right. exists f, t. auto.
Qed.

Lemma sync_head_kept with_eq prev c u v' :
  ~ solid prev -> plain_char c = false ->
  Sync (edit_ok with_eq) prev (c :: u) v' ->
  exists u', v' = c :: u' /\ Sync (edit_ok with_eq) (Some c) u u'.
Proof.
  intros Hns Hc H. remember (c :: u) as s eqn:Es.
  destruct H as [p | p c1 u1 u1' Hs | p X Y u1 u1' Hok Hs].
  - discriminate Es.
  - injection Es as -> ->. exists u1'. auto.
  - destruct Hok as (_ & _ & [Hsolid | (f & t & E & Hf)]); [contradiction|].
    rewrite E in Es. injection Es as -> ->. congruence.
Qed.

Lemma sync_nil_kept with_eq prev v' :
  ~ solid prev -> Sync (edit_ok with_eq) prev [] v' -> v' = [].
Proof.
  intros Hns H. remember (@nil ascii) as s eqn:Es.
  destruct H as [p | p c1 u1 u1' Hs | p X Y u1 u1' Hok Hs].
  - reflexivity.
  - discriminate Es.
  - destruct Hok as (_ & _ & [Hsolid | (f & t & E & Hf)]); [contradiction|].
    rewrite E in Es. discriminate Es.
Qed.

(** Three stars and what follows them, when that cannot be part of a
    value, come through a rewriting as they are. *)
Lemma sync_stars_kept with_eq cls rest v' :
  (forall c, plain_char c = true -> cls c = true) ->
  stops cls rest ->
  Sync (edit_ok with_eq) (Some "*"%char) ("*"%char :: "*"%char :: rest) v' ->
  exists v3, v' = "*"%char :: "*"%char :: v3 /\ stops cls v3.
Proof.
  intros Hplain Hrest H.
  destruct (sync_head_kept _ _ _ _ _ star_not_solid star_not_plain H) as (v1 & -> & H1).
  destruct (sync_head_kept _ _ _ _ _ star_not_solid star_not_plain H1) as (v2 & -> & H2).
  exists v2. split; [reflexivity|].
  destruct rest as [|b r].
  - rewrite (sync_nil_kept _ _ _ star_not_solid H2). exact I.
  - simpl in Hrest.
    assert (plain_char b = false) as Hb.
    { destruct (plain_char b) eqn:Eb; [|reflexivity].
      rewrite (Hplain b Eb) in Hrest. discriminate Hrest. }
    destruct (sync_head_kept _ _ _ _ _ star_not_solid Hb H2) as (v3 & -> & _).
    exact Hrest.
Qed.

(** Passes whose matches are a head followed by a run of characters of a
    class that holds the star and all plain characters: such a pass, once
    settled, stays settled when later passes rewrite the text. *)
Section Guarded.
Variable P : pass.
Variable with_eq : bool.
Variable Head : list ascii -> Prop.
Variable cls : ascii -> bool.

Definition selfish (h : list ascii) : Prop :=
  forall w caps, MatchesC (p_ic P) (p_re P) w caps -> w = h ++ stars3 ->
                 p_repl P w caps = w.

Hypothesis G_split :
  forall w, Matches (p_ic P) (p_re P) w ->
    exists h V, w = h ++ V /\ Head h /\ Forall (fun c => cls c = true) V /\ V <> [].
Hypothesis G_join :
  forall h c, Head h -> cls c = true -> Matches (p_ic P) (p_re P) (h ++ [c]).
Hypothesis G_head :
  forall h, Head h ->
    h <> [] /\ Forall (fun c => (if with_eq then is_mark c else is_star c) = false) h.
Hypothesis G_last : forall h prev, Head h -> ~ solid (last_char h prev).
Hypothesis G_unique :
  forall h1 h2 x y t1 t2, Head h1 -> Head h2 -> cls x = true -> cls y = true ->
    h1 ++ x :: t1 = h2 ++ y :: t2 -> h1 = h2.
Hypothesis G_plain : forall c, plain_char c = true -> cls c = true.
Hypothesis G_star : cls "*" = true.
Hypothesis G_max :
  forall s rest caps, attempt P s = Some (rest, caps) -> stops cls rest.
Hypothesis G_self :
  forall w caps, MatchesC (p_ic P) (p_re P) w caps -> p_repl P w caps = w ->
    exists h, Head h /\ w = h ++ stars3 /\ selfish h.

Lemma guarded_original h x t :
  Head h -> cls x = true -> selfmatch P (h ++ x :: t) ->
  exists rest, x :: t = stars3 ++ rest /\ stops cls rest /\ selfish h.
Proof.
  intros Hh Hx Hself. unfold selfmatch in Hself.
  destruct (attempt P (h ++ x :: t)) as [[rest caps]|] eqn:E.
  - destruct Hself as (w & Hw & Hr).
    destruct (attempt_split P _ rest caps E) as (w1 & Hw1 & Hm).
    assert (w1 = w) as -> by (rewrite Hw in Hw1; apply app_inv_tail in Hw1; auto).
    destruct (G_self w caps Hm Hr) as (h0 & Hh0 & -> & Hsel).
    rewrite <- app_assoc in Hw. simpl in Hw.
    pose proof (G_unique h h0 x "*"%char t _ Hh Hh0 Hx G_star Hw) as <-.
    apply app_inv_head in Hw. exists rest. repeat split; auto.
    exact (G_max _ _ _ E).
  - exfalso. apply (attempt_complete P (h ++ [x]) t (G_join h x Hh Hx)).
    rewrite <- app_assoc. exact E.
Qed.

Lemma guarded_keeps_settled prev u u' :
  Sync (edit_ok with_eq) prev u u' -> settled_text P u -> settled_text P u'.
Proof.
  intros Hs Hu s' Hin. unfold selfmatch.
  destruct (attempt P s') as [[rest' caps']|] eqn:E; [|exact I].
  destruct (attempt_split P s' rest' caps' E) as (w' & Hs' & Hm).
  destruct (G_split w' (MatchesC_Matches _ _ _ _ Hm)) as (h & V & -> & Hh & HV & HVne).
  destruct (G_head h Hh) as [Hhne Hhm].
  destruct (sync_suffixes (edit_ok with_eq) _ (edit_ok_mark with_eq) prev u u' Hs s' Hin)
    as [(p2 & u2 & Hu2 & Hs2) | (y & s'' & Ey & Hy)].
  - rewrite <- app_assoc in Hs'.
    destruct (clean_prefix (edit_ok with_eq) _ (edit_ok_mark with_eq) h
                p2 u2 s' (V ++ rest') Hs2 Hs' Hhm) as (v & -> & Hv).
    destruct V as [|c0 V1]; [contradiction|].
    inversion HV as [|? ? Hc0 HV1]; subst.
    pose proof (Hu _ Hu2) as Hself.
    destruct (sync_head_cases _ _ _ _ _ (G_last h p2 Hh) Hv)
      as [(v1 & -> & Hs3) | (f & t & -> & Hf)].
    + destruct (guarded_original h c0 v1 Hh Hc0 Hself) as (rest_u & Ev & Hstop & Hsel).
      simpl in Ev. injection Ev as -> ->.
      destruct (sync_stars_kept with_eq cls rest_u _ G_plain Hstop Hs3) as (v3 & Ev3 & Hv3).
      destruct (run_unique cls ("*"%char :: V1) stars3 rest' v3) as [EV Er].
      * exact HV.
      * repeat constructor; exact G_star.
      * exact (G_max _ _ _ E).
      * exact Hv3.
      * exact (f_equal (cons "*"%char) Ev3).
      * exists (h ++ "*"%char :: V1). rewrite <- app_assoc. split; [reflexivity|].
        apply Hsel; [exact Hm | rewrite EV; reflexivity].
    + destruct (guarded_original h f t Hh (G_plain f Hf) Hself) as (rest_u & Ev & _).
      simpl in Ev. injection Ev as -> _. discriminate Hf.
  - exfalso. destruct h as [|a h]; [contradiction|].
    rewrite Ey in Hs'. simpl in Hs'. injection Hs' as -> _.
    inversion Hhm; subst. congruence.
Qed.
End Guarded.

(* ------------------------------------------------------------------ *)
(** ** The bearer and the key/value pass *)

Ltac each_ascii_all c :=
  destruct c as [[] [] [] [] [] [] [] []]; vm_compute;
  intros; try discriminate; repeat split.

Definition letter (c : ascii) : bool := (isUpper c || isLower c)%bool.

Definition bearer_token : cclass := Class true [CSpace; CChar dquote; CChar squote].
Definition keyvalue_sep : cclass := Class false [CChar ":"; CChar "="].
Definition keyvalue_value : cclass :=
  Class true [CSpace; CChar "&"; CChar dquote; CChar squote].

Definition bearer_head : regex := Cat (Lit "bearer") (Plus space).
Definition keyvalue_head : regex :=
  Cat keyvalue_names (Cat (Star space) (Cat (One keyvalue_sep) (Star space))).

Lemma space_facts c :
  class_test true space c = true ->
  is_mark c = false /\ is_star c = false /\ letter c = false /\
  class_test false email_local c = false /\
  class_test true bearer_token c = false /\
  class_test true keyvalue_value c = false /\
  class_test true keyvalue_sep c = false.
Proof. each_ascii_all c. Qed.

Lemma sep_facts c :
  class_test true keyvalue_sep c = true ->
  is_star c = false /\ letter c = false /\
  class_test false email_local c = false /\
  class_test true space c = false.
Proof. each_ascii_all c. Qed.

Lemma letter_facts c :
  letter c = true ->
  is_mark c = false /\ is_star c = false /\
  class_test true space c = false /\
  class_test true keyvalue_sep c = false.
Proof. each_ascii_all c. Qed.

Lemma token_facts c :
  class_test true bearer_token c = true -> class_test true space c = false.
Proof. each_ascii_all c. Qed.

Lemma value_facts c :
  class_test true keyvalue_value c = true -> class_test true space c = false.
Proof. each_ascii_all c. Qed.

Lemma plain_facts c :
  plain_char c = true ->
  class_test true bearer_token c = true /\ class_test true keyvalue_value c = true.
Proof. each_ascii_all c. Qed.

Lemma not_solid c : class_test false email_local c = false -> ~ solid (Some c).
Proof. intros H (x & E & Hx). inversion E; subst. congruence. Qed.

Lemma last_char_of (p : ascii -> Prop) : forall w prev,
  w <> [] -> Forall p w -> exists x, last_char w prev = Some x /\ p x.
Proof.
  induction w as [|a w IH]; intros prev Hne Hw; [contradiction|].
  inversion Hw; subst. destruct w as [|b w].
  - exists a. auto.
  - destruct (IH (Some a)) as (x & E & Hx); [discriminate | assumption|].
    exists x. auto.
Qed.

Lemma app_same_length (a b x y : list ascii) :
  List.length a = List.length b -> a ++ x = b ++ y -> a = b /\ x = y.
Proof.
  revert b. induction a as [|c a IH]; intros [|d b] Hl E; simpl in Hl; try discriminate Hl.
  - auto.
  - simpl in E. injection E as -> E. injection Hl as Hl.
    destruct (IH b Hl E) as [-> ->]. auto.
Qed.

Lemma stops_head (p q : ascii -> bool) x t :
  (forall c, q c = true -> p c = false) -> q x = true -> stops p (x :: t).
Proof. intros H Hx. simpl. auto. Qed.

(** *** Bearer *)

Lemma bearer_split w :
  Matches true bearer_re w ->
  exists h V, w = h ++ V /\ Matches true bearer_head h /\
              Forall (fun c => class_test true bearer_token c = true) V /\ V <> [].
Proof.
  intros (B & w2 & -> & HB & (W & V & -> & HW & (HV & Hlen & _))).
  exists (B ++ W), V. rewrite app_assoc. repeat split; auto.
  - exists B, W. auto.
  - intros ->. simpl in Hlen. lia.
Qed.

Lemma bearer_join h c :
  Matches true bearer_head h -> class_test true bearer_token c = true ->
  Matches true bearer_re (h ++ [c]).
Proof.
  intros (B & W & -> & HB & (HW & Hlen & _)) Hc.
  exists B, (W ++ [c]). split; [symmetry; apply app_assoc|]. split; [exact HB|].
  exists W, [c]. split; [reflexivity|]. split; [repeat split; auto|].
  split; [|simpl; split; [lia | exact I]].
  constructor; [exact Hc | constructor].
Qed.

Lemma bearer_head_shape h :
  Matches true bearer_head h ->
  exists B W, h = B ++ W /\ List.length B = 6 /\
    Forall (fun c => is_mark c = false) B /\
    W <> [] /\ Forall (fun c => class_test true space c = true) W.
Proof.
  intros (B & W & -> & HB & (HW & Hlen & _)).
  exists B, W. repeat split; auto.
  - exact (lit_length true "bearer" B HB).
  - apply (lit_all_spec true (fun c => negb (is_mark c)) "bearer" B eq_refl) in HB.
    eapply Forall_impl; [|exact HB]. intros a Ha. apply negb_true_iff. exact Ha.
  - intros ->. simpl in Hlen. lia.
Qed.

Lemma bearer_head_marks (with_eq : bool) h :
  Matches true bearer_head h ->
  h <> [] /\ Forall (fun c => (if with_eq then is_mark c else is_star c) = false) h.
Proof.
  intros Hh. destruct (bearer_head_shape h Hh) as (B & W & -> & HlB & HB & HWne & HW).
  split.
  - destruct B; [discriminate HlB | discriminate].
  - apply Forall_app. split.
    + eapply Forall_impl; [|exact HB]. intros a Ha. destruct with_eq; [exact Ha|].
      unfold is_mark in Ha. apply orb_false_iff in Ha. tauto.
    + eapply Forall_impl; [|exact HW]. intros a Ha.
      destruct (space_facts a Ha) as (A1 & A2 & _). destruct with_eq; assumption.
Qed.

Lemma bearer_head_last h prev : Matches true bearer_head h -> ~ solid (last_char h prev).
Proof.
  intros Hh. destruct (bearer_head_shape h Hh) as (B & W & -> & _ & _ & HWne & HW).
  rewrite last_char_app.
  destruct (last_char_of _ W (last_char B prev) HWne HW) as (x & -> & Hx).
  apply not_solid. apply (space_facts x Hx).
Qed.

Lemma bearer_head_unique h1 h2 x y t1 t2 :
  Matches true bearer_head h1 -> Matches true bearer_head h2 ->
  class_test true bearer_token x = true -> class_test true bearer_token y = true ->
  h1 ++ x :: t1 = h2 ++ y :: t2 -> h1 = h2.
Proof.
  intros H1 H2 Hx Hy E.
  destruct (bearer_head_shape h1 H1) as (B1 & W1 & -> & Hl1 & _ & _ & HW1).
  destruct (bearer_head_shape h2 H2) as (B2 & W2 & -> & Hl2 & _ & _ & HW2).
  rewrite <- !app_assoc in E.
  destruct (app_same_length B1 B2 _ _ (eq_trans Hl1 (eq_sym Hl2)) E) as [-> E2].
  destruct (run_unique (class_test true space) W1 W2 (x :: t1) (y :: t2)) as [-> _]; auto.
  - exact (token_facts x Hx).
  - exact (token_facts y Hy).
Qed.

Lemma attempt_maximal P c s rest caps :
  last_rep (p_re P) = Some c ->
  attempt P s = Some (rest, caps) -> stops (class_test (p_ic P) c) rest.
Proof.
  intros Hl E. unfold attempt, exec in E.
  assert (forall (s' : list ascii) (caps' : list (list ascii)),
             Some (s', caps') <> None) as Hk by (intros; discriminate).
  destruct (rmatch_last_maximal _ (p_ic P) (p_re P) c Hl s [] _ _ Hk E)
    as (rest0 & caps0 & E0 & Hs).
  injection E0 as -> _. exact Hs.
Qed.

Lemma bearer_self w caps :
  MatchesC true bearer_re w caps -> p_repl bearer_pass w caps = w ->
  exists h, Matches true bearer_head h /\ w = h ++ stars3 /\ selfish bearer_pass h.
Proof.
  intros _ E. simpl in E. exists (list_ascii_of_string "Bearer "). split; [|split].
  - exists (list_ascii_of_string "Bearer"), [" "%char].
    split; [reflexivity|]. split.
    + repeat constructor.
    + split; [repeat constructor | simpl; lia].
  - rewrite <- E. reflexivity.
  - intros w2 caps2 _ ->. reflexivity.
Qed.

Lemma bearer_progressive : progressive bearer_pass.
Proof.
  intros w Hw ->. destruct (bearer_split [] Hw) as (h & V & E & _ & _ & HV).
  symmetry in E. apply app_eq_nil in E. destruct E as [_ ->]. contradiction.
Qed.

(** Later passes leave a text settled for the bearer pass settled. *)
Lemma bearer_keeps_settled with_eq prev u u' :
  Sync (edit_ok with_eq) prev u u' ->
  settled_text bearer_pass u -> settled_text bearer_pass u'.
Proof.
  apply (guarded_keeps_settled bearer_pass with_eq (Matches true bearer_head)
           (class_test true bearer_token)).
  - exact bearer_split.
  - exact bearer_join.
  - exact (bearer_head_marks with_eq).
  - intros h p. apply bearer_head_last.
  - exact bearer_head_unique.
  - intros c Hc. apply (plain_facts c Hc).
  - reflexivity.
  - intros s rest caps. apply (attempt_maximal bearer_pass bearer_token). reflexivity.
  - exact bearer_self.
Qed.

(** *** Key and value *)

Definition keyvalue_words : list string :=
  ["password"; "pass"; "pwd"; "secret"; "token"; "auth"; "authorization"; "key"]%string.

Lemma names_cases K :
  Matches true keyvalue_names K ->
  exists l, In l keyvalue_words /\
            Forall2 (fun a c => eqb_canon true a c = true) (list_ascii_of_string l) K.
Proof.
  intros H. unfold keyvalue_names in H. cbn [Matches] in H. unfold keyvalue_words.
  destruct H as [H|[H|[H|[H|[H|[H|[H|H]]]]]]];
    (eexists; split; [|exact H]; simpl; tauto).
Qed.

Lemma names_all (p : ascii -> bool) K :
  forallb (lit_all p) keyvalue_words = true ->
  Matches true keyvalue_names K -> Forall (fun c => p c = true) K.
Proof.
  intros Hall H. destruct (names_cases K H) as (l & Hl & HK).
  apply (lit_all_spec true p l K); [|exact HK].
  rewrite forallb_forall in Hall. apply Hall. exact Hl.
Qed.

Lemma names_nonempty K : Matches true keyvalue_names K -> K <> [].
Proof.
  intros H. destruct (names_cases K H) as (l & Hl & HK). intros ->.
  inversion HK as [E|]. revert E. simpl in Hl.
  repeat (destruct Hl as [<-|Hl]; [discriminate|]). contradiction.
Qed.

Lemma names_letters K :
  Matches true keyvalue_names K -> Forall (fun c => letter c = true) K.
Proof. apply names_all. reflexivity. Qed.

Lemma keyvalue_head_shape h :
  Matches true keyvalue_head h ->
  exists K W1 sp W2,
    h = K ++ W1 ++ sp :: W2 /\ Matches true keyvalue_names K /\
    Forall (fun c => class_test true space c = true) W1 /\
    class_test true keyvalue_sep sp = true /\
    Forall (fun c => class_test true space c = true) W2.
Proof.
  intros (K & w2 & -> & HK & (W1 & w3 & -> & (HW1 & _) &
          (w4 & W2 & -> & (sp & -> & Hsp) & (HW2 & _)))).
  exists K, W1, sp, W2. repeat split; auto.
Qed.

Lemma keyvalue_head_intro K W1 sp W2 :
  Matches true keyvalue_names K ->
  Forall (fun c => class_test true space c = true) W1 ->
  class_test true keyvalue_sep sp = true ->
  Forall (fun c => class_test true space c = true) W2 ->
  Matches true keyvalue_head (K ++ W1 ++ sp :: W2).
Proof.
  intros HK HW1 Hsp HW2.
  exists K, (W1 ++ sp :: W2). split; [reflexivity|]. split; [exact HK|].
  exists W1, (sp :: W2). split; [reflexivity|]. split.
  { split; [exact HW1|]. split; [lia | exact I]. }
  exists [sp], W2. split; [reflexivity|]. split.
  { exists sp. auto. }
  split; [exact HW2|]. split; [lia | exact I].
Qed.

Lemma keyvalue_split w :
  Matches true keyvalue_re w ->
  exists h V, w = h ++ V /\ Matches true keyvalue_head h /\
              Forall (fun c => class_test true keyvalue_value c = true) V /\ V <> [].
Proof.
  intros (K & w2 & -> & HK & (W1 & w3 & -> & (HW1 & _) &
          (w4 & w5 & -> & (sp & -> & Hsp) & (W2 & V & -> & (HW2 & _) & (HV & Hlen & _))))).
  exists (K ++ W1 ++ sp :: W2), V. split.
  { rewrite <- !app_assoc. reflexivity. }
  split; [apply keyvalue_head_intro; assumption|]. split; [exact HV|].
  intros ->. simpl in Hlen. lia.
Qed.

Lemma keyvalue_join h c :
  Matches true keyvalue_head h -> class_test true keyvalue_value c = true ->
  Matches true keyvalue_re (h ++ [c]).
Proof.
  intros Hh Hc.
  destruct (keyvalue_head_shape h Hh) as (K & W1 & sp & W2 & -> & HK & HW1 & Hsp & HW2).
  exists K, (W1 ++ sp :: W2 ++ [c]). split.
  { rewrite <- !app_assoc. reflexivity. }
  split; [exact HK|].
  exists W1, (sp :: W2 ++ [c]). split; [reflexivity|]. split.
  { split; [exact HW1|]. split; [lia | exact I]. }
  exists [sp], (W2 ++ [c]). split; [reflexivity|]. split.
  { exists sp. auto. }
  exists W2, [c]. split; [reflexivity|]. split.
  { split; [exact HW2|]. split; [lia | exact I]. }
  split; [repeat constructor; exact Hc|]. simpl. split; [lia | exact I].
Qed.

Lemma keyvalue_head_marks h :
  Matches true keyvalue_head h ->
  h <> [] /\ Forall (fun c => is_star c = false) h.
Proof.
  intros Hh.
  destruct (keyvalue_head_shape h Hh) as (K & W1 & sp & W2 & -> & HK & HW1 & Hsp & HW2).
  split.
  - pose proof (names_nonempty K HK). destruct K; [contradiction | discriminate].
  - apply Forall_app. split; [|apply Forall_app; split; [|constructor]].
    + eapply Forall_impl; [|exact (names_letters K HK)]. intros a Ha.
      apply (letter_facts a Ha).
    + eapply Forall_impl; [|exact HW1]. intros a Ha. apply (space_facts a Ha).
    + apply (sep_facts sp Hsp).
    + eapply Forall_impl; [|exact HW2]. intros a Ha. apply (space_facts a Ha).
Qed.

Lemma keyvalue_head_last h prev :
  Matches true keyvalue_head h -> ~ solid (last_char h prev).
Proof.
  intros Hh.
  destruct (keyvalue_head_shape h Hh) as (K & W1 & sp & W2 & -> & HK & HW1 & Hsp & HW2).
  rewrite !last_char_app.
  change (sp :: W2) with ([sp] ++ W2). rewrite last_char_app.
  destruct W2 as [|a W2].
  - simpl. apply not_solid. apply (sep_facts sp Hsp).
  - destruct (last_char_of _ (a :: W2) (last_char [sp] (last_char W1 (last_char K prev)))
                ltac:(discriminate) HW2) as (x & -> & Hx).
    apply not_solid. apply (space_facts x Hx).
Qed.

Lemma stops_letter_tail W1 sp t :
  Forall (fun c => class_test true space c = true) W1 ->
  class_test true keyvalue_sep sp = true ->
  stops letter (W1 ++ sp :: t).
Proof.
  intros HW1 Hsp. destruct W1 as [|a W1]; simpl.
  - apply (sep_facts sp Hsp).
  - inversion HW1; subst. apply (space_facts a); assumption.
Qed.

Lemma keyvalue_head_unique h1 h2 x y t1 t2 :
  Matches true keyvalue_head h1 -> Matches true keyvalue_head h2 ->
  class_test true keyvalue_value x = true -> class_test true keyvalue_value y = true ->
  h1 ++ x :: t1 = h2 ++ y :: t2 -> h1 = h2.
Proof.
  intros H1 H2 Hx Hy E.
  destruct (keyvalue_head_shape h1 H1) as (K1 & W1 & s1 & V1 & -> & HK1 & HW1 & Hs1 & HV1).
  destruct (keyvalue_head_shape h2 H2) as (K2 & W2 & s2 & V2 & -> & HK2 & HW2 & Hs2 & HV2).
  rewrite <- !app_assoc in E. simpl in E.
  destruct (run_unique letter K1 K2 _ _ (names_letters K1 HK1) (names_letters K2 HK2)
              (stops_letter_tail W1 s1 _ HW1 Hs1) (stops_letter_tail W2 s2 _ HW2 Hs2) E)
    as [-> E2].
  destruct (run_unique (class_test true space) W1 W2
              (s1 :: V1 ++ x :: t1) (s2 :: V2 ++ y :: t2) HW1 HW2
              (proj2 (proj2 (proj2 (sep_facts s1 Hs1))))
              (proj2 (proj2 (proj2 (sep_facts s2 Hs2)))) E2) as [-> E3].
  injection E3 as -> E4.
  destruct (run_unique (class_test true space) V1 V2 (x :: t1) (y :: t2) HV1 HV2
              (value_facts x Hx) (value_facts y Hy) E4) as [-> _].
  reflexivity.
Qed.

Lemma keyvalue_match_inv w caps :
  MatchesC true keyvalue_re w caps ->
  exists K tail, w = K ++ tail /\ caps = [K] /\ Matches true keyvalue_names K /\
    exists W1 sp t, tail = W1 ++ sp :: t /\
      Forall (fun c => class_test true space c = true) W1 /\
      class_test true keyvalue_sep sp = true.
Proof.
  intros H. apply group_then in H; try reflexivity.
  destruct H as (K & tail & -> & -> & HK &
                 (W1 & w3 & -> & (HW1 & _) & (w4 & w5 & -> & (sp & -> & Hsp) & _))).
  exists K, (W1 ++ [sp] ++ w5). repeat split; auto.
  exists W1, sp, w5. auto.
Qed.

Lemma keyvalue_same_key K1 K2 t W1 sp t2 :
  Matches true keyvalue_names K1 -> Matches true keyvalue_names K2 ->
  Forall (fun c => class_test true space c = true) W1 ->
  class_test true keyvalue_sep sp = true ->
  K1 ++ "="%char :: t = K2 ++ W1 ++ sp :: t2 -> K1 = K2.
Proof.
  intros H1 H2 HW1 Hsp E.
  destruct (run_unique letter K1 K2 _ _ (names_letters K1 H1) (names_letters K2 H2)
              (stops_letter_tail [] "="%char t (Forall_nil _) eq_refl)
              (stops_letter_tail W1 sp t2 HW1 Hsp) E) as [-> _].
  reflexivity.
Qed.

Lemma keyvalue_self w caps :
  MatchesC true keyvalue_re w caps -> p_repl keyvalue_pass w caps = w ->
  exists h, Matches true keyvalue_head h /\ w = h ++ stars3 /\ selfish keyvalue_pass h.
Proof.
  intros Hm E.
  destruct (keyvalue_match_inv w caps Hm) as (K & tail & -> & -> & HK & _).
  simpl in E. unfold cap in E. simpl nth in E. apply app_inv_head in E. subst tail.
  exists (K ++ ["="%char]). split; [|split].
  - apply (keyvalue_head_intro K [] "="%char []); auto.
  - rewrite <- app_assoc. reflexivity.
  - intros w2 caps2 Hm2 E2.
    destruct (keyvalue_match_inv w2 caps2 Hm2)
      as (K2 & tail2 & -> & -> & HK2 & (W1 & sp & t & -> & HW1 & Hsp)).
    simpl. unfold cap. simpl nth.
    rewrite <- app_assoc in E2. simpl in E2. symmetry in E2.
    pose proof (keyvalue_same_key K K2 _ W1 sp t HK HK2 HW1 Hsp E2) as <-.
    rewrite <- E2. reflexivity.
Qed.

Lemma keyvalue_progressive : progressive keyvalue_pass.
Proof.
  intros w Hw ->. destruct (keyvalue_split [] Hw) as (h & V & E & _ & _ & HV).
  symmetry in E. apply app_eq_nil in E. destruct E as [_ ->]. contradiction.
Qed.

(** Later passes leave a text settled for the key/value pass settled. *)
Lemma keyvalue_keeps_settled prev u u' :
  Sync (edit_ok false) prev u u' ->
  settled_text keyvalue_pass u -> settled_text keyvalue_pass u'.
Proof.
  apply (guarded_keeps_settled keyvalue_pass false (Matches true keyvalue_head)
           (class_test true keyvalue_value)).
  - exact keyvalue_split.
  - exact keyvalue_join.
  - exact keyvalue_head_marks.
  - intros h p. apply keyvalue_head_last.
  - exact keyvalue_head_unique.
  - intros c Hc. apply (plain_facts c Hc).
  - reflexivity.
  - intros s rest caps. apply (attempt_maximal keyvalue_pass keyvalue_value). reflexivity.
  - exact keyvalue_self.
Qed.

Lemma keyvalue_sync s prev : Sync (edit_ok true) prev s (run keyvalue_pass s).
Proof.
  apply sync_of_run; [exact keyvalue_progressive|].
  intros prev0 w caps rest Hm _.
  destruct (keyvalue_match_inv w caps Hm) as (K & tail & -> & -> & HK & _).
  exists K, tail, (list_ascii_of_string "=***"), [].
  rewrite !app_nil_r. simpl p_repl. unfold cap. simpl nth.
  split; [reflexivity|]. split; [reflexivity|].
  split; [discriminate|]. split; [repeat constructor|].
  left.
  destruct (last_char_of (fun c => class_test false email_local c = true) K prev0
              (names_nonempty K HK) (names_all (class_test false email_local) K eq_refl HK)) as (x & E & Hx).
  exists x. auto.
Qed.

(* ------------------------------------------------------------------ *)
(** ** The email pass *)

Definition email_mid : cclass := Class true [CChar "@"; CSpace].
Definition email_domain : cclass := Class false (alnum ++ [CChar "."; CChar "-"]).
Definition email_letter : cclass := Class false [CRange "A" "Z"; CRange "a" "z"].
Definition email_dot_tld : regex := Cat (Lit ".") (AtLeast 2 email_letter).
Definition email_tail : regex :=
  Cat (Lit "@") (Cat (Plus email_domain) email_dot_tld).

(** The text goes on with a dot and two letters. *)
Definition dot_tld_starts (v : list ascii) : Prop :=
  exists l1 l2 v', v = "."%char :: l1 :: l2 :: v' /\
                   class_test false email_letter l1 = true /\
                   class_test false email_letter l2 = true.

Lemma lit_exact l w :
  Forall2 (fun a c => eqb_canon false a c = true) l w -> w = l.
Proof.
  induction 1 as [|a c l w Hc Hw IH]; [reflexivity|].
  unfold eqb_canon, canonicalize in Hc. apply Ascii.eqb_eq in Hc. congruence.
Qed.

Lemma lit_exact_intro l : Forall2 (fun a c => eqb_canon false a c = true) l l.
Proof.
  induction l as [|a l IH]; constructor; [|exact IH].
  unfold eqb_canon, canonicalize. apply Ascii.eqb_refl.
Qed.

Lemma domain_facts c :
  class_test false email_domain c = true ->
  is_star c = false /\ class_test false email_mid c = true.
Proof. each_ascii_all c. Qed.

Lemma email_letter_facts c :
  class_test false email_letter c = true ->
  is_star c = false /\ class_test false email_domain c = true /\
  Ascii.eqb c "." = false.
Proof. each_ascii_all c. Qed.

Lemma email_mid_facts c :
  class_test false email_mid c = true -> Ascii.eqb c "@" = false.
Proof. each_ascii_all c. Qed.

Lemma email_tail_shape p2 :
  Matches false email_tail p2 <->
  exists Dm Tld,
    p2 = "@"%char :: Dm ++ "."%char :: Tld /\
    Forall (fun c => class_test false email_domain c = true) Dm /\ Dm <> [] /\
    Forall (fun c => class_test false email_letter c = true) Tld /\
    2 <= List.length Tld.
Proof.
  split.
  - intros (a & w2 & -> & Ha & (Dm & w3 & -> & (HD & HDl & _) &
            (dt & Tld & -> & Hdt & (HT & HTl & _)))).
    apply lit_exact in Ha. apply lit_exact in Hdt. subst a dt.
    exists Dm, Tld. repeat split; auto.
    intros ->. simpl in HDl. lia.
  - intros (Dm & Tld & -> & HD & HDne & HT & HTl).
    exists ["@"%char], (Dm ++ "."%char :: Tld). split; [reflexivity|].
    split; [apply (lit_exact_intro ["@"%char])|].
    exists Dm, ("."%char :: Tld). split; [reflexivity|]. split.
    { split; [exact HD|]. split; [|exact I].
      destruct Dm; [contradiction | simpl; lia]. }
    exists ["."%char], Tld. split; [reflexivity|].
    split; [apply (lit_exact_intro ["."%char])|].
    split; [exact HT|]. split; [exact HTl | exact I].
Qed.

Lemma email_match_inv w caps :
  MatchesC false email_re w caps ->
  exists c N p2,
    w = c :: N ++ p2 /\ caps = [[c]; p2] /\
    class_test false email_local c = true /\
    Forall (fun x => class_test false email_mid x = true) N /\
    Matches false email_tail p2.
Proof.
  intros H.
  apply (group_mid_group false (One email_local) (Star email_mid) email_tail) in H;
    try reflexivity.
  destruct H as (w1 & N & p2 & -> & -> & (c & -> & Hc) & (HN & _) & Hp).
  exists c, N, p2. repeat split; auto.
Qed.

Lemma email_match_intro c N p2 :
  class_test false email_local c = true ->
  Forall (fun x => class_test false email_mid x = true) N ->
  Matches false email_tail p2 ->
  Matches false email_re (c :: N ++ p2).
Proof.
  intros Hc HN Hp.
  exists [c], (N ++ p2). split; [reflexivity|]. split; [exists c; auto|].
  exists N, p2. split; [reflexivity|]. split; [|exact Hp].
  split; [exact HN|]. split; [lia | exact I].
Qed.

Lemma email_progressive : progressive email_pass.
Proof.
  intros w (w1 & w2 & E & (c & -> & _) & _) ->. discriminate E.
Qed.

(** What a replacement of the email pass is: stars for a run that holds
    neither at-sign nor white space, after a solid character and before an
    at-sign. *)
Definition email_edit (prev : option ascii) (X Y u : list ascii) : Prop :=
  Y = stars3 /\ solid prev /\
  Forall (fun x => class_test false email_mid x = true) X /\
  exists t, u = "@"%char :: t.

Lemma email_sync_strong s prev : Sync email_edit prev s (run email_pass s).
Proof.
  apply sync_of_run; [exact email_progressive|].
  intros prev0 w caps rest Hm _.
  destruct (email_match_inv w caps Hm) as (c & N & p2 & -> & -> & Hc & HN & Hp).
  exists [c], N, stars3, p2. simpl p_repl. unfold cap. simpl nth.
  split; [reflexivity|]. split; [reflexivity|].
  split; [reflexivity|]. split; [exists c; auto|]. split; [exact HN|].
  apply email_tail_shape in Hp. destruct Hp as (Dm & Tld & -> & _).
  simpl. eexists. reflexivity.
Qed.

Lemma email_edit_ok prev X Y u : email_edit prev X Y u -> edit_ok false prev X Y u.
Proof.
  intros (-> & Hs & _). split; [discriminate|]. split; [repeat constructor|]. auto.
Qed.

Lemma email_sync s prev : Sync (edit_ok false) prev s (run email_pass s).
Proof.
  apply (Sync_weaken email_edit); [exact email_edit_ok | apply email_sync_strong].
Qed.

(** The pass keeps the first character of a text. *)
Lemma email_run_head c s : exists s', run email_pass (c :: s) = c :: s'.
Proof.
  destruct (run_cases email_pass (c :: s) email_progressive)
    as [[E _] | [(c' & s' & E & _ & Hr) | (w & rest & caps & E & _ & _ & Hm & Hr)]].
  - discriminate E.
  - injection E as <- <-. rewrite Hr. eexists. reflexivity.
  - destruct (email_match_inv w caps Hm) as (c' & N & p2 & -> & -> & _).
    simpl in E. injection E as <- _. rewrite Hr. simpl. eexists. reflexivity.
Qed.

Lemma email_run_stops p s : stops p s -> stops p (run email_pass s).
Proof.
  destruct s as [|c s]; intros H.
  - rewrite (run_nil email_pass email_progressive). exact I.
  - destruct (email_run_head c s) as (s' & ->). exact H.
Qed.

(** Reading up to an at-sign in the rewritten text reads up to the same
    at-sign in the original. *)
Lemma email_read_local N' : forall prev u u' t',
  Sync email_edit prev u u' -> u' = N' ++ "@"%char :: t' ->
  Forall (fun x => class_test false email_mid x = true) N' ->
  exists N t, u = N ++ "@"%char :: t /\
              Forall (fun x => class_test false email_mid x = true) N /\
              Sync email_edit (Some "@"%char) t t'.
Proof.
  remember (List.length N') as n eqn:Hn. revert N' Hn.
  induction n as [n IH] using lt_wf_ind. intros N' Hn prev u u' t' Hs E HN.
  destruct Hs as [p | p c u u' Hs | p X Y u u' Hok Hs].
  - destruct N'; discriminate E.
  - destruct N' as [|x N'].
    + simpl in E. injection E as -> ->. exists [], u. auto.
    + simpl in E. injection E as -> ->. inversion HN as [|? ? Hx HN']; subst.
      destruct (IH (List.length N') ltac:(simpl; lia) N' eq_refl _ _ _ _ Hs eq_refl HN')
        as (N & t & -> & HNn & Ht).
      exists (x :: N), t. auto.
  - destruct Hok as (-> & _ & HX & (t0 & ->)).
    destruct N' as [|x1 [|x2 [|x3 N']]]; simpl in E; try discriminate E.
    injection E as <- <- <- ->.
    inversion HN as [|? ? _ HN1]; subst. inversion HN1 as [|? ? _ HN2]; subst.
    inversion HN2 as [|? ? _ HN3]; subst.
    destruct (IH (List.length N') ltac:(simpl; lia) N' eq_refl _ _ _ _ Hs eq_refl HN3)
      as (N & t & E & HNn & Ht).
    exists (X ++ N), t. rewrite E, <- app_assoc. repeat split; auto.
    apply Forall_app. auto.
Qed.

(** *** What the matcher does on the email pattern *)

Section EmailEngine.
Variable A : Type.

Definition dot_tld_k (k : list ascii -> option A) (v : list ascii) : option A :=
  match match_lit false (list_ascii_of_string ".") v with
  | Some s => match_rep (class_test false email_letter) 2 None s k
  | None => None
  end.

Definition email_after (k : list ascii -> list ascii -> option A) (s2 : list ascii)
  : option A :=
  match match_lit false (list_ascii_of_string "@") s2 with
  | Some s3 => match_rep (class_test false email_domain) 1 None s3 (dot_tld_k (k s2))
  | None => None
  end.

Lemma match_one_char a v s :
  match_lit false [a] v = Some s <-> v = a :: s.
Proof.
  destruct v as [|x v]; simpl; [split; discriminate|].
  unfold eqb_canon, canonicalize. destruct (Ascii.eqb a x) eqn:E.
  - apply Ascii.eqb_eq in E. subst x. split; congruence.
  - split; [discriminate|]. intros H. injection H as -> _.
    rewrite Ascii.eqb_refl in E. discriminate E.
Qed.

Lemma dot_tld_k_inv k v a :
  (forall s, k s <> None) ->
  dot_tld_k k v = Some a ->
  exists Tld rest,
    v = "."%char :: Tld ++ rest /\
    Forall (fun c => class_test false email_letter c = true) Tld /\
    2 <= List.length Tld /\ stops (class_test false email_letter) rest /\
    k rest = Some a.
Proof.
  intros Hk E. unfold dot_tld_k in E.
  destruct (match_lit false (list_ascii_of_string ".") v) as [s|] eqn:El; [|discriminate E].
  apply (match_one_char "."%char v s) in El. subst v.
  destruct (match_rep_choice A _ k s 2 a E) as (Tld & rest & -> & HT & Hl & Hr & Hlater).
  exists Tld, rest. repeat split; auto.
  destruct rest as [|x r]; [exact I|]. simpl.
  destruct (class_test false email_letter x) eqn:Hx; [|reflexivity].
  exfalso. apply (Hk r). apply (Hlater [x] r); [reflexivity | discriminate|].
  constructor; [exact Hx | constructor].
Qed.

Lemma dot_tld_k_starts k v a :
  (forall s, k s <> None) -> dot_tld_k k v = Some a -> dot_tld_starts v.
Proof.
  intros Hk E. destruct (dot_tld_k_inv k v a Hk E) as (Tld & rest & -> & HT & Hl & _).
  destruct Tld as [|l1 [|l2 T]]; simpl in Hl; try lia.
  inversion HT as [|? ? H1 HT']; subst. inversion HT' as [|? ? H2 _]; subst.
  exists l1, l2, (T ++ rest). auto.
Qed.

Lemma dot_tld_k_intro k Tld rest :
  Forall (fun c => class_test false email_letter c = true) Tld ->
  2 <= List.length Tld -> stops (class_test false email_letter) rest ->
  k rest <> None ->
  dot_tld_k k ("."%char :: Tld ++ rest) = k rest.
Proof.
  intros HT Hl Hr Hk. unfold dot_tld_k.
  assert (match_lit false (list_ascii_of_string ".") ("."%char :: Tld ++ rest)
          = Some (Tld ++ rest)) as ->
    by (apply (match_one_char "."%char); reflexivity).
  destruct (k rest) as [a|] eqn:Ek; [|contradiction].
  apply match_rep_settles; auto.
  intros u v E Hne Hu. exfalso. destruct u as [|x u]; [contradiction|].
  subst rest. simpl in Hr. inversion Hu; subst. congruence.
Qed.

Lemma dot_tld_k_some k v :
  (forall s, k s <> None) -> dot_tld_starts v -> dot_tld_k k v <> None.
Proof.
  intros Hk (l1 & l2 & v' & -> & H1 & H2).
  pose proof (take_drop (class_test false email_letter) v') as E.
  assert ("."%char :: l1 :: l2 :: v' =
          "."%char :: (l1 :: l2 :: take_while (class_test false email_letter) v')
            ++ drop_while (class_test false email_letter) v') as ->.
  { simpl. rewrite <- E. reflexivity. }
  rewrite dot_tld_k_intro.
  - apply Hk.
  - repeat (constructor; [assumption|]). apply take_while_all.
  - simpl. lia.
  - apply drop_while_stops.
  - apply Hk.
Qed.
End EmailEngine.

Lemma firstn_minus (w r : list ascii) :
  firstn (List.length (w ++ r) - List.length r) (w ++ r) = w.
Proof.
  rewrite length_app, Nat.add_sub, firstn_app, Nat.sub_diag, firstn_all.
  simpl. apply app_nil_r.
Qed.

Lemma email_attempt_eq c t1 :
  attempt email_pass (c :: t1) =
  if class_test false email_local c then
    match_rep (class_test false email_mid) 0 None t1
      (email_after _ (fun s2 s5 =>
         Some (s5, ([] ++ [firstn (List.length (c :: t1) - List.length t1) (c :: t1)])
                     ++ [firstn (List.length s2 - List.length s5) s2])))
  else None.
Proof. reflexivity. Qed.

Lemma email_attempt_nil : attempt email_pass [] = None.
Proof. reflexivity. Qed.

(** The match the matcher settles on: the local part runs up to the
    at-sign, the domain up to the last dot that two letters follow. *)
Definition email_choice (c : ascii) (N Dm Tld rest : list ascii) : Prop :=
  class_test false email_local c = true /\
  Forall (fun x => class_test false email_mid x = true) N /\
  Forall (fun x => class_test false email_domain x = true) Dm /\ Dm <> [] /\
  Forall (fun x => class_test false email_letter x = true) Tld /\
  2 <= List.length Tld /\
  stops (class_test false email_letter) rest /\
  forall u v, "."%char :: Tld ++ rest = u ++ v -> u <> [] ->
              Forall (fun x => class_test false email_domain x = true) u ->
              ~ dot_tld_starts v.

Lemma email_attempt_inv t rest caps :
  attempt email_pass t = Some (rest, caps) ->
  exists c N Dm Tld,
    t = c :: N ++ "@"%char :: Dm ++ "."%char :: Tld ++ rest /\
    caps = [[c]; "@"%char :: Dm ++ "."%char :: Tld] /\
    email_choice c N Dm Tld rest.
Proof.
  intros E. destruct t as [|c t1]; [discriminate E|].
  rewrite email_attempt_eq in E.
  destruct (class_test false email_local c) eqn:Hc; [|discriminate E].
  destruct (match_rep_choice _ _ _ t1 0 _ E) as (N & s2 & -> & HN & _ & E2 & _).
  unfold email_after in E2.
  destruct (match_lit false (list_ascii_of_string "@") s2) as [s3|] eqn:El; [|discriminate E2].
  apply (match_one_char "@"%char s2 s3) in El. subst s2.
  destruct (match_rep_choice _ _ _ s3 1 _ E2) as (Dm & r4 & -> & HD & HDl & E3 & Hlater).
  assert (forall (s2 s : list ascii),
            Some (s, ([] ++ [firstn (List.length (c :: N ++ "@"%char :: Dm ++ r4)
                                     - List.length (N ++ "@"%char :: Dm ++ r4))
                               (c :: N ++ "@"%char :: Dm ++ r4)])
                        ++ [firstn (List.length s2 - List.length s) s2]) <> None) as Hk
      by (intros; discriminate).
  destruct (dot_tld_k_inv _ _ r4 _ (Hk _) E3) as (Tld & rest0 & -> & HT & HTl & Hstop & E4).
  injection E4 as -> <-.
  exists c, N, Dm, Tld. split; [reflexivity|]. split.
  - pose proof (firstn_minus [c] (N ++ "@"%char :: Dm ++ "."%char :: Tld ++ rest)) as F1.
    pose proof (firstn_minus ("@"%char :: Dm ++ "."%char :: Tld) rest) as F2.
    replace (("@"%char :: Dm ++ "."%char :: Tld) ++ rest)
      with ("@"%char :: Dm ++ "."%char :: Tld ++ rest) in F2
      by (simpl; rewrite <- app_assoc; reflexivity).
    exact (f_equal2 (fun a b => [a; b]) F1 F2).
  - repeat split; auto.
    + intros ->. simpl in HDl. lia.
    + intros u v Euv Hne Hu Hstart.
      apply (dot_tld_k_some _ _ v (Hk ("@"%char :: Dm ++ "."%char :: Tld ++ rest)) Hstart).
      exact (Hlater u v Euv Hne Hu).
Qed.

Lemma email_attempt_intro c N Dm Tld rest :
  email_choice c N Dm Tld rest ->
  attempt email_pass (c :: N ++ "@"%char :: Dm ++ "."%char :: Tld ++ rest)
  = Some (rest, [[c]; "@"%char :: Dm ++ "."%char :: Tld]).
Proof.
  intros (Hc & HN & HD & HDne & HT & HTl & Hstop & Hlater).
  assert (exists caps,
             attempt email_pass (c :: N ++ "@"%char :: Dm ++ "."%char :: Tld ++ rest)
             = Some (rest, caps)) as (caps & E).
  { eexists. rewrite email_attempt_eq, Hc.
    apply match_rep_settles; [exact HN | lia | |].
    - unfold email_after.
      assert (match_lit false (list_ascii_of_string "@")
                ("@"%char :: Dm ++ "."%char :: Tld ++ rest)
              = Some (Dm ++ "."%char :: Tld ++ rest)) as ->
        by (apply (match_one_char "@"%char); reflexivity).
      apply match_rep_settles; [exact HD | destruct Dm; [contradiction | simpl; lia] | |].
      + rewrite dot_tld_k_intro; [reflexivity | exact HT | exact HTl | exact Hstop|].
        discriminate.
      + intros u v Euv Hne Hu.
        match goal with
        | |- dot_tld_k _ ?k v = None => destruct (dot_tld_k _ k v) as [a|] eqn:Ek
        end; [|reflexivity].
        exfalso. apply (Hlater u v Euv Hne Hu).
        refine (dot_tld_k_starts _ _ v a _ Ek). intros; discriminate.
    - intros u v Euv Hne Hu. exfalso. destruct u as [|x u]; [contradiction|].
      simpl in Euv. injection Euv as <- _. inversion Hu as [|? ? Hx _]; subst.
      vm_compute in Hx. discriminate Hx. }
  rewrite E. f_equal. f_equal.
  destruct (email_attempt_inv _ rest caps E)
    as (c' & N' & Dm' & Tld' & Et & -> & (_ & HN' & _)).
  injection Et as <- Et.
  destruct (run_unique (class_test false email_mid) N N'
              ("@"%char :: Dm ++ "."%char :: Tld ++ rest)
              ("@"%char :: Dm' ++ "."%char :: Tld' ++ rest) HN HN' eq_refl eq_refl Et)
    as [_ Et2].
  injection Et2 as Et2.
  assert ((Dm ++ "."%char :: Tld) ++ rest = (Dm' ++ "."%char :: Tld') ++ rest) as Et3.
  { rewrite <- !app_assoc. exact Et2. }
  apply app_inv_tail in Et3. rewrite Et3. reflexivity.
Qed.

(** Where the pass found no address, it finds none after it has rewritten
    the rest of the text. *)
Lemma email_no_new_match c u1 :
  attempt email_pass (c :: u1) = None ->
  attempt email_pass (c :: run email_pass u1) = None.
Proof.
  intros Hnone.
  destruct (attempt email_pass (c :: run email_pass u1)) as [[rest' caps']|] eqn:E;
    [|reflexivity].
  exfalso.
  destruct (email_attempt_inv _ rest' caps' E)
    as (c' & N' & Dm & Tld & Et & _ & (Hc & HN' & HD & HDne & HT & HTl & _)).
  injection Et as <- Et.
  destruct (email_read_local N' (Some c) u1 _ _ (email_sync_strong u1 (Some c)) Et HN')
    as (N & t & -> & HN & Hs).
  apply (Sync_weaken email_edit (edit_ok false) email_edit_ok) in Hs.
  destruct (clean_prefix (edit_ok false) is_star (edit_ok_mark false)
              (Dm ++ "."%char :: Tld) _ t _ rest' Hs) as (v & -> & _).
  { rewrite <- app_assoc. reflexivity. }
  { apply Forall_app. split.
    - eapply Forall_impl; [|exact HD]. intros a Ha. apply (domain_facts a Ha).
    - constructor; [reflexivity|].
      eapply Forall_impl; [|exact HT]. intros a Ha. apply (email_letter_facts a Ha). }
  apply (attempt_complete email_pass (c :: N ++ "@"%char :: Dm ++ "."%char :: Tld) v).
  - apply (email_match_intro c N ("@"%char :: Dm ++ "."%char :: Tld) Hc HN).
    apply email_tail_shape. exists Dm, Tld. auto.
  - rewrite <- Hnone. f_equal. simpl. f_equal. rewrite <- !app_assoc. simpl.
    rewrite <- app_assoc. reflexivity.
Qed.

(** Where the pass found an address, it finds the same one again, with the
    stars for its local part. *)
Lemma email_match_kept c N Dm Tld rest :
  email_choice c N Dm Tld rest ->
  email_choice c stars3 Dm Tld (run email_pass rest).
Proof.
  intros (Hc & HN & HD & HDne & HT & HTl & Hstop & Hlater).
  repeat split; auto.
  - repeat constructor.
  - apply email_run_stops. exact Hstop.
  - intros u v Euv Hne Hu Hstart.
    assert (Sync (edit_ok false) None (("."%char :: Tld) ++ rest)
              (("."%char :: Tld) ++ run email_pass rest)) as Hs.
    { apply Sync_copies. apply email_sync. }
    destruct (clean_prefix (edit_ok false) is_star (edit_ok_mark false) u
                None _ _ v Hs Euv) as (v0 & E0 & Hs0).
    { eapply Forall_impl; [|exact Hu]. intros a Ha. apply (domain_facts a Ha). }
    destruct Hstart as (l1 & l2 & v' & -> & H1 & H2).
    destruct (clean_prefix (edit_ok false) is_star (edit_ok_mark false)
                ["."%char; l1; l2] _ v0 _ v' Hs0 eq_refl) as (v0' & -> & _).
    { constructor; [reflexivity|].
      constructor; [apply (email_letter_facts l1 H1)|].
      constructor; [apply (email_letter_facts l2 H2) | constructor]. }
    apply (Hlater u _ E0 Hne Hu). exists l1, l2, v0'. auto.
Qed.

(** The email pass changes nothing in its own output. *)
Lemma email_run_idem : forall s,
  run email_pass (run email_pass s) = run email_pass s.
Proof.
  intros s. remember (List.length s) as n eqn:Hn. revert s Hn.
  induction n as [n IH] using lt_wf_ind. intros s Hn.
  destruct (run_cases email_pass s email_progressive)
    as [[-> E] | [(c & s' & -> & Ea & E) | (w & rest & caps & -> & Hw & Ea & Hm & E)]].
  - rewrite E. exact E.
  - rewrite E. rewrite (run_copy email_pass c _ (email_no_new_match c s' Ea)).
    f_equal. apply (IH (List.length s')); [simpl in Hn; lia | reflexivity].
  - rewrite E.
    destruct (email_attempt_inv _ rest caps Ea) as (c & N & Dm & Tld & Et & -> & Hch).
    assert (w = c :: N ++ "@"%char :: Dm ++ "."%char :: Tld) as ->.
    { apply (app_inv_tail rest). rewrite Et. simpl. f_equal.
      rewrite <- !app_assoc. simpl. rewrite <- app_assoc. reflexivity. }
    simpl p_repl. unfold cap. simpl nth.
    pose proof (email_attempt_intro c stars3 Dm Tld _ (email_match_kept c N Dm Tld rest Hch))
      as Ea2.
    assert (([c] ++ stars3 ++ "@"%char :: Dm ++ "."%char :: Tld) ++ run email_pass rest
            = c :: stars3 ++ "@"%char :: Dm ++ "."%char :: Tld ++ run email_pass rest) as Eform.
    { simpl. repeat (rewrite <- app_assoc; simpl). reflexivity. }
    rewrite <- Eform in Ea2.
    destruct (attempt_split email_pass _ _ _ Ea2) as (w2 & Ew2 & Hm2).
    apply app_inv_tail in Ew2. subst w2.
    pose proof (run_match email_pass _ _ _ email_progressive Ea2 Hm2) as Hrun.
    simpl p_repl in Hrun. unfold cap in Hrun. simpl nth in Hrun.
    rewrite (IH (List.length rest)) in Hrun; [exact Hrun | | reflexivity].
    rewrite Hn, length_app. simpl. lia.
Qed.

(* ------------------------------------------------------------------ *)
(** ** The bearer and the key/value pass on their own output *)

(** A scan copies up to its first match, if it finds one at all. *)
Lemma run_first_block P : progressive P -> forall s,
  run P s = s \/
  exists z w rest caps,
    s = z ++ w ++ rest /\ attempt P (w ++ rest) = Some (rest, caps) /\
    MatchesC (p_ic P) (p_re P) w caps /\
    run P s = z ++ p_repl P w caps ++ run P rest.
Proof.
  intros Hp. induction s as [|c s IH].
  - left. apply run_nil. exact Hp.
  - destruct (run_cases P (c :: s) Hp)
      as [[E _] | [(c' & s' & E & Ea & Hr) | (w & rest & caps & E & _ & Ea & Hm & Hr)]].
    + discriminate E.
    + injection E as <- <-. rewrite Hr.
      destruct IH as [-> | (z & w & rest & caps & -> & Ea' & Hm & ->)]; [left; reflexivity|].
      right. exists (c :: z), w, rest, caps. auto.
    + right. exists [], w, rest, caps. rewrite E in *. auto.
Qed.

Lemma suffix_head (p : ascii -> Prop) (r1 r2 : list ascii) :
  Forall p (r1 ++ r2) -> r2 <> [] -> exists y r, r2 = y :: r /\ p y.
Proof.
  intros H Hne. apply Forall_app in H. destruct H as [_ H].
  destruct r2 as [|y r]; [contradiction|]. inversion H; subst. eauto.
Qed.

(** The two ways [h ++ [c0]] can go through [p ++ x :: l]. *)
Lemma snoc_through (h p l : list ascii) (c0 x : ascii) :
  h ++ [c0] = p ++ x :: l ->
  (l = [] /\ h = p /\ c0 = x) \/ (exists l', l = l' ++ [c0] /\ h = p ++ x :: l').
Proof.
  revert p. induction h as [|a h IH]; intros p E.
  - destruct p as [|b p]; simpl in E.
    + injection E as -> <-. auto.
    + injection E as _ E. destruct p; discriminate E.
  - destruct p as [|b p]; simpl in E.
    + injection E as -> E. right.
      destruct (exists_last (l := l)) as (l' & y & ->).
      { intros ->. destruct h; discriminate E. }
      apply app_inj_tail in E. destruct E as [-> ->]. exists l'. auto.
    + injection E as -> E. destruct (IH p E) as [(-> & -> & ->) | (l' & -> & ->)]; auto.
      right. exists l'. auto.
Qed.

Section SelfSettledByCases.
Variable P : pass.
Hypothesis P_progressive : progressive P.
Hypothesis P_copy :
  forall c s, attempt P (c :: s) = None -> attempt P (c :: run P s) = None.
Hypothesis P_block :
  forall w rest caps r1 r2,
    attempt P (w ++ rest) = Some (rest, caps) ->
    MatchesC (p_ic P) (p_re P) w caps ->
    p_repl P w caps = r1 ++ r2 -> r2 <> [] ->
    selfmatch P (r2 ++ run P rest).

Lemma run_settles_by_cases : forall s, settled_text P (run P s).
Proof.
  intros s. remember (List.length s) as n eqn:Hn. revert s Hn.
  induction n as [n IH] using lt_wf_ind. intros s Hn t Ht.
  destruct (run_cases P s P_progressive)
    as [[-> E] | [(c & s' & -> & Ea & E) | (w & rest & caps & -> & Hw & Ea & Hm & E)]].
  - rewrite E in Ht. simpl in Ht. destruct Ht as [<-|[]].
    unfold selfmatch.
    destruct (attempt P []) as [[rest caps]|] eqn:Ea; [|exact I].
    destruct (attempt_split P [] rest caps Ea) as (w & Hs & Hm).
    symmetry in Hs. apply app_eq_nil in Hs. destruct Hs as [-> _].
    exfalso. exact (P_progressive [] (MatchesC_Matches _ _ _ _ Hm) eq_refl).
  - rewrite E in Ht. simpl in Ht. destruct Ht as [<-|Ht].
    + unfold selfmatch. rewrite (P_copy c s' Ea). exact I.
    + apply (IH (List.length s')) with (s := s'); [simpl in Hn; lia | reflexivity | exact Ht].
  - rewrite E in Ht. apply suffixes_spec in Ht. destruct Ht as (pre & Ept).
    assert ((exists r1 r2, p_repl P w caps = r1 ++ r2 /\ r2 <> [] /\ t = r2 ++ run P rest)
            \/ In t (suffixes (run P rest))) as [(r1 & r2 & Hr & Hr2 & ->) | Hin].
    { clear -Ept. revert pre Ept. generalize (p_repl P w caps) as R.
      induction R as [|y R IHR]; intros pre E.
      - right. apply suffixes_spec. exists pre. exact E.
      - destruct pre as [|x pre].
        + left. exists [], (y :: R). simpl in E. subst t.
          repeat split; auto. discriminate.
        + simpl in E. inversion E; subst.
          destruct (IHR pre H1) as [(r1 & r2 & -> & Hr2 & ->) | Hin].
          * left. exists (x :: r1), r2. auto.
          * right. assumption. }
    + exact (P_block w rest caps r1 r2 Ea Hm Hr Hr2).
    + apply (IH (List.length rest)) with (s := rest); [|reflexivity | exact Hin].
      rewrite Hn, length_app. destruct w; [contradiction | simpl; lia].
Qed.
End SelfSettledByCases.

(** *** Bearer *)

Definition is_b (c : ascii) : bool := Ascii.eqb (toUpper c) "B".

Lemma space_not_b c : class_test true space c = true -> is_b c = false.
Proof. each_ascii_all c. Qed.

Lemma is_b_letter c : is_b c = true -> letter c = true.
Proof. each_ascii_all c. Qed.

Lemma not_token_facts c :
  class_test true bearer_token c = false -> letter c = false.
Proof. each_ascii_all c. Qed.

Lemma not_value_facts c :
  class_test true keyvalue_value c = false -> letter c = false.
Proof. each_ascii_all c. Qed.

Lemma letter_is_value c :
  letter c = true ->
  class_test true bearer_token c = true /\ class_test true keyvalue_value c = true.
Proof. each_ascii_all c. Qed.

Lemma bearer_head_letters h :
  Matches true bearer_head h ->
  exists a t, h = a :: t /\ is_b a = true /\ Forall (fun c => is_b c = false) t.
Proof.
  intros (B & W & -> & HB & (HW & _)).
  cbn [Matches] in HB. change (list_ascii_of_string "bearer")
    with ("b"%char :: list_ascii_of_string "earer") in HB.
  inversion HB as [|a0 a l B' Ha HB']; subst.
  exists a, (B' ++ W). split; [reflexivity|]. split.
  - unfold eqb_canon, canonicalize in Ha. apply Ascii.eqb_eq in Ha.
    unfold is_b. rewrite <- Ha. reflexivity.
  - apply Forall_app. split.
    + apply (lit_all_spec true (fun c => negb (is_b c)) "earer" B' eq_refl) in HB'.
      eapply Forall_impl; [|exact HB']. intros x Hx. apply negb_true_iff. exact Hx.
    + eapply Forall_impl; [|exact HW]. exact space_not_b.
Qed.

(** A bearer match starts with the letter b. *)
Lemma bearer_first x s : attempt bearer_pass (x :: s) <> None -> is_b x = true.
Proof.
  intros H. destruct (attempt bearer_pass (x :: s)) as [[rest caps]|] eqn:E; [|contradiction].
  destruct (attempt_split bearer_pass _ rest caps E) as (w & Ew & Hm).
  destruct (bearer_split w (MatchesC_Matches _ _ _ _ Hm)) as (h & V & -> & Hh & _).
  destruct (bearer_head_letters h Hh) as (a & t & -> & Ha & _).
  simpl in Ew. injection Ew as -> _. exact Ha.
Qed.

Lemma bearer_run_stops s :
  stops (class_test true bearer_token) s ->
  stops (class_test true bearer_token) (run bearer_pass s).
Proof.
  destruct s as [|c s]; intros H.
  - rewrite (run_nil bearer_pass bearer_progressive). exact I.
  - rewrite run_copy; [exact H|].
    destruct (attempt bearer_pass (c :: s)) eqn:E; [|reflexivity].
    assert (is_b c = true) as Hb by (apply (bearer_first c s); congruence).
    apply is_b_letter in Hb. simpl in H. apply not_token_facts in H. congruence.
Qed.

Lemma bearer_match_first w :
  Matches true bearer_re w ->
  exists b t, w = b :: t /\ class_test true bearer_token b = true.
Proof.
  intros Hw. destruct (bearer_split w Hw) as (h & V & -> & Hh & _).
  destruct (bearer_head_letters h Hh) as (a & t & -> & Ha & _).
  exists a, (t ++ V). split; [reflexivity|].
  apply letter_is_value. apply is_b_letter. exact Ha.
Qed.

Lemma bearer_copy c s :
  attempt bearer_pass (c :: s) = None -> attempt bearer_pass (c :: run bearer_pass s) = None.
Proof.
  intros Hnone.
  destruct (attempt bearer_pass (c :: run bearer_pass s)) as [[rest' caps']|] eqn:E;
    [|reflexivity].
  exfalso.
  destruct (attempt_split bearer_pass _ rest' caps' E) as (w' & Ew & Hm).
  destruct (bearer_split w' (MatchesC_Matches _ _ _ _ Hm)) as (h & V & -> & Hh & HV & HVne).
  destruct V as [|c0 V1]; [contradiction|]. inversion HV as [|? ? Hc0 _]; subst.
  assert (c :: run bearer_pass s = (h ++ [c0]) ++ V1 ++ rest') as Ew0.
  { rewrite Ew, <- !app_assoc. reflexivity. }
  pose proof (bearer_join h c0 Hh Hc0) as Hw0.
  destruct (run_first_block bearer_pass bearer_progressive s)
    as [Hrun | (z & w & rest & caps & -> & Ea & Hmw & Hrun)].
  - rewrite Hrun in Ew0. rewrite Ew0 in Hnone.
    exact (attempt_complete bearer_pass _ _ Hw0 Hnone).
  - rewrite Hrun in Ew0. simpl p_repl in Ew0.
    destruct (app_eq_app (h ++ [c0]) (V1 ++ rest') (c :: z)
                ("B"%char :: list_ascii_of_string "earer ***" ++ run bearer_pass rest)
                (eq_sym Ew0)) as (l & [[E1 E2] | [E1 E2]]).
    + destruct l as [|x l].
      * rewrite app_nil_r in E1.
        apply (attempt_complete bearer_pass _ (w ++ rest) Hw0).
        rewrite E1. exact Hnone.
      * injection E2 as <- E2.
        destruct (bearer_head_letters h Hh) as (a & t & -> & _ & Ht).
        destruct (snoc_through _ _ _ _ _ E1) as [(-> & Eh & ->) | (l' & -> & Eh)].
        -- destruct (bearer_match_first w (MatchesC_Matches _ _ _ _ Hmw))
             as (b & tw & -> & Hb).
           apply (attempt_complete bearer_pass _ (tw ++ rest)
                    (bearer_join (a :: t) b Hh Hb)).
           rewrite <- Hnone. f_equal. rewrite Eh, <- !app_assoc. reflexivity.
        -- injection Eh as -> ->. apply Forall_app in Ht. destruct Ht as [_ Ht].
           inversion Ht as [|? ? HB _]; subst. discriminate HB.
    + apply (attempt_complete bearer_pass _ (l ++ w ++ rest) Hw0).
      rewrite <- Hnone. f_equal.
      change (c :: z ++ w ++ rest) with ((c :: z) ++ w ++ rest).
      rewrite E1, <- !app_assoc. reflexivity.
Qed.

Lemma bearer_block w rest caps r1 r2 :
  attempt bearer_pass (w ++ rest) = Some (rest, caps) ->
  MatchesC true bearer_re w caps ->
  p_repl bearer_pass w caps = r1 ++ r2 -> r2 <> [] ->
  selfmatch bearer_pass (r2 ++ run bearer_pass rest).
Proof.
  intros Ea _ E Hne. simpl in E. unfold selfmatch.
  destruct (attempt bearer_pass (r2 ++ run bearer_pass rest)) as [[rest2 caps2]|] eqn:E2;
    [|exact I].
  destruct r1 as [|a r1].
  - simpl in E. subst r2.
    exists (list_ascii_of_string "Bearer ***"). split; [|reflexivity].
    destruct (attempt_split bearer_pass _ rest2 caps2 E2) as (w2 & Ew2 & Hm2).
    destruct (bearer_split w2 (MatchesC_Matches _ _ _ _ Hm2)) as (h & V & -> & Hh & HV & HVne).
    destruct V as [|x V']; [contradiction|]. inversion HV as [|? ? Hx _]; subst.
    assert (Matches true bearer_head (list_ascii_of_string "Bearer ")) as Hh0.
    { exists (list_ascii_of_string "Bearer"), [" "%char].
      split; [reflexivity|]. split; [repeat constructor|].
      split; [repeat constructor | simpl; lia]. }
    assert (h ++ x :: (V' ++ rest2)
            = list_ascii_of_string "Bearer " ++ "*"%char ::
                ("*"%char :: "*"%char :: run bearer_pass rest)) as Eq.
    { rewrite <- app_assoc in Ew2. simpl in Ew2. rewrite <- Ew2. reflexivity. }
    pose proof (bearer_head_unique _ _ x "*"%char _ _ Hh Hh0 Hx eq_refl Eq) as ->.
    apply app_inv_head in Eq.
    destruct (run_unique (class_test true bearer_token) (x :: V') stars3
                rest2 (run bearer_pass rest)) as [_ ->].
    + exact HV.
    + repeat constructor.
    + exact (attempt_maximal bearer_pass bearer_token _ _ _ eq_refl E2).
    + apply bearer_run_stops.
      exact (attempt_maximal bearer_pass bearer_token _ _ _ eq_refl Ea).
    + exact Eq.
    + reflexivity.
  - exfalso. injection E as _ E.
    destruct (suffix_head (fun c => is_b c = false) r1 r2) as (y & r & -> & Hy).
    + rewrite <- E. repeat constructor.
    + exact Hne.
    + assert (is_b y = true) as Hb.
      { apply (bearer_first y (r ++ run bearer_pass rest)). simpl in E2. congruence. }
      congruence.
Qed.

Lemma bearer_settles s : settled_text bearer_pass (run bearer_pass s).
Proof.
  apply run_settles_by_cases.
  - exact bearer_progressive.
  - exact bearer_copy.
  - exact bearer_block.
Qed.

(** *** Key and value *)

Definition canon (w : list ascii) : list ascii := map toUpper w.

Lemma lit_canon l w :
  Forall2 (fun a c => eqb_canon true a c = true) l w -> canon w = canon l.
Proof.
  induction 1 as [|a c l w Hc Hw IH]; [reflexivity|].
  unfold eqb_canon, canonicalize in Hc. apply Ascii.eqb_eq in Hc.
  simpl. rewrite IH, Hc. reflexivity.
Qed.

Lemma tail_concrete (a z b : list ascii) :
  a = z ++ b ->
  b = skipn (List.length a - List.length b) a /\
  List.length z = List.length a - List.length b.
Proof.
  intros ->. rewrite length_app, Nat.add_sub. split; [|reflexivity].
  rewrite skipn_app, Nat.sub_diag, skipn_all. reflexivity.
Qed.

(** No key word ends with another one. *)
Lemma names_no_suffix K1 K2 pre :
  Matches true keyvalue_names K1 -> Matches true keyvalue_names K2 ->
  K1 = pre ++ K2 -> pre = [].
Proof.
  intros H1 H2 E.
  destruct (names_cases K1 H1) as (l1 & Hl1 & HK1).
  destruct (names_cases K2 H2) as (l2 & Hl2 & HK2).
  apply lit_canon in HK1. apply lit_canon in HK2.
  apply (f_equal canon) in E. unfold canon at 1 2 in E. rewrite map_app in E.
  fold (canon K1) in E. fold (canon K2) in E. rewrite HK1, HK2 in E.
  apply tail_concrete in E. destruct E as [E1 E2]. rewrite length_map in E2.
  unfold keyvalue_words in Hl1, Hl2. simpl in Hl1, Hl2.
  destruct Hl1 as [<-|[<-|[<-|[<-|[<-|[<-|[<-|[<-|[]]]]]]]]];
    destruct Hl2 as [<-|[<-|[<-|[<-|[<-|[<-|[<-|[<-|[]]]]]]]]];
    vm_compute in E1; try discriminate E1;
    (destruct pre; [reflexivity | discriminate E2]).
Qed.

Lemma mark_not_letter c : is_mark c = true -> letter c = false.
Proof. each_ascii_all c. Qed.

Lemma keyvalue_first x s : attempt keyvalue_pass (x :: s) <> None -> letter x = true.
Proof.
  intros H. destruct (attempt keyvalue_pass (x :: s)) as [[rest caps]|] eqn:E; [|contradiction].
  destruct (attempt_split keyvalue_pass _ rest caps E) as (w & Ew & Hm).
  destruct (keyvalue_match_inv w caps Hm) as (K & tail & -> & _ & HK & _).
  pose proof (names_nonempty K HK) as Hne. pose proof (names_letters K HK) as HL.
  destruct K as [|a K]; [contradiction|]. simpl in Ew. injection Ew as -> _.
  inversion HL; assumption.
Qed.

Lemma keyvalue_run_stops s :
  stops (class_test true keyvalue_value) s ->
  stops (class_test true keyvalue_value) (run keyvalue_pass s).
Proof.
  destruct s as [|c s]; intros H.
  - rewrite (run_nil keyvalue_pass keyvalue_progressive). exact I.
  - rewrite run_copy; [exact H|].
    destruct (attempt keyvalue_pass (c :: s)) eqn:E; [|reflexivity].
    assert (letter c = true) as Hb by (apply (keyvalue_first c s); congruence).
    simpl in H. apply not_value_facts in H. congruence.
Qed.

Lemma keyvalue_selfish K :
  Matches true keyvalue_names K -> selfish keyvalue_pass (K ++ ["="%char]).
Proof.
  intros HK w2 caps2 Hm2 E2.
  destruct (keyvalue_match_inv w2 caps2 Hm2)
    as (K2 & tail2 & -> & -> & HK2 & (W1 & sp & t & -> & HW1 & Hsp)).
  simpl. unfold cap. simpl nth.
  rewrite <- app_assoc in E2. simpl in E2. symmetry in E2.
  pose proof (keyvalue_same_key K K2 _ W1 sp t HK HK2 HW1 Hsp E2) as <-.
  rewrite <- E2. reflexivity.
Qed.

(** The key with its masked value is found again as it is. *)
Lemma keyvalue_block_whole K rest :
  Matches true keyvalue_names K ->
  stops (class_test true keyvalue_value) rest ->
  selfmatch keyvalue_pass
    ((K ++ list_ascii_of_string "=***") ++ run keyvalue_pass rest).
Proof.
  intros HK Hstop. unfold selfmatch.
  destruct (attempt keyvalue_pass ((K ++ list_ascii_of_string "=***") ++ run keyvalue_pass rest))
    as [[rest2 caps2]|] eqn:E2; [|exact I].
  destruct (attempt_split keyvalue_pass _ rest2 caps2 E2) as (w2 & Ew2 & Hm2).
  destruct (keyvalue_split w2 (MatchesC_Matches _ _ _ _ Hm2)) as (h & V & -> & Hh & HV & HVne).
  destruct V as [|x V']; [contradiction|]. inversion HV as [|? ? Hx _]; subst.
  assert (Matches true keyvalue_head (K ++ ["="%char])) as Hh0.
  { apply (keyvalue_head_intro K [] "="%char []); auto. }
  assert (h ++ x :: (V' ++ rest2)
          = (K ++ ["="%char]) ++ "*"%char ::
              ("*"%char :: "*"%char :: run keyvalue_pass rest)) as Eq.
  { transitivity ((h ++ x :: V') ++ rest2); [rewrite <- app_assoc; reflexivity|].
    rewrite <- Ew2. rewrite <- !app_assoc. reflexivity. }
  pose proof (keyvalue_head_unique _ _ x "*"%char _ _ Hh Hh0 Hx eq_refl Eq) as ->.
  apply app_inv_head in Eq.
  destruct (run_unique (class_test true keyvalue_value) (x :: V') stars3
              rest2 (run keyvalue_pass rest)) as [EV ->].
  - exact HV.
  - repeat constructor.
  - exact (attempt_maximal keyvalue_pass keyvalue_value _ _ _ eq_refl E2).
  - apply keyvalue_run_stops. exact Hstop.
  - exact Eq.
  - exists ((K ++ ["="%char]) ++ x :: V'). split.
    + rewrite EV. rewrite <- !app_assoc. reflexivity.
    + apply (keyvalue_selfish K HK); [exact Hm2 | rewrite EV; reflexivity].
Qed.

Lemma keyvalue_block w rest caps r1 r2 :
  attempt keyvalue_pass (w ++ rest) = Some (rest, caps) ->
  MatchesC true keyvalue_re w caps ->
  p_repl keyvalue_pass w caps = r1 ++ r2 -> r2 <> [] ->
  selfmatch keyvalue_pass (r2 ++ run keyvalue_pass rest).
Proof.
  intros Ea Hm E Hne.
  pose proof (attempt_maximal keyvalue_pass keyvalue_value _ _ _ eq_refl Ea) as Hstop.
  destruct (keyvalue_match_inv w caps Hm) as (K & tail & -> & -> & HK & _).
  simpl in E. unfold cap in E. simpl nth in E.
  assert (forall y r, r2 = y :: r -> letter y = false ->
                      selfmatch keyvalue_pass (r2 ++ run keyvalue_pass rest)) as Hmark.
  { intros y r -> Hy. unfold selfmatch.
    destruct (attempt keyvalue_pass ((y :: r) ++ run keyvalue_pass rest)) eqn:E2; [|exact I].
    assert (letter y = true) as Hl.
    { apply (keyvalue_first y (r ++ run keyvalue_pass rest)). simpl in E2. congruence. }
    congruence. }
  destruct (app_eq_app r1 r2 K (list_ascii_of_string "=***") (eq_sym E))
    as (l & [[E1 E2] | [E1 E2]]).
  - destruct (suffix_head (fun c => is_mark c = true) l r2) as (y & r & Ey & Hy).
    + rewrite <- E2. repeat constructor.
    + exact Hne.
    + apply (Hmark y r Ey). apply mark_not_letter. exact Hy.
  - destruct l as [|a l].
    + simpl in E2. apply (Hmark "="%char (list_ascii_of_string "***") E2). reflexivity.
    + destruct r1 as [|b r1].
      * simpl in E1. subst K. subst r2. apply keyvalue_block_whole; assumption.
      * unfold selfmatch.
        destruct (attempt keyvalue_pass (r2 ++ run keyvalue_pass rest))
          as [[rest2 caps2]|] eqn:E3; [|exact I].
        exfalso.
        destruct (attempt_split keyvalue_pass _ rest2 caps2 E3) as (w2 & Ew2 & Hm2).
        destruct (keyvalue_match_inv w2 caps2 Hm2)
          as (K2 & tail2 & -> & _ & HK2 & (W1 & sp & t & -> & HW1 & Hsp)).
        pose proof (names_letters K HK) as HL. rewrite E1 in HL.
        apply Forall_app in HL. destruct HL as [_ HL].
        assert ((a :: l) ++ "="%char :: (list_ascii_of_string "***" ++ run keyvalue_pass rest)
                = K2 ++ W1 ++ sp :: (t ++ rest2)) as Eq.
        { rewrite E2 in Ew2.
          transitivity (((a :: l) ++ list_ascii_of_string "=***") ++ run keyvalue_pass rest);
            [rewrite <- app_assoc; reflexivity|].
          rewrite Ew2, <- !app_assoc. reflexivity. }
        destruct (run_unique letter (a :: l) K2 _ _ HL (names_letters K2 HK2)
                    (stops_letter_tail [] "="%char _ (Forall_nil _) eq_refl)
                    (stops_letter_tail W1 sp _ HW1 Hsp) Eq) as [EK _].
        rewrite EK in E1.
        pose proof (names_no_suffix K K2 (b :: r1) HK HK2 E1) as Hpre. discriminate Hpre.
Qed.

Lemma keyvalue_copy c s :
  attempt keyvalue_pass (c :: s) = None ->
  attempt keyvalue_pass (c :: run keyvalue_pass s) = None.
Proof.
  intros Hnone.
  destruct (attempt keyvalue_pass (c :: run keyvalue_pass s)) as [[rest' caps']|] eqn:E;
    [|reflexivity].
  exfalso.
  destruct (attempt_split keyvalue_pass _ rest' caps' E) as (w' & Ew & Hm).
  destruct (keyvalue_split w' (MatchesC_Matches _ _ _ _ Hm)) as (h & V & -> & Hh & HV & HVne).
  destruct V as [|c0 V1]; [contradiction|]. inversion HV as [|? ? Hc0 _]; subst.
  assert (c :: run keyvalue_pass s = (h ++ [c0]) ++ V1 ++ rest') as Ew0.
  { rewrite Ew, <- !app_assoc. reflexivity. }
  pose proof (keyvalue_join h c0 Hh Hc0) as Hw0.
  destruct (run_first_block keyvalue_pass keyvalue_progressive s)
    as [Hrun | (z & w & rest & caps & -> & Ea & Hmw & Hrun)].
  - rewrite Hrun in Ew0. rewrite Ew0 in Hnone.
    exact (attempt_complete keyvalue_pass _ _ Hw0 Hnone).
  - rewrite Hrun in Ew0.
    destruct (keyvalue_match_inv w caps Hmw) as (K & tail & -> & -> & HK & _).
    simpl p_repl in Ew0. unfold cap in Ew0. simpl nth in Ew0.
    assert ((h ++ [c0]) ++ V1 ++ rest'
            = ((c :: z) ++ K) ++ "="%char :: list_ascii_of_string "***" ++
                run keyvalue_pass rest) as Eq.
    { rewrite <- Ew0. simpl. rewrite <- !app_assoc. reflexivity. }
    assert (c :: z ++ (K ++ tail) ++ rest = ((c :: z) ++ K) ++ tail ++ rest) as Eorig.
    { simpl. rewrite <- !app_assoc. reflexivity. }
    rewrite Eorig in Hnone.
    destruct (last_char_of (fun x => class_test false email_local x = true) K
                (last_char (c :: z) None) (names_nonempty K HK)
                (names_all (class_test false email_local) K eq_refl HK))
      as (y & Ey & Hy).
    destruct (app_eq_app _ _ _ _ Eq) as (l & [[E1 E2] | [E1 E2]]).
    + destruct l as [|x l].
      * rewrite app_nil_r in E1.
        apply (attempt_complete keyvalue_pass _ (tail ++ rest) Hw0).
        rewrite E1. exact Hnone.
      * injection E2 as <- E2.
        destruct (snoc_through _ _ _ _ _ E1) as [(-> & Eh & ->) | (l' & -> & Eh)].
        -- apply (keyvalue_head_last h None Hh).
           rewrite Eh, last_char_app, Ey. exists y. auto.
        -- destruct (keyvalue_head_shape h Hh)
             as (K' & W1 & sp & W2 & -> & HK' & HW1 & Hsp & HW2).
           assert (Forall (fun x => letter x = false) (W1 ++ sp :: W2)) as Hnl.
           { apply Forall_app. split; [|constructor].
             - eapply Forall_impl; [|exact HW1]. intros a Ha. apply (space_facts a Ha).
             - apply (sep_facts sp Hsp).
             - eapply Forall_impl; [|exact HW2]. intros a Ha. apply (space_facts a Ha). }
           destruct (app_eq_app _ _ _ _ Eh) as (l3 & [[F1 F2] | [F1 F2]]).
           ++ destruct l3 as [|x3 l3].
              ** rewrite app_nil_r in F1.
                 pose proof (names_no_suffix K' K (c :: z) HK' HK F1) as Hpre.
                 discriminate Hpre.
              ** injection F2 as <- F2.
                 pose proof (names_letters K' HK') as HL. rewrite F1 in HL.
                 apply Forall_app in HL. destruct HL as [_ HL].
                 inversion HL as [|? ? Hq _]; subst. discriminate Hq.
           ++ destruct l3 as [|x3 l3].
              ** rewrite app_nil_r in F1. symmetry in F1.
                 pose proof (names_no_suffix K' K (c :: z) HK' HK F1) as Hpre.
                 discriminate Hpre.
              ** rewrite F2 in Hnl. apply Forall_app in Hnl. destruct Hnl as [Hnl _].
                 destruct (last_char_of (fun x => letter x = false) (x3 :: l3)
                             (last_char K' None) ltac:(discriminate) Hnl) as (q & Eq3 & Hq).
                 apply (f_equal (fun w => last_char w None)) in F1.
                 rewrite !last_char_app, Ey, Eq3 in F1. injection F1 as ->.
                 pose proof (names_letters K HK) as HLK.
                 destruct (last_char_of (fun x => letter x = true) K
                             (last_char (c :: z) None) (names_nonempty K HK) HLK)
                   as (y2 & Ey2 & Hy2).
                 rewrite Ey in Ey2. injection Ey2 as <-. congruence.
    + apply (attempt_complete keyvalue_pass _ (l ++ tail ++ rest) Hw0).
      rewrite <- Hnone. f_equal. rewrite E1, <- !app_assoc. reflexivity.
Qed.

Lemma keyvalue_settles s : settled_text keyvalue_pass (run keyvalue_pass s).
Proof.
  apply run_settles_by_cases.
  - exact keyvalue_progressive.
  - exact keyvalue_copy.
  - exact keyvalue_block.
Qed.

(* ------------------------------------------------------------------ *)
(** ** The six passes together *)

Definition scrub (s : list ascii) : list ascii :=
  run email_pass (run base64_pass (run hex_pass (run code_pass
    (run keyvalue_pass (run bearer_pass s))))).

Lemma redactString_scrub s :
  redactString s = string_of_list_ascii (scrub (list_ascii_of_string s)).
Proof.
  unfold redactString, maskEmail, maskBase64, maskHex, maskCode, maskKeyValue,
    maskBearer, replace_all, scrub, run.
  rewrite !list_ascii_of_string_of_list_ascii. reflexivity.
Qed.

(** The output of the six passes is settled for the first five, and the
    sixth changes nothing in it. *)
Lemma scrub_settled s :
  settled_text bearer_pass (scrub s) /\ settled_text keyvalue_pass (scrub s) /\
  settled_text code_pass (scrub s) /\ settled_text hex_pass (scrub s) /\
  settled_text base64_pass (scrub s) /\ run email_pass (scrub s) = scrub s.
Proof.
  unfold scrub.
  set (o1 := run bearer_pass s). set (o2 := run keyvalue_pass o1).
  set (o3 := run code_pass o2). set (o4 := run hex_pass o3).
  set (o5 := run base64_pass o4).
  split; [|split; [|split; [|split; [|split]]]].
  - apply (bearer_keeps_settled false None o5); [apply email_sync|].
    apply (bearer_keeps_settled false None o4); [apply base64_sync|].
    apply (bearer_keeps_settled false None o3); [apply hex_sync|].
    apply (bearer_keeps_settled false None o2); [apply code_sync|].
    apply (bearer_keeps_settled true None o1); [apply keyvalue_sync|].
    apply bearer_settles.
  - apply (keyvalue_keeps_settled None o5); [apply email_sync|].
    apply (keyvalue_keeps_settled None o4); [apply base64_sync|].
    apply (keyvalue_keeps_settled None o3); [apply hex_sync|].
    apply (keyvalue_keeps_settled None o2); [apply code_sync|].
    apply keyvalue_settles.
  - apply (sync_keeps_settled code_pass code_progressive code_starfree code_changes
             None o5); [apply email_sync|].
    apply (sync_keeps_settled code_pass code_progressive code_starfree code_changes
             None o4); [apply base64_sync|].
    apply (sync_keeps_settled code_pass code_progressive code_starfree code_changes
             None o3); [apply hex_sync|].
    apply code_settles.
  - apply (sync_keeps_settled hex_pass hex_progressive hex_starfree hex_changes
             None o5); [apply email_sync|].
    apply (sync_keeps_settled hex_pass hex_progressive hex_starfree hex_changes
             None o4); [apply base64_sync|].
    apply hex_settles.
  - apply (sync_keeps_settled base64_pass base64_progressive base64_starfree base64_changes
             None o5); [apply email_sync|].
    apply base64_settles.
  - apply email_run_idem.
Qed.

Lemma scrub_idem s : scrub (scrub s) = scrub s.
Proof.
  destruct (scrub_settled s) as (H1 & H2 & H3 & H4 & H5 & H6).
  unfold scrub at 1.
  rewrite (run_settled bearer_pass bearer_progressive _ H1).
  rewrite (run_settled keyvalue_pass keyvalue_progressive _ H2).
  rewrite (run_settled code_pass code_progressive _ H3).
  rewrite (run_settled hex_pass hex_progressive _ H4).
  rewrite (run_settled base64_pass base64_progressive _ H5).
  exact H6.
Qed.

Lemma redactString_again s : redactString (redactString s) = redactString s.
Proof.
  rewrite !redactString_scrub.
  rewrite list_ascii_of_string_of_list_ascii, scrub_idem. reflexivity.
Qed.

(** C7.  [redactString] is idempotent: for every string [s], applying it
    to its own output gives that output again.  The first five passes find
    nothing to change in the output of the six, and the email pass finds
    there only addresses whose local part it has already replaced. *)
Theorem redactString_idempotent : forall s : string,
  redactString (redactString s) = redactString s.
Proof. exact redactString_again. Qed.

(* ------------------------------------------------------------------ *)
(** ** The order of the passes *)

Definition hex32 : string := "0123456789abcdef0123456789abcdef".
Definition digits29 : string := "01234567890123456789012345678".
Definition digits32 : string := "01234567890123456789012345678901".

(** A text the bearer pattern matches as a whole is replaced as a whole:
    the match the scan finds at its beginning is the longest one. *)
Lemma bearer_whole w :
  Matches true bearer_re w ->
  run bearer_pass w = list_ascii_of_string "Bearer ***".
Proof.
  intros Hw.
  destruct (attempt bearer_pass (w ++ [])) as [[rest caps]|] eqn:Ea;
    [|exfalso; exact (attempt_complete bearer_pass w [] Hw Ea)].
  destruct (attempt_split bearer_pass _ _ _ Ea) as (w' & E & Hm).
  pose proof (attempt_maximal bearer_pass bearer_token _ _ _ eq_refl Ea) as Hstop.
  destruct (bearer_split w Hw) as (h & V & Ew & Hh & HV & HVn).
  destruct (bearer_split w' (MatchesC_Matches _ _ _ _ Hm))
    as (h' & V' & Ew' & Hh' & HV' & HVn').
  destruct V as [|x t]; [contradiction|].
  destruct V' as [|y t']; [contradiction|].
  assert (h ++ x :: (t ++ []) = h' ++ y :: (t' ++ rest)) as E'.
  { rewrite Ew, Ew' in E. rewrite <- !app_assoc in E. exact E. }
  assert (h = h') as <-.
  { apply (bearer_head_unique h h' x y (t ++ []) (t' ++ rest)); try assumption.
    - inversion HV; assumption.
    - inversion HV'; assumption. }
  apply app_inv_head in E'.
  destruct (run_unique (class_test true bearer_token) (x :: t) (y :: t') [] rest
              HV HV' I Hstop E') as [EV Er].
  rewrite <- Er in E. rewrite !app_nil_r in E. rewrite <- E in Hm.
  rewrite <- Er in Ea.
  pose proof (run_match bearer_pass w [] caps bearer_progressive Ea Hm) as Hrun.
  rewrite app_nil_r in Hrun. exact Hrun.
Qed.

Lemma maskBearer_whole w :
  Matches true bearer_re w ->
  maskBearer (string_of_list_ascii w) = "Bearer ***"%string.
Proof.
  intros Hw. unfold maskBearer, replace_all.
  rewrite list_ascii_of_string_of_list_ascii.
  change (replace_from true bearer_re
            (fun _ _ => list_ascii_of_string "Bearer ***") 0 w)
    with (run bearer_pass w).
  rewrite (bearer_whole w Hw). reflexivity.
Qed.

Lemma sample_header_matches :
  Matches true bearer_re (list_ascii_of_string "Bearer abc123def456").
Proof.
  destruct (attempt bearer_pass (list_ascii_of_string "Bearer abc123def456"))
    as [[rest caps]|] eqn:Ea; [|vm_compute in Ea; discriminate Ea].
  destruct (attempt_split bearer_pass _ _ _ Ea) as (w & E & Hm).
  assert (rest = []) as -> by (vm_compute in Ea; congruence).
  rewrite app_nil_r in E. rewrite E.
  exact (MatchesC_Matches _ _ _ _ Hm).
Qed.

(** C8, as the code has it.  [redactString] is the six passes in the order
    bearer, key=value, labelled code, long hex, long base64, email, and
    the order can be seen: for every two neighbouring passes there is a
    text on which they give different results when exchanged, and
    [redactString] gives the result of the listed order.
    Every text that the bearer pattern matches as a whole (the word
    bearer in any case, white space, and a token of whatever kind) is
    turned by the bearer pass into the placeholder, and no later pass
    rewrites a placeholder that stands alone: the sample header and a
    header with a token of 32 hex digits both end as the placeholder.
    Nothing is said of a placeholder with text before it. *)
Theorem scrub_order :
  (forall s, redactString s
             = maskEmail (maskBase64 (maskHex (maskCode (maskKeyValue (maskBearer s)))))) /\
  (forall w, Matches true bearer_re w ->
             maskBearer (string_of_list_ascii w) = "Bearer ***"%string /\
             redactString (string_of_list_ascii w) = "Bearer ***"%string) /\
  redactString "Bearer abc123def456" = "Bearer ***"%string /\
  redactString ("Bearer " ++ hex32) = "Bearer ***"%string /\
  (maskKeyValue (maskBearer "authorization: bearer abc") = "authorization=*** ***"%string /\
   maskBearer (maskKeyValue "authorization: bearer abc") = "authorization=*** abc"%string /\
   redactString "authorization: bearer abc" = "authorization=*** ***"%string) /\
  (maskCode (maskKeyValue "pass:code 1234") = "pass=*** 1234"%string /\
   maskKeyValue (maskCode "pass:code 1234") = "pass=*** ******"%string /\
   redactString "pass:code 1234" = "pass=*** 1234"%string) /\
  (maskHex (maskCode ("otp " ++ digits32)) = "otp ******890123456789012345678901"%string /\
   maskCode (maskHex ("otp " ++ digits32)) = "otp ***"%string /\
   redactString ("otp " ++ digits32) = "otp *********"%string) /\
  (maskBase64 (maskHex (digits32 ++ "=")) = "***="%string /\
   maskHex (maskBase64 (digits32 ++ "=")) = "***"%string /\
   redactString (digits32 ++ "=") = "***="%string) /\
  (maskEmail (maskBase64 "abcdefghijklmnopqrstuvwxyz@example.com") = "***@example.com"%string /\
   maskBase64 (maskEmail "abcdefghijklmnopqrstuvwxyz@example.com") = "a***@example.com"%string /\
   redactString "abcdefghijklmnopqrstuvwxyz@example.com" = "***@example.com"%string).
Proof.
  split; [reflexivity|]. split.
  - intros w Hw. pose proof (maskBearer_whole w Hw) as E. split; [exact E|].
    unfold redactString. rewrite E. vm_compute. reflexivity.
  - repeat split; vm_compute; reflexivity.
Qed.

Lemma scrub_order_witness :
  Matches true bearer_re (list_ascii_of_string "Bearer abc123def456") /\
  maskBearer "Bearer abc123def456" = "Bearer ***"%string /\
  redactString "Bearer abc123def456" = "Bearer ***"%string.
Proof.
  split; [exact sample_header_matches|].
  destruct scrub_order as [_ [H _]].
  exact (H (list_ascii_of_string "Bearer abc123def456") sample_header_matches).
Defined.

(** C8 as stated fails: a later pass does rewrite the placeholder of the
    bearer pass when text stands before it.  After 29 digits the long-hex
    pass takes the first three letters of the placeholder with them, and
    after a key word and a colon the key=value pass takes its first word
    as the value. *)
Lemma placeholder_rewritten :
  maskBearer (digits29 ++ "Bearer abc123def456")
  = (digits29 ++ "Bearer ***")%string /\
  maskCode (maskKeyValue (digits29 ++ "Bearer ***"))
  = (digits29 ++ "Bearer ***")%string /\
  maskHex (digits29 ++ "Bearer ***") = "***rer ***"%string /\
  redactString (digits29 ++ "Bearer abc123def456") = "***rer ***"%string /\
  maskBearer "authorization: Bearer abc123def456"
  = "authorization: Bearer ***"%string /\
  maskKeyValue "authorization: Bearer ***" = "authorization=*** ***"%string /\
  redactString "authorization: Bearer abc123def456"
  = "authorization=*** ***"%string.
Proof. repeat split; vm_compute; reflexivity. Qed.

(* ------------------------------------------------------------------ *)
(** ** The email mask under an identifier key *)

Lemma maskEmail_run s :
  maskEmail s = string_of_list_ascii (run email_pass (list_ascii_of_string s)).
Proof. reflexivity. Qed.

Lemma maskEmail_idem s : maskEmail (maskEmail s) = maskEmail s.
Proof.
  rewrite !maskEmail_run, list_ascii_of_string_of_list_ascii, email_run_idem.
  reflexivity.
Qed.

(** An address: a first character an address can start with, a local
    part without at-sign and white space, a domain and letters after its
    last dot. *)
Definition email_address (c : ascii) (N Dm Tld : list ascii) : Prop :=
  class_test false email_local c = true /\
  Forall (fun x => class_test false email_mid x = true) N /\
  Forall (fun x => class_test false email_domain x = true) Dm /\ Dm <> [] /\
  Forall (fun x => class_test false email_letter x = true) Tld /\
  2 <= List.length Tld.

Lemma email_address_choice c N Dm Tld :
  email_address c N Dm Tld -> email_choice c N Dm Tld [].
Proof.
  intros (Hc & HN & HD & HDne & HT & HTl).
  repeat split; auto.
  intros u v Euv Hne Hu (l1 & l2 & v' & -> & _).
  destruct u as [|x u]; [contradiction|].
  simpl in Euv. injection Euv as _ Euv. rewrite app_nil_r in Euv.
  rewrite Euv in HT. apply Forall_app in HT. destruct HT as [_ HT].
  inversion HT as [|? ? Hdot _]; subst. vm_compute in Hdot. discriminate Hdot.
Qed.

Lemma maskEmail_address c N Dm Tld :
  email_address c N Dm Tld ->
  maskEmail (string_of_list_ascii (c :: N ++ "@"%char :: Dm ++ "."%char :: Tld))
  = string_of_list_ascii (c :: stars3 ++ "@"%char :: Dm ++ "."%char :: Tld).
Proof.
  intros Ha. rewrite maskEmail_run, list_ascii_of_string_of_list_ascii. f_equal.
  pose proof (email_attempt_intro c N Dm Tld [] (email_address_choice c N Dm Tld Ha)) as Ea.
  rewrite app_nil_r in Ea.
  assert (attempt email_pass ((c :: N ++ "@"%char :: Dm ++ "."%char :: Tld) ++ [])
          = Some ([], [[c]; "@"%char :: Dm ++ "."%char :: Tld])) as Ea2
    by (rewrite app_nil_r; exact Ea).
  destruct (attempt_split email_pass _ _ _ Ea2) as (w & Ew & Hm).
  apply app_inv_tail in Ew. subst w.
  pose proof (run_match email_pass _ _ _ email_progressive Ea2 Hm) as Hrun.
  rewrite app_nil_r, (run_nil email_pass email_progressive), app_nil_r in Hrun.
  exact Hrun.
Qed.

Lemma maskEmail_no_at s :
  (forall c, In c (list_ascii_of_string s) -> c <> "@"%char) -> maskEmail s = s.
Proof.
  intros Hno. rewrite maskEmail_run.
  rewrite (run_settled email_pass email_progressive).
  - apply string_of_list_ascii_of_string.
  - intros t Ht. unfold selfmatch.
    destruct (attempt email_pass t) as [[rest caps]|] eqn:E; [|exact I].
    exfalso. apply suffixes_spec in Ht. destruct Ht as (pre & Es).
    destruct (email_attempt_inv t rest caps E) as (c & N & Dm & Tld & -> & _).
    apply (Hno "@"%char); [|reflexivity].
    rewrite Es. apply in_or_app. right. right. apply in_or_app. right. left. reflexivity.
Qed.

Lemma redactScalar_identifier K S :
  In (toLowerCase K) ["email"; "appleid"; "apple_id"; "username"; "user"]%string ->
  redactScalar K (VStr S) = VStr (maskEmail S).
Proof.
  intros HK. rewrite redactScalar_unfold. cbv zeta.
  simpl in HK.
  destruct HK as [<-|[<-|[<-|[<-|[<-|[]]]]]]; reflexivity.
Qed.

Lemma sanitize_identifier (heap : Heap) (d : nat) (K S : string) :
  3 <= d ->
  In (toLowerCase K) ["email"; "appleid"; "apple_id"; "username"; "user"]%string ->
  sanitizeArgs heap d [VObj [(K, VStr S)]] = [VObj [(K, VStr (maskEmail S))]].
Proof.
  intros Hd HK. unfold sanitizeArgs. cbn [map]. f_equal.
  rewrite sanitizeArg_clean; try assumption; try reflexivity.
  - simpl. unfold map_keyed. simpl. rewrite (redactScalar_identifier K S HK). reflexivity.
  - simpl. split; [|exact I].
    rewrite !(redactScalar_identifier K _ HK). rewrite maskEmail_idem. reflexivity.
Qed.

(** Data that [JSON.stringify] writes in full: no undefined, no BigInt,
    nothing shared.  (A number that JSON text cannot hold is written too,
    as [null] or [0].) *)
Fixpoint json_data (v : Value) : bool :=
  match v with
  | VArr items => forallb json_data items
  | VObj props => forallb (fun kv => json_data (snd kv)) props
  | VNull | VBool _ | VNum _ | VNonJson _ | VStr _ => true
  | VUndefined | VBigInt _ | VRef _ => false
  end.

(** The replacer's answer on a scalar is one it gives again. *)
Lemma redactScalar_idem key v :
  scalar v = true -> redactScalar key (redactScalar key v) = redactScalar key v.
Proof.
  intros Hs. destruct v; try discriminate Hs.
  - rewrite !redactScalar_unfold. reflexivity.
  - rewrite !redactScalar_unfold. reflexivity.
  - rewrite (redactScalar_unfold key (VNum n)). cbv zeta.
    destruct (includes numeric_code_names (toLowerCase key)) eqn:E;
      rewrite redactScalar_unfold; cbv zeta; rewrite E; reflexivity.
  - rewrite (redactScalar_unfold key (VStr s)). cbv zeta.
    destruct (includes sensitive_names (toLowerCase key)) eqn:E1;
      [rewrite redactScalar_unfold; cbv zeta; rewrite E1; reflexivity|].
    destruct (includes code_names (toLowerCase key)) eqn:E2;
      [rewrite redactScalar_unfold; cbv zeta; rewrite E1, E2; reflexivity|].
    destruct (includes identifier_names (toLowerCase key)) eqn:E3;
      rewrite redactScalar_unfold; cbv zeta; rewrite E1, E2, E3.
    + rewrite maskEmail_idem. reflexivity.
    + rewrite redactString_again. reflexivity.
Qed.

Lemma json_data_settled v : json_data v = true -> forall key, settled key v.
Proof.
  induction v as [v Hv | l | items IH | props IH] using Value_induction;
    intros Hj key.
  - destruct v; try discriminate Hj; try discriminate Hv;
      simpl; try exact I; apply redactScalar_idem; reflexivity.
  - discriminate Hj.
  - simpl in Hj |- *. generalize 0 as i.
    induction IH as [|x l Hx Hl IHl]; intros i; simpl; [exact I|].
    simpl in Hj. apply andb_true_iff in Hj. destruct Hj as [H1 H2].
    split; [exact (Hx H1 _) | exact (IHl H2 _)].
  - simpl in Hj |- *.
    induction IH as [|[k x] l Hx Hl IHl]; simpl; [exact I|].
    simpl in Hj. apply andb_true_iff in Hj. destruct Hj as [H1 H2].
    split; [exact (Hx H1 _) | exact (IHl H2)].
Qed.

(** On such data, with two frames more than the value is high,
    [sanitizeArgs] applies the replacer's rule to every scalar, under the
    key of the property (or the index of the element) that holds it. *)
Lemma sanitize_json_data (heap : Heap) (d : nat) (v : Value) :
  json_data v = true -> container v = true -> height v + 2 <= d ->
  sanitizeArgs heap d [v] = [clean "" v].
Proof.
  intros Hj Hc Hd. unfold sanitizeArgs. cbn [map]. f_equal.
  apply sanitizeArg_clean; [apply json_data_settled; exact Hj | exact Hc | exact Hd].
Qed.

(** C6, as the code has it.  For every key that is, up to case, one of
    email, appleid, apple_id, username, user and every string, the
    one-entry mapping under that key is sanitized to the same mapping with
    [maskEmail] of the string as value (any stack bound of at least three
    frames).  The same holds for such a property wherever it stands: data
    without undefined, BigInt and sharing is sanitized to [clean] of it,
    and [clean] puts [maskEmail] of the string under such a key.
    What [maskEmail] does depends on the string: if the string is an
    address, its first character and everything from the at-sign on are
    kept and the rest of the local part becomes three stars; a string
    without at-sign is not masked at all, it comes back as it is.  The
    sample mapping [{email: <dq>user@example.com<dq>}] becomes
    [{email: <dq>u***@example.com<dq>}]. *)
Theorem sanitize_identifier_key (heap : Heap) (d : nat) (K S : string) :
  3 <= d ->
  In (toLowerCase K) ["email"; "appleid"; "apple_id"; "username"; "user"]%string ->
  sanitizeArgs heap d [VObj [(K, VStr S)]] = [VObj [(K, VStr (maskEmail S))]] /\
  (forall v, json_data v = true -> container v = true -> height v + 2 <= d ->
             sanitizeArgs heap d [v] = [clean "" v]) /\
  clean K (VStr S) = VStr (maskEmail S) /\
  (forall c N Dm Tld,
      email_address c N Dm Tld ->
      S = string_of_list_ascii (c :: N ++ "@"%char :: Dm ++ "."%char :: Tld) ->
      maskEmail S
      = string_of_list_ascii (c :: stars3 ++ "@"%char :: Dm ++ "."%char :: Tld)) /\
  ((forall c, In c (list_ascii_of_string S) -> c <> "@"%char) -> maskEmail S = S) /\
  sanitizeArgs heap d [VObj [("email"%string, VStr "user@example.com")]]
  = [VObj [("email"%string, VStr "u***@example.com")]].
Proof.
  intros Hd HK. split; [|split; [|split; [|split; [|split]]]].
  - apply sanitize_identifier; assumption.
  - intros v. apply sanitize_json_data.
  - simpl. apply redactScalar_identifier. exact HK.
  - intros c N Dm Tld Ha ->. apply maskEmail_address. exact Ha.
  - apply maskEmail_no_at.
  - apply (sanitize_identifier heap d "email" "user@example.com" Hd).
    simpl. tauto.
Qed.

Lemma sanitize_identifier_key_witness :
  sanitizeArgs empty_heap 3 [VObj [("Email"%string, VStr "user@example.com")]]
  = [VObj [("Email"%string, VStr "u***@example.com")]] /\
  sanitizeArgs empty_heap 3 [VObj [("username"%string, VStr "alice")]]
  = [VObj [("username"%string, VStr "alice")]].
Proof.
  split.
  - destruct (sanitize_identifier_key empty_heap 3 "Email" "user@example.com")
      as [H _]; [lia | vm_compute; tauto | exact H].
  - destruct (sanitize_identifier_key empty_heap 3 "username" "alice")
      as [H _]; [lia | vm_compute; tauto | exact H].
Defined.

(** C6 as stated fails: a string that is no address is not masked under an
    identifier key.  At every depth the user name comes back whole, and so
    does a string that [redactString] would have scrubbed. *)
Lemma sanitize_identifier_unmasked :
  (forall d, sanitizeArgs empty_heap d [VObj [("username"%string, VStr "bob")]]
             = [VObj [("username"%string, VStr "bob")]]) /\
  (forall d, sanitizeArgs empty_heap d [VObj [("USER"%string, VStr "token=abc")]]
             = [VObj [("USER"%string, VStr "token=abc")]]) /\
  redactString "token=abc" = "token=***"%string.
Proof.
  split; [|split]; [intros d | intros d | vm_compute; reflexivity].
  - destruct (le_lt_dec 3 d) as [Hd|Hd].
    + rewrite (sanitize_identifier empty_heap d "username" "bob" Hd);
        [vm_compute; reflexivity | simpl; tauto].
    + destruct d as [|[|[|d]]]; [reflexivity | reflexivity | reflexivity | lia].
  - destruct (le_lt_dec 3 d) as [Hd|Hd].
    + rewrite (sanitize_identifier empty_heap d "USER" "token=abc" Hd);
        [vm_compute; reflexivity | simpl; tauto].
    + destruct d as [|[|[|d]]]; [reflexivity | reflexivity | reflexivity | lia].
Qed.

(* ------------------------------------------------------------------ *)
(** * What the scrubbed text still holds *)

Lemma scrubbed_text s :
  list_ascii_of_string (redactString s) = scrub (list_ascii_of_string s).
Proof. rewrite redactString_scrub. apply list_ascii_of_string_of_list_ascii. Qed.

Lemma part_is_suffix (o pre w post : list ascii) :
  o = pre ++ w ++ post -> In (w ++ post) (suffixes o).
Proof. intros ->. apply suffixes_spec. exists pre. reflexivity. Qed.

(** In a text settled for a pass whose matches it always rewrites, no
    part is matched by the pattern of the pass. *)
Lemma settled_no_part P :
  (forall w caps, MatchesC (p_ic P) (p_re P) w caps -> p_repl P w caps <> w) ->
  forall o, settled_text P o ->
  forall pre w post, o = pre ++ w ++ post -> ~ Matches (p_ic P) (p_re P) w.
Proof.
  intros Hch o Ho pre w post E Hm.
  apply (attempt_complete P w post Hm).
  exact (settled_is_unmatched P Hch o Ho _ (part_is_suffix o pre w post E)).
Qed.

(** X1.  Whatever the input, no part of the scrubbed text is a labelled
    code of four to eight digits, a run of 32 or more hex digits or a run
    of 20 or more base64 characters: none of the three patterns matches
    anywhere in the output of [redactString]. *)
Theorem scrubbed_holds_no_long_run (s : string) (pre w post : list ascii) :
  list_ascii_of_string (redactString s) = pre ++ w ++ post ->
  ~ Matches true code_re w /\ ~ Matches true hex_re w /\ ~ Matches false base64_re w.
Proof.
  rewrite scrubbed_text. intros E.
  destruct (scrub_settled (list_ascii_of_string s)) as (_ & _ & H3 & H4 & H5 & _).
  split; [|split].
  - exact (settled_no_part code_pass code_changes _ H3 pre w post E).
  - exact (settled_no_part hex_pass hex_changes _ H4 pre w post E).
  - exact (settled_no_part base64_pass base64_changes _ H5 pre w post E).
Qed.

Lemma scrubbed_holds_no_long_run_witness :
  ~ Matches true code_re (list_ascii_of_string "otp: ******") /\
  ~ Matches true hex_re (list_ascii_of_string "otp: ******") /\
  ~ Matches false base64_re (list_ascii_of_string "otp: ******").
Proof.
  apply (scrubbed_holds_no_long_run
           "id 0123456789abcdef0123456789abcdef otp: 123456 ok"
           (list_ascii_of_string "id *** ")
           (list_ascii_of_string "otp: ******")
           (list_ascii_of_string " ok")).
  vm_compute. reflexivity.
Defined.

(** A run of [p] that starts a text which is [S3] followed by a text that
    stops [p] lies within [S3]. *)
Lemma run_prefix (p : ascii -> bool) : forall V post S3 rest,
  Forall (fun c => p c = true) V -> stops p rest ->
  V ++ post = S3 ++ rest -> exists S', S3 = V ++ S'.
Proof.
  induction V as [|x V IH]; intros post S3 rest HV Hr E.
  - exists S3. reflexivity.
  - inversion HV as [|? ? Hx HV']; subst. destruct S3 as [|y S3].
    + simpl in E. subst rest. simpl in Hr. congruence.
    + simpl in E. injection E as <- E.
      destruct (IH post S3 rest HV' Hr E) as (S' & ->). exists S'. reflexivity.
Qed.

Lemma stars3_prefix (V S' : list ascii) :
  stars3 = V ++ S' -> V <> [] ->
  In V (map list_ascii_of_string ["*"; "**"; "***"]%string).
Proof.
  intros E Hne.
  destruct V as [|a [|b [|c [|e V]]]]; try contradiction;
    simpl in E; try discriminate E; injection E; intros; subst; simpl; auto.
Qed.

(** X2.  Whatever the input, every part of the scrubbed text that the
    bearer pattern matches (the word bearer in any case, white space, a
    token) is the placeholder or a beginning of it that still has a star:
    the word is written Bearer, one space follows, and the token is one to
    three stars.  The statement is about the parts the pattern matches
    and about nothing else: a token in quotes, which the pattern does not
    match, is not covered by it. *)
Theorem scrubbed_bearer_is_masked (s : string) (pre w post : list ascii) :
  list_ascii_of_string (redactString s) = pre ++ w ++ post ->
  Matches true bearer_re w ->
  In w (map list_ascii_of_string ["Bearer *"; "Bearer **"; "Bearer ***"]%string).
Proof.
  rewrite scrubbed_text. intros E Hm.
  destruct (scrub_settled (list_ascii_of_string s)) as (H1 & _).
  pose proof (H1 _ (part_is_suffix _ pre w post E)) as Hself.
  unfold selfmatch in Hself.
  destruct (attempt bearer_pass (w ++ post)) as [[rest caps]|] eqn:Ea;
    [|exact (False_ind _ (attempt_complete bearer_pass w post Hm Ea))].
  destruct Hself as (w0 & Ew0 & Hr). simpl in Hr. subst w0.
  destruct (bearer_split w Hm) as (h & V & -> & Hh & HV & HVne).
  destruct V as [|x V']; [contradiction|]. inversion HV as [|? ? Hx _]; subst.
  assert (Matches true bearer_head (list_ascii_of_string "Bearer ")) as Hh0.
  { exists (list_ascii_of_string "Bearer"), [" "%char].
    split; [reflexivity|]. split; [repeat constructor|].
    split; [repeat constructor | simpl; lia]. }
  assert (h ++ x :: (V' ++ post)
          = list_ascii_of_string "Bearer " ++ "*"%char :: ("*"%char :: "*"%char :: rest))
    as Eq.
  { rewrite <- app_assoc in Ew0. exact Ew0. }
  pose proof (bearer_head_unique _ _ x "*"%char _ _ Hh Hh0 Hx eq_refl Eq) as ->.
  apply app_inv_head in Eq.
  destruct (run_prefix (class_test true bearer_token) (x :: V') post stars3 rest HV
              (attempt_maximal bearer_pass bearer_token _ _ _ eq_refl Ea) Eq) as (S' & ES).
  pose proof (stars3_prefix (x :: V') S' ES HVne) as Hin.
  simpl in Hin. simpl.
  destruct Hin as [<-|[<-|[<-|[]]]]; auto.
Qed.

Lemma scrubbed_bearer_is_masked_witness :
  In (list_ascii_of_string "Bearer **")
     (map list_ascii_of_string ["Bearer *"; "Bearer **"; "Bearer ***"]%string).
Proof.
  apply (scrubbed_bearer_is_masked "GET /v1 BEARER   abc.def-123 done"
           (list_ascii_of_string "GET /v1 ")
           (list_ascii_of_string "Bearer **")
           (list_ascii_of_string "* done")).
  - vm_compute. reflexivity.
  - exists (list_ascii_of_string "Bearer"), (list_ascii_of_string " **").
    split; [reflexivity|]. split; [repeat constructor|].
    exists [" "%char], (list_ascii_of_string "**").
    split; [reflexivity|].
    split; (split; [repeat constructor | simpl; split; [lia | exact I]]).
Defined.

(** X3.  Whatever the input, every part of the scrubbed text that the
    key/value pattern matches (one of the eight key words in any case,
    optional white space, a colon or equal sign, optional white space, a
    value) is the key word as it stands, an equal sign and one to three
    stars.  The statement is about the parts the pattern matches and
    about nothing else: a value in quotes, which the pattern does not
    match, is not covered by it. *)
Theorem scrubbed_keyvalue_is_masked (s : string) (pre w post : list ascii) :
  list_ascii_of_string (redactString s) = pre ++ w ++ post ->
  Matches true keyvalue_re w ->
  exists K V, w = K ++ "="%char :: V /\ Matches true keyvalue_names K /\
              In V (map list_ascii_of_string ["*"; "**"; "***"]%string).
Proof.
  rewrite scrubbed_text. intros E Hm.
  destruct (scrub_settled (list_ascii_of_string s)) as (_ & H2 & _).
  pose proof (H2 _ (part_is_suffix _ pre w post E)) as Hself.
  unfold selfmatch in Hself.
  destruct (attempt keyvalue_pass (w ++ post)) as [[rest caps]|] eqn:Ea;
    [|exact (False_ind _ (attempt_complete keyvalue_pass w post Hm Ea))].
  destruct Hself as (w0 & Ew0 & Hr).
  destruct (attempt_split keyvalue_pass _ rest caps Ea) as (w1 & Ew1 & Hm1).
  assert (w1 = w0) as -> by (rewrite Ew0 in Ew1; apply app_inv_tail in Ew1; auto).
  destruct (keyvalue_match_inv w0 caps Hm1) as (K0 & tail0 & -> & -> & HK0 & _).
  simpl in Hr. unfold cap in Hr. simpl nth in Hr. apply app_inv_head in Hr. subst tail0.
  destruct (keyvalue_split w Hm) as (h & V & -> & Hh & HV & HVne).
  destruct V as [|x V']; [contradiction|]. inversion HV as [|? ? Hx _]; subst.
  assert (Matches true keyvalue_head (K0 ++ ["="%char])) as Hh0.
  { apply (keyvalue_head_intro K0 [] "="%char []); auto. }
  assert (h ++ x :: (V' ++ post)
          = (K0 ++ ["="%char]) ++ "*"%char :: ("*"%char :: "*"%char :: rest)) as Eq.
  { transitivity ((h ++ x :: V') ++ post); [rewrite <- app_assoc; reflexivity|].
    rewrite Ew0, <- !app_assoc. reflexivity. }
  pose proof (keyvalue_head_unique _ _ x "*"%char _ _ Hh Hh0 Hx eq_refl Eq) as ->.
  apply app_inv_head in Eq.
  destruct (run_prefix (class_test true keyvalue_value) (x :: V') post stars3 rest HV
              (attempt_maximal keyvalue_pass keyvalue_value _ _ _ eq_refl Ea) Eq)
    as (S' & ES).
  exists K0, (x :: V'). split; [rewrite <- app_assoc; reflexivity|].
  split; [exact HK0|]. exact (stars3_prefix (x :: V') S' ES HVne).
Qed.

Lemma scrubbed_keyvalue_is_masked_witness :
  exists K V, list_ascii_of_string "Token=***" = K ++ "="%char :: V /\
              Matches true keyvalue_names K /\
              In V (map list_ascii_of_string ["*"; "**"; "***"]%string).
Proof.
  apply (scrubbed_keyvalue_is_masked "login Token : s3cr3t&next=1"
           (list_ascii_of_string "login ")
           (list_ascii_of_string "Token=***")
           (list_ascii_of_string "&next=1")).
  - vm_compute. reflexivity.
  - exists (list_ascii_of_string "Token"), (list_ascii_of_string "=***").
    split; [reflexivity|]. split.
    + do 4 right. left. repeat constructor.
    + exists [], (list_ascii_of_string "=***"). split; [reflexivity|].
      split; [split; [constructor | simpl; split; [lia | exact I]]|].
      exists ["="%char], (list_ascii_of_string "***"). split; [reflexivity|].
      split; [exists "="%char; split; reflexivity|].
      exists [], (list_ascii_of_string "***"). split; [reflexivity|].
      split; (split; [repeat constructor | simpl; split; [lia | exact I]]).
Defined.

(** X4.  [maskEmail] is idempotent: in its own output it finds only
    addresses whose local part is already the first character and three
    stars, and leaves them as they are. *)
Theorem maskEmail_idempotent : forall s : string,
  maskEmail (maskEmail s) = maskEmail s.
Proof. exact maskEmail_idem. Qed.

(* ------------------------------------------------------------------ *)
(** * The sanitizer and the call stack *)

(** The frames the serializer needs to get through a value: two for a
    scalar (the serializer and the replacer it calls), and for a container
    one more than its members need. *)
Fixpoint frames (v : Value) : nat :=
  match v with
  | VArr items => S (list_max (1 :: map frames items))
  | VObj props => S (list_max (1 :: map (fun kv => frames (snd kv)) props))
  | _ => 2
  end.

Lemma frames_scalar v : scalar v = true -> frames v = 2.
Proof. destruct v; intros H; try discriminate H; reflexivity. Qed.

Lemma frames_arr items :
  frames (VArr items) = S (Nat.max 1 (list_max (map frames items))).
Proof. reflexivity. Qed.

Lemma frames_obj props :
  frames (VObj props) = S (Nat.max 1 (list_max (map (fun kv => frames (snd kv)) props))).
Proof. reflexivity. Qed.

Lemma frames_least v : 2 <= frames v.
Proof.
  destruct v; try (simpl; lia); [rewrite frames_arr | rewrite frames_obj]; lia.
Qed.

Lemma list_max_reached (l : list nat) n :
  n < list_max l -> exists a, In a l /\ n < a.
Proof.
  induction l as [|b l IH]; simpl; [lia|].
  intros H. destruct (Nat.max_spec b (list_max l)) as [[_ E]|[_ E]]; rewrite E in H.
  - destruct (IH H) as (a & Ha & Hlt). exists a. auto.
  - exists b. auto.
Qed.

Lemma list_max_bounds (l : list nat) a : In a l -> a <= list_max l.
Proof.
  induction l as [|b l IH]; simpl; [contradiction|].
  intros [->|H]; [lia | specialize (IH H); lia].
Qed.

Section Frames.
Variable heap : Heap.

Lemma elements_pass d stack items :
  (forall a, In a items -> forall key x, settled key a -> known key a x ->
     exists j, SerializeJSONProperty heap d stack key x = Ok (Some j)) ->
  forall i ys,
    Forall_indexed settled i items ->
    (ys = items \/ ys = map_indexed clean i items) ->
    exists js, serialize_elements (SerializeJSONProperty heap d stack) i ys = Ok js.
Proof.
  induction items as [|a items IHl]; intros Hall i ys Hs Hy.
  - assert (ys = []) as -> by (destruct Hy; assumption).
    eexists; reflexivity.
  - destruct (known_items_cons i a items ys Hy) as (x & ys' & -> & Hx & Hy').
    destruct Hs as [Ha Hs].
    destruct (Hall a (or_introl eq_refl) _ _ Ha Hx) as (j & E1).
    destruct (IHl (fun b Hb => Hall b (or_intror Hb)) (S i) ys' Hs Hy') as (js & E2).
    simpl. rewrite E1. simpl. rewrite E2. simpl. eexists; reflexivity.
Qed.

Lemma members_pass d stack props :
  (forall a, In a (map snd props) -> forall key x, settled key a -> known key a x ->
     exists j, SerializeJSONProperty heap d stack key x = Ok (Some j)) ->
  forall ys,
    Forall_keyed settled props ->
    (ys = props \/ ys = map_keyed clean props) ->
    exists js, serialize_members (SerializeJSONProperty heap d stack) ys = Ok js.
Proof.
  induction props as [|[k a] props IHl]; intros Hall ys Hs Hy.
  - assert (ys = []) as -> by (destruct Hy; assumption).
    eexists; reflexivity.
  - destruct (known_props_cons k a props ys Hy) as (x & ys' & -> & Hx & Hy').
    destruct Hs as [Ha Hs]. simpl in Ha.
    destruct (Hall a (or_introl eq_refl) _ _ Ha Hx) as (j & E1).
    destruct (IHl (fun b Hb => Hall b (or_intror Hb)) ys' Hs Hy') as (js & E2).
    simpl. rewrite E1. simpl. rewrite E2. simpl. eexists; reflexivity.
Qed.

Lemma elements_stuck d stack items :
  (exists a, In a items /\ forall key x, settled key a -> known key a x ->
     exists e, SerializeJSONProperty heap d stack key x = Throw e) ->
  forall i ys,
    Forall_indexed settled i items ->
    (ys = items \/ ys = map_indexed clean i items) ->
    exists e, serialize_elements (SerializeJSONProperty heap d stack) i ys = Throw e.
Proof.
  induction items as [|a items IHl]; intros (b & Hb & Hstuck) i ys Hs Hy.
  - contradiction.
  - destruct (known_items_cons i a items ys Hy) as (x & ys' & -> & Hx & Hy').
    destruct Hs as [Ha Hs]. simpl.
    destruct (SerializeJSONProperty heap d stack (index_key i) x) as [oj|e] eqn:E1;
      simpl; [|eexists; reflexivity].
    destruct Hb as [->|Hb].
    + destruct (Hstuck _ _ Ha Hx) as (e & E). rewrite E in E1. discriminate E1.
    + destruct (IHl (ex_intro _ b (conj Hb Hstuck)) (S i) ys' Hs Hy') as (e & E2).
      rewrite E2. simpl. eexists; reflexivity.
Qed.

Lemma members_stuck d stack props :
  (exists a, In a (map snd props) /\ forall key x, settled key a -> known key a x ->
     exists e, SerializeJSONProperty heap d stack key x = Throw e) ->
  forall ys,
    Forall_keyed settled props ->
    (ys = props \/ ys = map_keyed clean props) ->
    exists e, serialize_members (SerializeJSONProperty heap d stack) ys = Throw e.
Proof.
  induction props as [|[k a] props IHl]; intros (b & Hb & Hstuck) ys Hs Hy.
  - contradiction.
  - destruct (known_props_cons k a props ys Hy) as (x & ys' & -> & Hx & Hy').
    destruct Hs as [Ha Hs]. simpl in Ha. simpl.
    destruct (SerializeJSONProperty heap d stack k x) as [oj|e] eqn:E1;
      simpl; [|eexists; reflexivity].
    destruct Hb as [<-|Hb].
    + destruct (Hstuck _ _ Ha Hx) as (e & E). rewrite E in E1. discriminate E1.
    + destruct (IHl (ex_intro _ b (conj Hb Hstuck)) ys' Hs Hy') as (e & E2).
      rewrite E2. simpl. eexists; reflexivity.
Qed.

(** With the frames it needs the serializer gets through. *)
Lemma serialize_gets_through : forall d stack key c x,
  settled key c -> known key c x -> frames c <= d ->
  exists j, SerializeJSONProperty heap d stack key x = Ok (Some j).
Proof.
  induction d as [|d IH]; intros stack key c x Hc Hx Hd.
  - pose proof (frames_least c). lia.
  - destruct (settled_cases key c Hc)
      as [Hsc | [(items & ->) | [(props & ->) | (n & ->)]]];
      [| | | simpl in Hd; destruct d as [|d]; [lia|];
             destruct (nonjson_written heap d stack key n x Hx) as [E _];
             eexists; exact E].
    + destruct (known_scalar key c x Hsc Hc Hx) as [Hsx _].
      rewrite (frames_scalar c Hsc) in Hd. destruct d as [|d]; [lia|].
      destruct (serialize_scalar heap d stack key x Hsx) as (j & E & _). eauto.
    + rewrite frames_arr in Hd. destruct d as [|d]; [lia|].
      rewrite SerializeJSONProperty_S.
      destruct (redactValueByKey_returns heap d key x) as (y & Er).
      rewrite Er. simpl bind.
      pose proof (proj2 (descent_inv heap (S d)) _ _ _ _ Hc Hx Er) as Hy.
      destruct (known_arr key items y Hy) as (ys & -> & Hys).
      destruct (elements_pass (S d) stack items) with (i := 0) (ys := ys) as (js & E);
        [|exact Hc | exact Hys | rewrite E; simpl; eauto].
      intros a Ha k z Hsa Hz. apply (IH stack k a z Hsa Hz).
      pose proof (list_max_bounds (map frames items) (frames a) (in_map frames _ _ Ha)). lia.
    + rewrite frames_obj in Hd. destruct d as [|d]; [lia|].
      rewrite SerializeJSONProperty_S.
      destruct (redactValueByKey_returns heap d key x) as (y & Er).
      rewrite Er. simpl bind.
      pose proof (proj2 (descent_inv heap (S d)) _ _ _ _ Hc Hx Er) as Hy.
      destruct (known_obj key props y Hy) as (ys & -> & Hys).
      destruct (members_pass (S d) stack props) with (ys := ys) as (js & E);
        [|exact Hc | exact Hys | rewrite E; simpl; eauto].
      intros a Ha k z Hsa Hz. apply (IH stack k a z Hsa Hz).
      apply in_map_iff in Ha. destruct Ha as (kv & <- & Hkv).
      pose proof (list_max_bounds (map (fun kv => frames (snd kv)) props) (frames (snd kv))
                    (in_map (fun kv => frames (snd kv)) _ _ Hkv)). lia.
Qed.

(** With fewer frames it runs out of stack. *)
Lemma serialize_runs_out : forall d stack key c x,
  settled key c -> known key c x -> d < frames c ->
  exists e, SerializeJSONProperty heap d stack key x = Throw e.
Proof.
  induction d as [|d IH]; intros stack key c x Hc Hx Hd.
  - eexists. reflexivity.
  - rewrite SerializeJSONProperty_S.
    destruct d as [|d]; [eexists; reflexivity|].
    destruct (redactValueByKey_returns heap d key x) as (y & Er).
    rewrite Er. simpl bind.
    pose proof (proj2 (descent_inv heap (S d)) _ _ _ _ Hc Hx Er) as Hy.
    destruct (settled_cases key c Hc)
      as [Hsc | [(items & ->) | [(props & ->) | (n & ->)]]];
      [| | | simpl in Hd; lia].
    + rewrite (frames_scalar c Hsc) in Hd. lia.
    + destruct (known_arr key items y Hy) as (ys & -> & Hys).
      rewrite frames_arr in Hd.
      destruct (list_max_reached (map frames items) (S d) ltac:(lia)) as (n & Hn & Hlt).
      apply in_map_iff in Hn. destruct Hn as (a & <- & Ha).
      destruct (elements_stuck (S d) stack items) with (i := 0) (ys := ys) as (e & E);
        [|exact Hc | exact Hys | rewrite E; simpl; eauto].
      exists a. split; [exact Ha|].
      intros k z Hsa Hz. exact (IH stack k a z Hsa Hz Hlt).
    + destruct (known_obj key props y Hy) as (ys & -> & Hys).
      rewrite frames_obj in Hd.
      destruct (list_max_reached (map (fun kv => frames (snd kv)) props) (S d) ltac:(lia))
        as (n & Hn & Hlt).
      apply in_map_iff in Hn. destruct Hn as (kv & <- & Hkv).
      destruct (members_stuck (S d) stack props) with (ys := ys) as (e & E);
        [|exact Hc | exact Hys | rewrite E; simpl; eauto].
      exists (snd kv). split; [apply in_map; exact Hkv|].
      intros k z Hsa Hz. exact (IH stack k (snd kv) z Hsa Hz Hlt).
Qed.

(** On a value as it was or cleaned, [sanitizeArgs] gives the cleaned
    value if the stack suffices and its argument if not. *)
Lemma sanitizeArg_known d c x :
  settled "" c -> known "" c x -> container c = true ->
  sanitizeArg heap d x = if frames c <=? d then clean "" c else x.
Proof.
  intros Hc Hx Hcont.
  assert (container x = true) as Hcx.
  { destruct Hx as [->| ->]; [assumption|]. destruct c; try discriminate Hcont;
      try contradiction; reflexivity. }
  assert (sanitizeArg heap d x
          = try_catch (json <- JSON_stringify heap d x ;; JSON_parse json) x) as ->.
  { destruct x; try discriminate Hcx; reflexivity. }
  unfold JSON_stringify.
  destruct (frames c <=? d) eqn:Hd.
  - apply Nat.leb_le in Hd.
    destruct (serialize_gets_through d [] ""%string c x Hc Hx Hd) as (j & E).
    destruct (proj1 (descent_inv heap d) _ _ _ _ _ Hc Hx E) as (j' & Ej & Hj).
    inversion Ej; subst j'. rewrite E. simpl. exact Hj.
  - apply Nat.leb_gt in Hd.
    destruct (serialize_runs_out d [] ""%string c x Hc Hx Hd) as (e & E).
    rewrite E. reflexivity.
Qed.
End Frames.

Lemma clean_container key v : container v = true -> clean key v = clean "" v.
Proof. destruct v; intros H; try discriminate H; reflexivity. Qed.

Lemma sanitize_by_frames (heap : Heap) (d : nat) (v : Value) :
  json_data v = true -> container v = true ->
  sanitizeArgs heap d [v] = [if frames v <=? d then clean "" v else v].
Proof.
  intros Hj Hc. unfold sanitizeArgs. cbn [map]. f_equal.
  apply sanitizeArg_known; [apply json_data_settled; exact Hj | left; reflexivity | exact Hc].
Qed.

(** X5.  For data without undefined, BigInt and sharing, a call of
    [sanitizeArgs] that has entered its [try] block knows no half
    measures.  There is a depth of stack, depending on the value only,
    such that a mapping or sequence comes back cleaned throughout if that
    much stack is left (every scalar replaced by what the replacer
    answers for the key that holds it and the JSON text gives back for
    that), and exactly as it was given, with nothing redacted, if less is
    left; no partly redacted value is ever returned. *)
Theorem sanitize_all_or_nothing (heap : Heap) (v : Value) :
  json_data v = true -> container v = true ->
  exists need, forall d,
    sanitizeArgs heap d [v] = [if need <=? d then clean "" v else v].
Proof.
  intros Hj Hc. exists (frames v). intros d.
  exact (sanitize_by_frames heap d v Hj Hc).
Qed.

Lemma sanitize_all_or_nothing_witness :
  exists need, forall d,
    sanitizeArgs empty_heap d
      [VObj [("user"%string, VObj [("password"%string, VStr "hunter2")]);
             ("ratio"%string, VNonJson NaN)]]
    = [if need <=? d
       then VObj [("user"%string, VObj [("password"%string, VStr "***")]);
                  ("ratio"%string, VNull)]
       else VObj [("user"%string, VObj [("password"%string, VStr "hunter2")]);
                  ("ratio"%string, VNonJson NaN)]].
Proof.
  exact (sanitize_all_or_nothing empty_heap
           (VObj [("user"%string, VObj [("password"%string, VStr "hunter2")]);
                  ("ratio"%string, VNonJson NaN)])
           eq_refl eq_refl).
Defined.

Lemma sanitizeArg_again (heap : Heap) (d : nat) (v : Value) :
  json_data v = true ->
  sanitizeArg heap d (sanitizeArg heap d v) = sanitizeArg heap d v.
Proof.
  intros Hj. pose proof (json_data_settled v Hj ""%string) as Hs.
  destruct (container v) eqn:Hc.
  - rewrite (sanitizeArg_known heap d v v Hs (or_introl eq_refl) Hc).
    destruct (frames v <=? d) eqn:Hd.
    + rewrite (sanitizeArg_known heap d v (clean "" v) Hs (or_intror eq_refl) Hc), Hd.
      reflexivity.
    + rewrite (sanitizeArg_known heap d v v Hs (or_introl eq_refl) Hc), Hd. reflexivity.
  - destruct v; try discriminate Hc; try discriminate Hj; try reflexivity.
    simpl. rewrite redactString_again. reflexivity.
Qed.

(** X6.  On arguments without undefined, BigInt and sharing,
    [sanitizeArgs] is idempotent, whatever the call stack allows:
    sanitizing what it returned returns the same again. *)
Theorem sanitizeArgs_idempotent (heap : Heap) (d : nat) (args : list Value) :
  forallb json_data args = true ->
  sanitizeArgs heap d (sanitizeArgs heap d args) = sanitizeArgs heap d args.
Proof.
  unfold sanitizeArgs. induction args as [|v args IH]; intros H; [reflexivity|].
  simpl in H. apply andb_true_iff in H. destruct H as [Hv H].
  cbn [map]. rewrite (sanitizeArg_again heap d v Hv), (IH H). reflexivity.
Qed.

Lemma sanitizeArgs_idempotent_witness :
  sanitizeArgs empty_heap 5
    (sanitizeArgs empty_heap 5
       [VStr "token=abc"; VObj [("email"%string, VStr "user@example.com")]; VNum 7])
  = sanitizeArgs empty_heap 5
      [VStr "token=abc"; VObj [("email"%string, VStr "user@example.com")]; VNum 7].
Proof.
  apply (sanitizeArgs_idempotent empty_heap 5
           [VStr "token=abc"; VObj [("email"%string, VStr "user@example.com")]; VNum 7]).
  reflexivity.
Defined.

(** X7.  A mapping or sequence under a key is sanitized as it is on its
    own, whatever the key: with one frame more, sanitizing the one-entry
    mapping [{K: v}] gives [{K: v'}] where [v'] is what sanitizing [v]
    gives.  The masks for named keys apply to strings and numbers only; a
    mapping under password is not masked, it is gone through. *)
Theorem sanitize_wrapped (heap : Heap) (d : nat) (K : string) (v : Value) :
  json_data v = true -> container v = true ->
  sanitizeArgs heap (S d) [VObj [(K, v)]]
  = map (fun x => VObj [(K, x)]) (sanitizeArgs heap d [v]).
Proof.
  intros Hj Hc.
  rewrite (sanitize_by_frames heap d v Hj Hc).
  rewrite (sanitize_by_frames heap (S d) (VObj [(K, v)]));
    [|simpl; rewrite Hj; reflexivity | reflexivity].
  rewrite frames_obj. cbn [map snd list_max fold_right].
  assert (Nat.max 1 (Nat.max (frames v) 0) = frames v) as ->.
  { pose proof (frames_least v). lia. }
  change (S (frames v) <=? S d) with (frames v <=? d).
  destruct (frames v <=? d); [|reflexivity].
  cbn [clean map_keyed map fst snd]. rewrite (clean_container K v Hc). reflexivity.
Qed.

Lemma sanitize_wrapped_witness :
  sanitizeArgs empty_heap 4
    [VObj [("password"%string, VObj [("hint"%string, VStr "pwd: hunter2")])]]
  = map (fun x => VObj [("password"%string, x)])
        (sanitizeArgs empty_heap 3 [VObj [("hint"%string, VStr "pwd: hunter2")]]).
Proof.
  apply (sanitize_wrapped empty_heap 3 "password"
           (VObj [("hint"%string, VStr "pwd: hunter2")])); reflexivity.
Defined.

(** X8.  Only strings are masked by their key, and numbers under code,
    otp and 2fa, where every number becomes 0.  Under any other key
    (password and twofactor among them) a number that JSON text can hold
    comes back as it is; NaN and the two infinities come back as null and
    negative zero as 0, for the value has gone through JSON text.  A
    boolean and null under any key come back as they are. *)
Theorem sanitize_keeps_numbers (heap : Heap) (d : nat) (K : string) (n : Z) (b : bool) :
  3 <= d ->
  (~ In (toLowerCase K) ["code"; "otp"; "2fa"]%string ->
   sanitizeArgs heap d [VObj [(K, VNum n)]] = [VObj [(K, VNum n)]] /\
   sanitizeArgs heap d [VObj [(K, VNonJson NaN)]] = [VObj [(K, VNull)]] /\
   sanitizeArgs heap d [VObj [(K, VNonJson Infinity)]] = [VObj [(K, VNull)]] /\
   sanitizeArgs heap d [VObj [(K, VNonJson NegInfinity)]] = [VObj [(K, VNull)]] /\
   sanitizeArgs heap d [VObj [(K, VNonJson NegZero)]] = [VObj [(K, VNum 0)]]) /\
  (In (toLowerCase K) ["code"; "otp"; "2fa"]%string ->
   sanitizeArgs heap d [VObj [(K, VNum n)]] = [VObj [(K, VNum 0)]] /\
   forall x, sanitizeArgs heap d [VObj [(K, VNonJson x)]] = [VObj [(K, VNum 0)]]) /\
  sanitizeArgs heap d [VObj [(K, VBool b)]] = [VObj [(K, VBool b)]] /\
  sanitizeArgs heap d [VObj [(K, VNull)]] = [VObj [(K, VNull)]].
Proof.
  intros Hd.
  assert (forall v, json_data v = true -> height v = 0 ->
            sanitizeArgs heap d [VObj [(K, v)]] = [VObj [(K, clean K v)]]) as Hone.
  { intros v Hj Hh. rewrite sanitize_json_data.
    - reflexivity.
    - simpl. rewrite Hj. reflexivity.
    - reflexivity.
    - simpl. rewrite Hh. simpl. lia. }
  split; [|split; [|split]].
  - intros HK.
    assert (includes numeric_code_names (toLowerCase K) = false) as E
        by (apply includes_false; exact HK).
    repeat split; rewrite Hone; try reflexivity;
      try (rewrite clean_nonjson, E; reflexivity).
    simpl. rewrite redactScalar_unfold. cbv zeta. rewrite E. reflexivity.
  - intros HK.
    assert (includes numeric_code_names (toLowerCase K) = true) as E
        by (apply includes_In; exact HK).
    split; [|intros x]; rewrite Hone; try reflexivity.
    + simpl. rewrite redactScalar_unfold. cbv zeta. rewrite E. reflexivity.
    + rewrite clean_nonjson, E. reflexivity.
  - rewrite Hone; reflexivity.
  - rewrite Hone; reflexivity.
Qed.

Lemma sanitize_keeps_numbers_witness :
  sanitizeArgs empty_heap 3 [VObj [("password"%string, VNum 12345)]]
  = [VObj [("password"%string, VNum 12345)]] /\
  sanitizeArgs empty_heap 3 [VObj [("twoFactor"%string, VNonJson NaN)]]
  = [VObj [("twoFactor"%string, VNull)]] /\
  sanitizeArgs empty_heap 3 [VObj [("OTP"%string, VNonJson Infinity)]]
  = [VObj [("OTP"%string, VNum 0)]].
Proof.
  split; [|split].
  - destruct (sanitize_keeps_numbers empty_heap 3 "password" 12345 true)
      as [H _]; [lia|].
    destruct H as [H _]; [vm_compute; intuition discriminate | exact H].
  - destruct (sanitize_keeps_numbers empty_heap 3 "twoFactor" 0 true)
      as [H _]; [lia|].
    destruct H as (_ & H & _); [vm_compute; intuition discriminate | exact H].
  - destruct (sanitize_keeps_numbers empty_heap 3 "OTP" 0 true)
      as (_ & H & _); [lia|].
    destruct H as [_ H]; [vm_compute; tauto | exact (H Infinity)].
Defined.

(** ** Elements of sequences *)

Definition all_digits (s : string) : bool :=
  forallb isDigit (list_ascii_of_string s).

Lemma string_of_uint_digits (u : Decimal.uint) :
  all_digits (NilEmpty.string_of_uint u) = true.
Proof.
  unfold all_digits. induction u; simpl; try reflexivity; exact IHu.
Qed.

(** The index of an element, as the replacer sees it, is none of the
    listed names. *)
Lemma index_key_unlisted i :
  ~ In (index_key i)
       (sensitive_names ++ code_names ++ identifier_names ++ numeric_code_names).
Proof.
  intros H.
  assert (forallb (fun n => negb (all_digits n))
            (sensitive_names ++ code_names ++ identifier_names ++ numeric_code_names)
          = true) as Hall by reflexivity.
  rewrite forallb_forall in Hall. specialize (Hall _ H).
  unfold index_key in Hall. rewrite string_of_uint_digits in Hall. discriminate Hall.
Qed.

Lemma redactScalar_element i s :
  redactScalar (index_key i) (VStr s) = VStr (redactString s).
Proof.
  pose proof (index_key_unlisted i) as H. rewrite !in_app_iff in H.
  rewrite redactScalar_unfold. cbv zeta.
  assert (includes sensitive_names (toLowerCase (index_key i)) = false
          /\ includes code_names (toLowerCase (index_key i)) = false
          /\ includes identifier_names (toLowerCase (index_key i)) = false)
    as (E1 & E2 & E3).
  { assert (toLowerCase (index_key i) = index_key i) as ->.
    { unfold index_key. generalize (Nat.to_uint i) as u.
      induction u; simpl; try reflexivity; rewrite IHu; reflexivity. }
    repeat split; apply includes_false; tauto. }
  rewrite E1, E2, E3. reflexivity.
Qed.

Lemma clean_strings l : forall i,
  map_indexed clean i (map VStr l) = map (fun s => VStr (redactString s)) l.
Proof.
  induction l as [|s l IH]; intros i; [reflexivity|].
  simpl. rewrite (IH (S i)). f_equal. apply redactScalar_element.
Qed.

Lemma height_strings l : list_max (map height (map VStr l)) = 0.
Proof. induction l as [|s l IH]; simpl; [reflexivity | exact IH]. Qed.

Lemma json_data_strings l : forallb json_data (map VStr l) = true.
Proof. induction l as [|s l IH]; simpl; [reflexivity | exact IH]. Qed.

(** X9.  The strings of a sequence are scrubbed by [redactString] and
    never masked by a key: the replacer sees them under their index, and
    no index is a listed name.  This holds also for a sequence that is the
    value of a property, whatever its key: the strings under
    [{password: [...]}] are not replaced by the mask of password. *)
Theorem sanitize_sequence_of_strings (heap : Heap) (d : nat) (K : string)
        (l : list string) :
  4 <= d ->
  sanitizeArgs heap d [VArr (map VStr l)]
  = [VArr (map (fun s => VStr (redactString s)) l)] /\
  sanitizeArgs heap d [VObj [(K, VArr (map VStr l))]]
  = [VObj [(K, VArr (map (fun s => VStr (redactString s)) l))]].
Proof.
  intros Hd. split; rewrite sanitize_json_data; try reflexivity.
  - cbn [clean]. rewrite clean_strings. reflexivity.
  - apply json_data_strings.
  - cbn [height]. rewrite height_strings. lia.
  - cbn [clean map_keyed map fst snd]. rewrite clean_strings. reflexivity.
  - cbn [json_data forallb snd]. rewrite json_data_strings. reflexivity.
  - cbn [height map snd list_max fold_right]. rewrite height_strings. simpl. lia.
Qed.

Lemma sanitize_sequence_of_strings_witness :
  sanitizeArgs empty_heap 4 [VArr [VStr "hunter2"; VStr "pwd=hunter2"]]
  = [VArr [VStr "hunter2"; VStr "pwd=***"]] /\
  sanitizeArgs empty_heap 4 [VObj [("password"%string, VArr [VStr "hunter2"; VStr "pwd=hunter2"])]]
  = [VObj [("password"%string, VArr [VStr "hunter2"; VStr "pwd=***"])]].
Proof.
  apply (sanitize_sequence_of_strings empty_heap 4 "password" ["hunter2"; "pwd=hunter2"]%string).
  lia.
Defined.

(* ------------------------------------------------------------------ *)
(** * The logger

    [src/logger.ts]: the class [Logger].  The console is the list of what
    has been written to it, a call of [console.log], [console.error] or
    [console.warn] appends one entry with the arguments of the call.  A
    verbose check is a JavaScript function: it may write to the console
    and it may throw.  [getPreferenceValues] of the Raycast API is a
    parameter: it returns the preferences or throws. *)

Inductive Channel : Type := console_log | console_error | console_warn.

Record Entry : Type := Write { channel : Channel; arguments : list Value }.

Definition Console : Type := list Entry.

Inductive Completion (A : Type) : Type :=
| Normal (a : A)
| Abrupt (thrown : Value).
Arguments Normal {A} a.
Arguments Abrupt {A} thrown.

Definition VerboseCheck : Type := Console -> Console * Completion bool.

(** [interface LoggerPreferences { verboseLogging?: boolean }] *)
Record LoggerPreferences : Type := { verboseLogging : option bool }.

(** [interface LoggerConfig], every field optional. *)
Record LoggerConfig : Type := {
  cfg_isVerboseEnabled : option VerboseCheck;
  cfg_prefix : option string;
  cfg_enableRedaction : option bool
}.

(** A logger is its [config: Required<LoggerConfig>]. *)
Record Logger : Type := {
  isVerboseEnabled : VerboseCheck;
  prefix : string;
  enableRedaction : bool
}.

(** A string is truthy unless it is empty. *)
Definition truthy (s : string) : bool := negb (String.eqb s "").

Section LoggerCode.
Variable heap : Heap.
Variable d : nat.
Variable getPreferenceValues : unit -> Value + LoggerPreferences.

Definition defaultVerboseCheck : VerboseCheck :=
  fun console =>
    match getPreferenceValues tt with
    | inr preferences =>
        (console,
         Normal (match verboseLogging preferences with Some b => b | None => false end))
    | inl error =>
        (console ++
           [Write console_error
              [VStr "[Logger] Failed to read preferences for verbose logging:"; error]],
         Normal false)
    end.

(** [constructor(config: LoggerConfig = {})] *)
Definition new_Logger (config : LoggerConfig) : Logger :=
  {| isVerboseEnabled :=
       match cfg_isVerboseEnabled config with
       | Some check => check
       | None => defaultVerboseCheck
       end;
     prefix :=
       match cfg_prefix config with
       | Some p => if truthy p then p else ""%string
       | None => ""%string
       end;
     enableRedaction :=
       match cfg_enableRedaction config with
       | Some b => b
       | None => true
       end |}.

Definition empty_config : LoggerConfig :=
  {| cfg_isVerboseEnabled := None; cfg_prefix := None; cfg_enableRedaction := None |}.

(** [static getInstance()], with the static field [Logger.instance] as
    state. *)
Definition getInstance (instance : option Logger) : Logger * option Logger :=
  match instance with
  | Some l => (l, Some l)
  | None => let l := new_Logger empty_config in (l, Some l)
  end.

Definition formatMessage (this : Logger) (message : string) : string :=
  if truthy (prefix this) then (prefix this ++ " " ++ message)%string else message.

Definition processLogData (this : Logger) (message : string) (args : list Value)
  : string * list Value :=
  let formattedMessage := formatMessage this message in
  if negb (enableRedaction this) then (formattedMessage, args)
  else (redactString formattedMessage, sanitizeArgs heap d args).

Definition log (this : Logger) (message : string) (args : list Value)
           (console : Console) : Console * Completion unit :=
  match isVerboseEnabled this console with
  | (console1, Abrupt e) => (console1, Abrupt e)
  | (console1, Normal true) =>
      let (processedMessage, processedArgs) := processLogData this message args in
      (console1 ++ [Write console_log (VStr processedMessage :: processedArgs)], Normal tt)
  | (console1, Normal false) => (console1, Normal tt)
  end.

Definition error (this : Logger) (message : string) (args : list Value)
           (console : Console) : Console :=
  let (processedMessage, processedArgs) := processLogData this message args in
  console ++ [Write console_error (VStr processedMessage :: processedArgs)].

Definition warn (this : Logger) (message : string) (args : list Value)
           (console : Console) : Console :=
  let (processedMessage, processedArgs) := processLogData this message args in
  console ++ [Write console_warn (VStr processedMessage :: processedArgs)].

Definition child (this : Logger) (prefix0 : string) : Logger :=
  let childPrefix :=
    if truthy (prefix this) then (prefix this ++ " " ++ prefix0)%string else prefix0 in
  new_Logger
    {| cfg_isVerboseEnabled := Some (isVerboseEnabled this);
       cfg_prefix := Some childPrefix;
       cfg_enableRedaction := Some (enableRedaction this) |}.

(** [export const logger = Logger.getInstance()] *)
Definition logger : Logger := fst (getInstance None).

(** ** Prefixes *)

Lemma string_app_assoc (a b c : string) :
  ((a ++ b) ++ c = a ++ (b ++ c))%string.
Proof. induction a as [|x a IH]; simpl; [reflexivity | rewrite IH; reflexivity]. Qed.

Lemma truthy_app a b : truthy a = true -> truthy (a ++ b)%string = true.
Proof. destruct a; [discriminate | reflexivity]. Qed.

Lemma truthy_false s : truthy s = false -> s = ""%string.
Proof. destruct s; [reflexivity | discriminate]. Qed.

Lemma truthy_true s : s <> ""%string -> truthy s = true.
Proof. destruct s; [contradiction | reflexivity]. Qed.

Lemma child_prefix this p :
  prefix (child this p)
  = if truthy (prefix this) then (prefix this ++ " " ++ p)%string else p.
Proof.
  unfold child. cbn [new_Logger prefix cfg_prefix].
  destruct (truthy (prefix this)) eqn:E.
  - rewrite (truthy_app _ _ E). reflexivity.
  - destruct (truthy p) eqn:Ep; [reflexivity | symmetry; apply truthy_false; exact Ep].
Qed.

Lemma child_formatMessage this p m :
  prefix this <> ""%string \/ p <> ""%string ->
  formatMessage (child this p) m = formatMessage this (p ++ " " ++ m)%string.
Proof.
  intros H. unfold formatMessage. rewrite child_prefix.
  destruct (truthy (prefix this)) eqn:E.
  - rewrite (truthy_app _ _ E), !string_app_assoc. reflexivity.
  - destruct H as [H|H]; [apply truthy_true in H; congruence|].
    rewrite (truthy_true p H). reflexivity.
Qed.

Lemma child_processLogData this p m args :
  prefix this <> ""%string \/ p <> ""%string ->
  processLogData (child this p) m args = processLogData this (p ++ " " ++ m)%string args.
Proof.
  intros H. unfold processLogData. rewrite (child_formatMessage this p m H). reflexivity.
Qed.

(** X10.  Prefixes of child loggers compose: unless the logger has no
    prefix and the child is given the empty one, a child with prefix [p]
    formats, logs, warns and reports errors as its parent does with
    [p], a space and the message; a child of a child is the child with
    the two prefixes joined by a space; and a child keeps the verbose
    check and the redaction switch of its parent, also a switched-off
    one. *)
Theorem child_prefixes_compose (this : Logger) (p q m : string) (args : list Value)
        (console : Console) :
  prefix this <> ""%string \/ p <> ""%string ->
  formatMessage (child this p) m = formatMessage this (p ++ " " ++ m)%string /\
  log (child this p) m args console = log this (p ++ " " ++ m)%string args console /\
  warn (child this p) m args console = warn this (p ++ " " ++ m)%string args console /\
  error (child this p) m args console = error this (p ++ " " ++ m)%string args console /\
  child (child this p) q = child this (p ++ " " ++ q)%string /\
  isVerboseEnabled (child this p) = isVerboseEnabled this /\
  enableRedaction (child this p) = enableRedaction this.
Proof.
  intros H. split; [exact (child_formatMessage this p m H)|].
  split; [|split; [|split; [|split; [|split]]]]; try reflexivity.
  - unfold log. rewrite (child_processLogData this p m args H). reflexivity.
  - unfold warn. rewrite (child_processLogData this p m args H). reflexivity.
  - unfold error. rewrite (child_processLogData this p m args H). reflexivity.
  - unfold child at 1 3. cbn [new_Logger cfg_isVerboseEnabled cfg_prefix cfg_enableRedaction].
    fold (child this p).
    assert ((if truthy (prefix (child this p))
             then (prefix (child this p) ++ " " ++ q)%string else q)
            = (if truthy (prefix this)
               then (prefix this ++ " " ++ p ++ " " ++ q)%string
               else (p ++ " " ++ q)%string)) as ->.
    { rewrite child_prefix. destruct (truthy (prefix this)) eqn:E.
      - rewrite (truthy_app _ _ E), !string_app_assoc. reflexivity.
      - destruct H as [H|H]; [apply truthy_true in H; congruence|].
        rewrite (truthy_true p H). reflexivity. }
    reflexivity.
Qed.
End LoggerCode.

Definition verbose_preferences : unit -> Value + LoggerPreferences :=
  fun _ => inr {| verboseLogging := Some true |}.

Definition app_logger : Logger :=
  new_Logger verbose_preferences
    {| cfg_isVerboseEnabled := None; cfg_prefix := Some "[App]"%string;
       cfg_enableRedaction := None |}.

Lemma child_prefixes_compose_witness :
  formatMessage (child verbose_preferences app_logger "[Auth]") "Login attempt"
  = "[App] [Auth] Login attempt"%string /\
  child verbose_preferences (child verbose_preferences app_logger "[Auth]") "[Login]"
  = child verbose_preferences app_logger "[Auth] [Login]".
Proof.
  destruct (child_prefixes_compose empty_heap 3 verbose_preferences app_logger
              "[Auth]" "[Login]" "Login attempt" [] [])
    as (H1 & _ & _ & _ & H5 & _); [left; discriminate|].
  split; [exact H1 | exact H5].
Defined.

Section LoggerFacts.
Variable heap : Heap.
Variable d : nat.
Variable getPreferenceValues : unit -> Value + LoggerPreferences.

Lemma scrub_no_long_run (s pre w post : list ascii) :
  scrub s = pre ++ w ++ post ->
  ~ Matches true code_re w /\ ~ Matches true hex_re w /\ ~ Matches false base64_re w.
Proof.
  intros E. destruct (scrub_settled s) as (_ & _ & H3 & H4 & H5 & _).
  split; [|split].
  - exact (settled_no_part code_pass code_changes _ H3 pre w post E).
  - exact (settled_no_part hex_pass hex_changes _ H4 pre w post E).
  - exact (settled_no_part base64_pass base64_changes _ H5 pre w post E).
Qed.

(** X11.  What a logger with redaction on writes: [error] and [warn]
    write one entry each, whatever the verbose check says, and [log]
    writes one when the check returns true.  The text of the entry is the
    prefixed message after [redactString], so that no part of it, whether
    it came from the prefix or from the message, is a labelled code, a
    long hex run or a long base64 run; the other arguments are those of
    the call after [sanitizeArgs]. *)
Theorem logged_text_is_scrubbed (this : Logger) (message : string) (args : list Value)
        (console : Console) :
  enableRedaction this = true ->
  exists text,
    text = redactString (formatMessage this message) /\
    error heap d this message args console
    = console ++ [Write console_error (VStr text :: sanitizeArgs heap d args)] /\
    warn heap d this message args console
    = console ++ [Write console_warn (VStr text :: sanitizeArgs heap d args)] /\
    (forall console1,
        isVerboseEnabled this console = (console1, Normal true) ->
        log heap d this message args console
        = (console1 ++ [Write console_log (VStr text :: sanitizeArgs heap d args)],
           Normal tt)) /\
    forall pre w post,
      list_ascii_of_string text = pre ++ w ++ post ->
      ~ Matches true code_re w /\ ~ Matches true hex_re w /\ ~ Matches false base64_re w.
Proof.
  intros Hr. exists (redactString (formatMessage this message)).
  split; [reflexivity|].
  unfold error, warn, log, processLogData. rewrite Hr. cbn [negb].
  split; [reflexivity|]. split; [reflexivity|]. split.
  - intros console1 ->. reflexivity.
  - intros pre w post E. rewrite scrubbed_text in E.
    exact (scrub_no_long_run _ pre w post E).
Qed.

(** X12.  The logger made without a configuration asks the preferences on
    every call of [log].  If they cannot be read, [log] does not throw and
    does not write the message: the only entry is the logger's own
    complaint on [console.error], with the thrown value as it is; if they
    are read and verbose logging is unset or off, nothing is written; if
    it is on, the scrubbed message is.  [error] writes in all these
    cases. *)
Theorem log_asks_the_preferences (message : string) (args : list Value)
        (console : Console) :
  let this := logger getPreferenceValues in
  (forall thrown, getPreferenceValues tt = inl thrown ->
     log heap d this message args console
     = (console ++
          [Write console_error
             [VStr "[Logger] Failed to read preferences for verbose logging:"; thrown]],
        Normal tt)) /\
  (forall preferences,
     getPreferenceValues tt = inr preferences ->
     verboseLogging preferences <> Some true ->
     log heap d this message args console = (console, Normal tt)) /\
  (forall preferences,
     getPreferenceValues tt = inr preferences ->
     verboseLogging preferences = Some true ->
     log heap d this message args console
     = (console ++
          [Write console_log (VStr (redactString message) :: sanitizeArgs heap d args)],
        Normal tt)) /\
  error heap d this message args console
  = console ++
      [Write console_error (VStr (redactString message) :: sanitizeArgs heap d args)].
Proof.
  cbv zeta. unfold logger, getInstance, log, error, processLogData, formatMessage.
  cbn [fst new_Logger empty_config cfg_isVerboseEnabled cfg_prefix cfg_enableRedaction
       isVerboseEnabled prefix enableRedaction truthy negb String.eqb].
  unfold defaultVerboseCheck.
  split; [|split; [|split]].
  - intros thrown ->. reflexivity.
  - intros preferences -> Hv.
    destruct (verboseLogging preferences) as [[|]|]; try reflexivity. congruence.
  - intros preferences -> ->. reflexivity.
  - reflexivity.
Qed.

Lemma processLogData_redacts this message args :
  enableRedaction this = true ->
  processLogData heap d this message args
  = (redactString (formatMessage this message), sanitizeArgs heap d args).
Proof. intros H. unfold processLogData. rewrite H. reflexivity. Qed.

(** X13.  For a logger without prefix and with redaction on, what
    [processLogData] returns is settled: handing its message and its
    arguments (data without undefined, BigInt and sharing) to it again
    returns them unchanged.  Logging the output of the logger a second
    time masks nothing further. *)
Theorem processLogData_settles (this : Logger) (message : string) (args : list Value) :
  prefix this = ""%string -> enableRedaction this = true ->
  forallb json_data args = true ->
  processLogData heap d this
    (fst (processLogData heap d this message args))
    (snd (processLogData heap d this message args))
  = processLogData heap d this message args.
Proof.
  intros Hp Hr Hj. rewrite !(processLogData_redacts this _ _ Hr). cbn [fst snd].
  unfold formatMessage. rewrite Hp. cbn [truthy String.eqb negb].
  rewrite redactString_again.
  assert (sanitizeArgs heap d (sanitizeArgs heap d args) = sanitizeArgs heap d args) as ->.
  { unfold sanitizeArgs. clear -Hj. induction args as [|v args IH]; [reflexivity|].
    simpl in Hj. apply andb_true_iff in Hj. destruct Hj as [Hv Hj].
    cbn [map]. rewrite (sanitizeArg_again heap d v Hv), (IH Hj). reflexivity. }
  reflexivity.
Qed.
End LoggerFacts.

Lemma logged_text_is_scrubbed_witness :
  exists text,
    text = "[App] otp: ****** for u***@example.com"%string /\
    error empty_heap 3 app_logger "otp: 123456 for user@example.com"
      [VObj [("token"%string, VStr "abc")]] []
    = [Write console_error [VStr text; VObj [("token"%string, VStr "***")]]].
Proof.
  destruct (logged_text_is_scrubbed empty_heap 3 app_logger
              "otp: 123456 for user@example.com"
              [VObj [("token"%string, VStr "abc")]] [] eq_refl)
    as (text & Et & He & _).
  exists text. split; [rewrite Et; vm_compute; reflexivity | exact He].
Defined.

Lemma processLogData_settles_witness :
  processLogData empty_heap 3 (logger verbose_preferences)
    "pwd=***" [VObj [("token"%string, VStr "***")]]
  = ("pwd=***"%string, [VObj [("token"%string, VStr "***")]]).
Proof.
  exact (processLogData_settles empty_heap 3 (logger verbose_preferences)
           "pwd: hunter2" [VObj [("token"%string, VStr "abc")]]
           eq_refl eq_refl eq_refl).
Defined.

(* ------------------------------------------------------------------ *)
(** * A BigInt in the argument *)

(** X14.  An argument that holds a BigInt anywhere, however deep and in
    whichever branch, is returned by [sanitizeArgs] exactly as it was
    given, whatever the call stack allows: [JSON.stringify] throws at the
    BigInt, so that nothing in the argument is redacted, the strings under
    password and token in its other branches included. *)
Theorem sanitize_bigint (heap : Heap) (d : nat) (v : Value) :
  holds_bigint heap v -> sanitizeArgs heap d [v] = [v].
Proof.
  intros H. unfold sanitizeArgs. cbn [map]. f_equal.
  destruct (container v) eqn:Hc.
  - exact (doomed_sanitizeArg heap (holds_bigint heap) (holds_bigint_step heap) d v H Hc).
  - destruct v; try discriminate Hc; try reflexivity.
    exfalso. inversion H as [|? w Hr _]; subst. destruct Hr.
Qed.

Lemma sanitize_bigint_witness :
  sanitizeArgs empty_heap 9
    [VObj [("password"%string, VStr "hunter2");
           ("stats"%string, VArr [VNum 1; VObj [("bytes"%string, VBigInt 7)]])]]
  = [VObj [("password"%string, VStr "hunter2");
           ("stats"%string, VArr [VNum 1; VObj [("bytes"%string, VBigInt 7)]])]].
Proof.
  apply sanitize_bigint.
  apply holds_below with (w := VArr [VNum 1; VObj [("bytes"%string, VBigInt 7)]]);
    [unfold refers; simpl; auto|].
  apply holds_below with (w := VObj [("bytes"%string, VBigInt 7)]);
    [unfold refers; simpl; auto|].
  apply holds_below with (w := VBigInt 7); [unfold refers; simpl; auto | apply holds_here].
Defined.
